(** * Verification of the Beam Python bundle processor

    Shallow embedding of
    [sdks/python/apache_beam/runners/worker/bundle_processor.py]:
    the dynamic-split computation of [DataInputOperation], the synchronous
    keyed-state runtime ([RangeSet], bag / set / ordered-list commit,
    [CombiningValueRuntimeState]), the multimap side-input view and the
    bundle lifecycle of [BundleProcessor].

    Conventions.  Python [int] is [Z].  Python [float] is IEEE-754 binary64,
    taken from [SpecFloat] at precision 53 and maximal exponent 1024.  A
    Python call that may raise returns an [outcome].  Definitions come first
    (Part I), theorems afterwards (Part II). *)

From Stdlib Require Import String.
From Stdlib Require Import ZArith List Bool Lia Permutation Sorted.
From Stdlib Require Import Floats.SpecFloat.
Import ListNotations.
Open Scope Z_scope.

(* ================================================================== *)
(** * Part I.  The embedding                                           *)
(* ================================================================== *)

(** ** Exceptions *)

Inductive exn : Type :=
| ValueError
| OverflowError
| ZeroDivisionError
| KeyError
| AssertionError
| TypeError.

Inductive outcome (A : Type) : Type :=
| Returned (a : A)
| Raised (e : exn).
Arguments Returned {A} a.
Arguments Raised {A} e.

Definition bind {A B : Type} (m : outcome A) (k : A -> outcome B) : outcome B :=
  match m with
  | Returned a => k a
  | Raised e => Raised e
  end.

Declare Scope py_scope.
Delimit Scope py_scope with py.
Notation "x <- m ;; k" := (bind m (fun x => k))
  (at level 61, m at next level, right associativity) : py_scope.

(** ** Python floats *)

Module PyFloat.

Definition float := spec_float.
Definition prec : Z := 53.
Definition emax : Z := 1024.

(** [float(n)] for a Python int: correctly rounded, [OverflowError] when
    the integer is too large for a double. *)
Definition of_int (n : Z) : outcome float :=
  match binary_normalize prec emax n 0 false with
  | S754_infinity _ => Raised OverflowError
  | f => Returned f
  end.

Definition one : float := S754_finite false 4503599627370496 (-52).
Definition half : float := S754_finite false 4503599627370496 (-53).

Definition add (x y : float) : float := SFadd prec emax x y.
Definition sub (x y : float) : float := SFsub prec emax x y.
Definition mul (x y : float) : float := SFmul prec emax x y.
Definition ltb (x y : float) : bool := SFltb x y.

Definition is_zero (x : float) : bool :=
  match x with S754_zero _ => true | _ => false end.

(** [x / y] on floats raises [ZeroDivisionError] on a zero divisor. *)
Definition div (x y : float) : outcome float :=
  if is_zero y then Raised ZeroDivisionError
  else Returned (SFdiv prec emax x y).

(** [round(x)] with one argument: the nearest integer, ties to even;
    [ValueError] on NaN and [OverflowError] on an infinity. *)
Definition round (x : float) : outcome Z :=
  match x with
  | S754_nan => Raised ValueError
  | S754_infinity _ => Raised OverflowError
  | S754_zero _ => Returned 0
  | S754_finite s m e =>
      let mag :=
        match e with
        | Z0 => Zpos m
        | Zpos _ => Zpos m * 2 ^ e
        | Zneg p =>
            let d := 2 ^ Zpos p in
            let q := Zpos m / d in
            let r := Zpos m mod d in
            match (2 * r ?= d) with
            | Lt => q
            | Gt => q + 1
            | Eq => if Z.even q then q else q + 1
            end
        end in
      Returned (if s then - mag else mag)
  end.

End PyFloat.

(** ** Sorted sequences: [sorted], [bisect] and [sortedcontainers.SortedList] *)

Module Sorted_seq.

(** [SortedList.add] / one step of [sorted]: insertion keeping the order. *)
Fixpoint insert (x : Z) (l : list Z) : list Z :=
  match l with
  | [] => [x]
  | y :: l' => if x <=? y then x :: l else y :: insert x l'
  end.

(** [sorted(xs)] on integers. *)
Definition sorted (l : list Z) : list Z := fold_right insert [] l.

(** [bisect_left(a, x)]: on a sorted sequence, the number of entries
    strictly below [x] (index of the first entry [>= x]). *)
Fixpoint bisect_left (a : list Z) (x : Z) : nat :=
  match a with
  | [] => O
  | y :: a' => if y <? x then S (bisect_left a' x) else O
  end.

(** [bisect_right(a, x)] (also [bisect.bisect]): on a sorted sequence, the
    number of entries at most [x] (index of the first entry [> x]). *)
Fixpoint bisect_right (a : list Z) (x : Z) : nat :=
  match a with
  | [] => O
  | y :: a' => if y <=? x then S (bisect_right a' x) else O
  end.

(** [del a[i:j]]; nothing is removed when [j <= i]. *)
Definition del_slice (i j : nat) (a : list Z) : list Z :=
  firstn i a ++ skipn (Nat.max i j) a.

(** [x in a] for a sequence of integers. *)
Definition mem (x : Z) (a : list Z) : bool := existsb (Z.eqb x) a.

End Sorted_seq.

(** ** DataInputOperation *)

Module DataInput.
Import PyFloat Sorted_seq.
Local Open Scope py_scope.

(** [self.stop] is either [float('inf')] or an [int]. *)
Inductive bound : Type :=
| Fin (z : Z)
| Inf.

(** [n < b] and [n == b - 1] for an int [n] and a stop bound [b]. *)
Definition lt_bound (n : Z) (b : bound) : bool :=
  match b with Fin z => n <? z | Inf => true end.
Definition eq_pred_bound (n : Z) (b : bound) : bool :=
  match b with Fin z => n =? z - 1 | Inf => false end.

Section ComputeSplit.
(** Element-level primaries and residuals are opaque to the split. *)
Variables P R : Type.

(** The value of a successful split:
    [(primary_end, element_primaries, element_residuals, residual_start)]. *)
Definition split_result : Type := (Z * list P * list R * Z)%type.

Definition is_valid_split_point (allowed_split_points : list Z) (index : Z)
  : bool :=
  match allowed_split_points with
  | [] => true
  | _ => mem index allowed_split_points
  end.

(** Lines 325-339: the closest allowed split point. *)
Definition snap_to_allowed (index stop_index : Z)
           (allowed_split_points : list Z) : Z :=
  match allowed_split_points with
  | [] => stop_index
  | _ =>
    if mem stop_index allowed_split_points then stop_index
    else
      let allowed := sorted allowed_split_points in
      let closest := bisect_right allowed stop_index in
      if Nat.eqb closest 0 then nth 0 allowed 0
      else if Nat.eqb closest (length allowed) then last allowed 0
      else
        let prev := nth (closest - 1) allowed 0 in
        let next := nth closest allowed 0 in
        if (index <? prev) && (stop_index - prev <? next - stop_index)
        then prev else next
  end.

(** Lines 340-343. *)
Definition boundary_split (index stop_index : Z) (stop : bound)
  : option split_result :=
  if (index <? stop_index) && lt_bound stop_index stop
  then Some (stop_index - 1, [], [], stop_index)
  else None.

Definition _compute_split
           (index : Z) (current_element_progress : float) (stop : bound)
           (fraction_of_remainder : float) (total_buffer_size : Z)
           (allowed_split_points : list Z)
           (try_split : float -> option (list P * list R))
  : outcome (option split_result) :=
  let total_buffer_size :=
    if total_buffer_size <? index + 1 then index + 1
    else match stop with
         | Fin z => if z <? total_buffer_size then z else total_buffer_size
         | Inf => total_buffer_size
         end in
  span <- of_int (total_buffer_size - index) ;;
  let remainder := sub span current_element_progress in
  let keep := mul remainder fraction_of_remainder in
  let at_boundary (_ : unit) :=
    rounded <- round (add current_element_progress keep) ;;
    let stop_index := index + Z.max 1 rounded in
    let stop_index := snap_to_allowed index stop_index allowed_split_points in
    Returned (boundary_split index stop_index stop) in
  if ltb current_element_progress one then
    keep_of_element_remainder <- div keep (sub one current_element_progress) ;;
    if ltb keep_of_element_remainder one
       && is_valid_split_point allowed_split_points index
       && is_valid_split_point allowed_split_points (index + 1)
    then
      match try_split keep_of_element_remainder with
      | Some (element_primaries, element_residuals) =>
          Returned
            (Some (index - 1, element_primaries, element_residuals, index + 1))
      | None => at_boundary tt
      end
    else at_boundary tt
  else at_boundary tt.

End ComputeSplit.

(** *** The operation's state (lines 195-199) and its methods *)

Record DataInputOperation : Type := mkDataInputOperation {
  index : Z;
  stop : bound;
  started : bool
}.

(** [__init__] and [reset]. *)
Definition initial : DataInputOperation :=
  {| index := -1; stop := Inf; started := false |}.

Definition start (self : DataInputOperation) : DataInputOperation :=
  {| index := index self; stop := stop self; started := true |}.

Definition set_stop (self : DataInputOperation) (k : Z) : DataInputOperation :=
  {| index := index self; stop := Fin k; started := started self |}.

Definition increment_index (self : DataInputOperation) : DataInputOperation :=
  {| index := index self + 1; stop := stop self; started := started self |}.

(** [finish] (lines 345-349) closes the bundle: the index then counts the
    elements read.  [reset] (lines 351-355) rewinds for the next bundle. *)
Definition finish (self : DataInputOperation) : DataInputOperation :=
  {| index := index self + 1; stop := stop self; started := false |}.

Definition reset (self : DataInputOperation) : DataInputOperation :=
  {| index := -1; stop := Inf; started := started self |}.

Section Operation.
Variables P R : Type.

(** The arguments of one [try_split] call together with what the
    downstream receiver answers while the call holds the lock:
    [receivers[0].current_element_progress()] (an object carrying
    [fraction_completed], or [None]) and [receivers[0].try_split]. *)
Record split_request : Type := mkSplitRequest {
  fraction_of_remainder : float;
  total_buffer_size : Z;
  allowed_split_points : list Z;
  current_element_progress_object : option float;
  receiver_try_split : float -> option (list P * list R)
}.

(** [try_split] (lines 254-287).  An exception of [_compute_split]
    escapes before [self.stop] is assigned. *)
Definition try_split (self : DataInputOperation) (rq : split_request)
  : DataInputOperation * outcome (option (split_result P R)) :=
  if negb (started self) then (self, Returned None)
  else
    let current_element_progress :=
      if index self =? -1 then one
      else match current_element_progress_object rq with
           | None => half
           | Some fraction_completed => fraction_completed
           end in
    match _compute_split P R (index self) current_element_progress
            (stop self) (fraction_of_remainder rq) (total_buffer_size rq)
            (allowed_split_points rq) (receiver_try_split rq) with
    | Raised e => (self, Raised e)
    | Returned None => (self, Returned None)
    | Returned (Some split) => (set_stop self (snd split), Returned (Some split))
    end.

(** *** [process_encoded], one lock acquisition at a time

    The worker thread runs the loop of lines 225-237; the control thread
    may run [try_split] between any two steps, since the lock only
    covers the test and the increment.  The steps below are those of one
    bundle, from [start] up to but not including [finish]. *)

Variable V : Type.
(** [windowed_coder_impl.decode_from_stream(input_stream, True)]: the
    decoded value and the rest of the stream, or a failure. *)
Variable decode_from_stream : list Byte.byte -> option (V * list Byte.byte).

(** Where the worker thread stands. *)
Inductive position : Type :=
| Idle                                      (* outside [process_encoded] *)
| Loop_head (input_stream : list Byte.byte) (* about to test [size() > 0] *)
| Decoding (input_stream : list Byte.byte)  (* index incremented, lock released *)
| Crashed.                                  (* the [ValueError] escaped *)

Record world : Type := mkWorld {
  op : DataInputOperation;
  at_ : position;
  (** every [self.output(decoded_value)] so far, with its ordinal *)
  emitted : list (Z * V)
}.

Definition initial_world : world :=
  {| op := initial; at_ := Idle; emitted := [] |}.

Definition with_op (w : world) (o : DataInputOperation) : world :=
  {| op := o; at_ := at_ w; emitted := emitted w |}.

Inductive action : Type :=
| Start
| Process_encoded (encoded_windowed_values : list Byte.byte)
| Lock_and_advance
| Decode_and_output
| Try_split (rq : split_request).

(** One step; [None] when the action is not enabled. *)
Definition exec (a : action) (w : world) : option world :=
  match a with
  | Start => Some (with_op w (start (op w)))
  | Process_encoded bytes =>
      match at_ w with
      | Idle => Some {| op := op w; at_ := Loop_head bytes; emitted := emitted w |}
      | _ => None
      end
  | Lock_and_advance =>
      match at_ w with
      | Loop_head input_stream =>
          match input_stream with
          | [] => Some {| op := op w; at_ := Idle; emitted := emitted w |}
          | _ =>
            if eq_pred_bound (index (op w)) (stop (op w))
            then Some {| op := op w; at_ := Idle; emitted := emitted w |}
            else Some {| op := increment_index (op w);
                         at_ := Decoding input_stream;
                         emitted := emitted w |}
          end
      | _ => None
      end
  | Decode_and_output =>
      match at_ w with
      | Decoding input_stream =>
          match decode_from_stream input_stream with
          | Some (decoded_value, rest) =>
              Some {| op := op w; at_ := Loop_head rest;
                      emitted := emitted w ++ [(index (op w), decoded_value)] |}
          | None => Some {| op := op w; at_ := Crashed; emitted := emitted w |}
          end
      | _ => None
      end
  | Try_split rq => Some (with_op w (fst (try_split (op w) rq)))
  end.

Fixpoint run (acts : list action) (w : world) : option world :=
  match acts with
  | [] => Some w
  | a :: acts' =>
      match exec a w with
      | Some w' => run acts' w'
      | None => None
      end
  end.

(** [process_encoded] run by the worker alone, as the loop is written:
    the operation and the outputs afterwards, and whether the call
    returned or raised.  [None] when [fuel] iterations do not finish the
    loop. *)
Fixpoint process_encoded (fuel : nat) (self : DataInputOperation)
         (input_stream : list Byte.byte) (output : list (Z * V))
  : option (DataInputOperation * list (Z * V) * outcome unit) :=
  match fuel with
  | O => None
  | S fuel' =>
      match input_stream with
      | [] => Some (self, output, Returned tt)
      | _ =>
        if eq_pred_bound (index self) (stop self)
        then Some (self, output, Returned tt)
        else
          let self := increment_index self in
          match decode_from_stream input_stream with
          | Some (decoded_value, rest) =>
              process_encoded fuel' self rest
                              (output ++ [(index self, decoded_value)])
          | None => Some (self, output, Raised ValueError)
          end
      end
  end.

End Operation.

Arguments fraction_of_remainder {P R} s.
Arguments total_buffer_size {P R} s.
Arguments allowed_split_points {P R} s.
Arguments current_element_progress_object {P R} s.
Arguments receiver_try_split {P R} s.
Arguments try_split {P R} self rq.
Arguments mkWorld {V} op at_ emitted.
Arguments op {V} w.
Arguments at_ {V} w.
Arguments emitted {V} w.
Arguments initial_world {V}.
Arguments with_op {V} w o.
Arguments Start {P R}.
Arguments Process_encoded {P R} encoded_windowed_values.
Arguments Lock_and_advance {P R}.
Arguments Decode_and_output {P R}.
Arguments Try_split {P R} rq.
Arguments exec {P R V} decode_from_stream a w.
Arguments run {P R V} decode_from_stream acts w.
Arguments process_encoded {V} decode_from_stream fuel self input_stream output.

(** *** Vocabulary for the statements *)

(** [b1 <= b2] on stop bounds. *)
Definition bound_le (b1 b2 : bound) : Prop :=
  match b1, b2 with
  | _, Inf => True
  | Inf, Fin _ => False
  | Fin x, Fin y => x <= y
  end.

(** [index < stop]. *)
Definition below_stop (o : DataInputOperation) : Prop :=
  lt_bound (index o) (stop o) = true.

(** The worker stands at the boundary: outside the decode step, with
    [index == stop - 1]. *)
Definition at_boundary {V : Type} (w : world V) : Prop :=
  eq_pred_bound (index (op w)) (stop (op w)) = true
  /\ match at_ w with Decoding _ => False | _ => True end.

(** [p] is the greatest allowed point below [x]; [n] the least above. *)
Definition greatest_below (allowed : list Z) (x p : Z) : Prop :=
  In p allowed /\ p < x /\ forall a, In a allowed -> a < x -> a <= p.
Definition least_above (allowed : list Z) (x n : Z) : Prop :=
  In n allowed /\ x < n /\ forall a, In a allowed -> x < a -> n <= a.

End DataInput.


(** ** RangeSet (lines 694-739) *)

Module RangeSet.
Import Sorted_seq.

(** The start points and the end points are stored separately, in order. *)
Record t : Type := mk {
  _sorted_starts : list Z;
  _sorted_ends : list Z
}.

Definition empty : t := {| _sorted_starts := []; _sorted_ends := [] |}.

Definition add (self : t) (start end_ : Z) : t :=
  if start >=? end_ then self
  else
    let min_idx := bisect_left (_sorted_ends self) start in
    let max_idx := bisect_right (_sorted_starts self) end_ in
    if (length (_sorted_starts self) <=? min_idx)%nat || (max_idx <=? 0)%nat
    then
      {| _sorted_starts := insert start (_sorted_starts self);
         _sorted_ends := insert end_ (_sorted_ends self) |}
    else
      let new_start := Z.min start (nth min_idx (_sorted_starts self) 0) in
      let new_end := Z.max end_ (nth (max_idx - 1) (_sorted_ends self) 0) in
      {| _sorted_starts :=
           insert new_start (del_slice min_idx max_idx (_sorted_starts self));
         _sorted_ends :=
           insert new_end (del_slice min_idx max_idx (_sorted_ends self)) |}.

(** [__contains__] *)
Definition contains (self : t) (key : Z) : bool :=
  let idx := bisect_left (_sorted_starts self) key in
  ((idx <? length (_sorted_starts self))%nat
     && (nth idx (_sorted_starts self) 0 =? key))
  || ((0 <? idx)%nat && (key <? nth (idx - 1) (_sorted_ends self) 0)).

(** [__len__] and [__iter__] *)
Definition len (self : t) : nat := length (_sorted_starts self).
Definition ranges (self : t) : list (Z * Z) :=
  combine (_sorted_starts self) (_sorted_ends self).

(** A sequence of [add] calls on a fresh set. *)
Definition add_all (calls : list (Z * Z)) : t :=
  fold_left (fun rs c => add rs (fst c) (snd c)) calls empty.

(** *** Vocabulary for the statements *)

(** The set that stores the ranges [l], in this order. *)
Definition of_pairs (l : list (Z * Z)) : t :=
  {| _sorted_starts := map fst l; _sorted_ends := map snd l |}.

(** [r1] ends strictly before [r2] starts: the two half-open ranges
    neither overlap nor touch. *)
Definition apart (r1 r2 : Z * Z) : Prop := snd r1 < fst r2.

(** Non-empty ranges, each apart from every later one. *)
Definition separated (l : list (Z * Z)) : Prop :=
  Forall (fun r => fst r < snd r) l /\ StronglySorted apart l.

(** [p] lies in one of the half-open ranges [l]. *)
Definition covered (l : list (Z * Z)) (p : Z) : Prop :=
  exists r, In r l /\ fst r <= p < snd r.

End RangeSet.

(** ** The state service, as far as [commit] uses it

    [clear] and [extend] send a request and hand back a future; [get] on a
    future waits for that request.  The handler below records the requests
    in the order they were issued and which futures were waited on. *)

Module StateHandler.
Section Handler.
Variables K V : Type.

(** A state key, possibly narrowed to a range of sort keys
    ([ordered_list_user_state.range]). *)
Inductive state_key : Type :=
| Key (k : K)
| Range_key (k : K) (start end_ : Z).

Inductive request : Type :=
| Clear (key : state_key)
| Extend (key : state_key) (elements : list V).

Record t : Type := mk {
  requests : list request;
  awaited : list nat      (* futures on which [get()] returned *)
}.

(** A future is the position of its request. *)
Definition future : Type := nat.

Definition issue (h : t) (r : request) : t * future :=
  ({| requests := requests h ++ [r]; awaited := awaited h |},
   length (requests h)).

Definition clear (h : t) (key : state_key) : t * future :=
  issue h (Clear key).
Definition extend (h : t) (key : state_key) (elements : list V) : t * future :=
  issue h (Extend key elements).

Definition get (h : t) (f : future) : t :=
  {| requests := requests h; awaited := awaited h ++ [f] |}.

End Handler.
Arguments Key {K} k.
Arguments Range_key {K} k start end_.
Arguments Clear {K V} key.
Arguments Extend {K V} key elements.
Arguments requests {K V} t.
Arguments awaited {K V} t.
Arguments issue {K V} h r.
Arguments clear {K V} h key.
Arguments extend {K V} h key elements.
Arguments get {K V} h f.
End StateHandler.

(** ** Bag, set and ordered-list state (lines 597-865) *)

Module KeyedState.
Import StateHandler.

Section State.
Variables K V : Type.
Definition handler : Type := StateHandler.t K V.

(** *** SynchronousBagRuntimeState *)
Record Bag : Type := mkBag {
  bag_state_key : state_key K;
  bag_cleared : bool;
  bag_added_elements : list V
}.

(** [read]: the remote values unless cleared, then the local adds.
    [remote] is what [blocking_get] yields for the key. *)
Definition bag_read (remote : list V) (self : Bag) : list V :=
  (if bag_cleared self then [] else remote) ++ bag_added_elements self.

Definition bag_add (self : Bag) (value : V) : Bag :=
  {| bag_state_key := bag_state_key self;
     bag_cleared := bag_cleared self;
     bag_added_elements := bag_added_elements self ++ [value] |}.

Definition bag_clear (self : Bag) : Bag :=
  {| bag_state_key := bag_state_key self;
     bag_cleared := true;
     bag_added_elements := [] |}.

(** Lines 623-632 and 682-691 share this body: at most one future, the
    last one assigned to [to_await], is waited on. *)
Definition commit_cleared_added (key : state_key K) (cleared : bool)
           (added_elements : list V) (h : handler) : handler :=
  let to_await : option future := None in
  let '(h, to_await) :=
    if cleared
    then let '(h', f) := clear h key in (h', Some f)
    else (h, to_await) in
  let '(h, to_await) :=
    match added_elements with
    | [] => (h, to_await)
    | _ => let '(h', f) := extend h key added_elements in (h', Some f)
    end in
  match to_await with
  | Some f => get h f
  | None => h
  end.

Definition bag_commit (self : Bag) (h : handler) : handler :=
  commit_cleared_added (bag_state_key self) (bag_cleared self)
                       (bag_added_elements self) h.

(** *** SynchronousSetRuntimeState; the Python set is kept as the list
    of its members. *)
Record SetState : Type := mkSetState {
  set_state_key : state_key K;
  set_cleared : bool;
  set_added_elements : list V
}.

Definition set_clear (self : SetState) : SetState :=
  {| set_state_key := set_state_key self;
     set_cleared := true;
     set_added_elements := [] |}.

Definition set_commit (self : SetState) (h : handler) : handler :=
  commit_cleared_added (set_state_key self) (set_cleared self)
                       (set_added_elements self) h.

End State.

(** *** SynchronousOrderedListRuntimeState *)
Section OrderedList.
Variables K V : Type.
Definition ol_handler : Type := StateHandler.t K (Z * V).

Definition RANGE_MIN : Z := - 2 ^ 63.
Definition RANGE_MAX : Z := 2 ^ 63 - 1.

Record OrderedList : Type := mkOrderedList {
  ol_key : K;
  ol_cleared : bool;
  (** the [SortedDict]: ascending sort keys, each with its values *)
  ol_pending_adds : list (Z * list V);
  ol_pending_removes : RangeSet.t
}.

(** [setdefault(key, []).append(value)] on the sorted dict. *)
Fixpoint sorted_dict_append (key : Z) (value : V) (d : list (Z * list V))
  : list (Z * list V) :=
  match d with
  | [] => [(key, [value])]
  | (k, vs) :: d' =>
      if key <? k then (key, [value]) :: d
      else if key =? k then (k, vs ++ [value]) :: d'
      else (k, vs) :: sorted_dict_append key value d'
  end.

Definition ol_add (self : OrderedList) (key : Z) (value : V)
  : outcome OrderedList :=
  if (key >=? RANGE_MAX) || (key <? RANGE_MIN) then Raised ValueError
  else Returned
         {| ol_key := ol_key self;
            ol_cleared := ol_cleared self;
            ol_pending_adds := sorted_dict_append key value (ol_pending_adds self);
            ol_pending_removes := ol_pending_removes self |}.

Definition ol_clear (self : OrderedList) : OrderedList :=
  {| ol_key := ol_key self;
     ol_cleared := true;
     ol_pending_adds := [];
     ol_pending_removes := RangeSet.add RangeSet.empty RANGE_MIN RANGE_MAX |}.

Definition ol_clear_range (self : OrderedList) (min_key limit_key : Z)
  : OrderedList :=
  {| ol_key := ol_key self;
     ol_cleared := ol_cleared self;
     ol_pending_adds :=
       filter (fun kv => negb ((min_key <=? fst kv) && (fst kv <? limit_key)))
              (ol_pending_adds self);
     ol_pending_removes :=
       if ol_cleared self then ol_pending_removes self
       else RangeSet.add (ol_pending_removes self) min_key limit_key |}.

(** Issue one request per element of [rs], collecting the futures. *)
Fixpoint issue_all (h : ol_handler) (rs : list (request K (Z * V)))
  : ol_handler * list future :=
  match rs with
  | [] => (h, [])
  | r :: rs' =>
      let '(h1, f) := issue h r in
      let '(h2, fs) := issue_all h1 rs' in
      (h2, f :: fs)
  end.

(** [items_to_add]: every pending value paired with its sort key. *)
Definition items_to_add (d : list (Z * list V)) : list (Z * V) :=
  flat_map (fun kv => map (fun v => (fst kv, v)) (snd kv)) d.

(** Lines 837-865. *)
Definition ol_commit (self : OrderedList) (h : ol_handler)
  : OrderedList * ol_handler :=
  let '(h, futures) :=
    issue_all h
      (map (fun se => Clear (Range_key (ol_key self) (fst se) (snd se)))
           (RangeSet.ranges (ol_pending_removes self))) in
  let '(h, futures) :=
    match ol_pending_adds self with
    | [] => (h, futures)
    | _ =>
        let '(h', f) :=
          extend h (Key (ol_key self)) (items_to_add (ol_pending_adds self)) in
        (h', futures ++ [f])
    end in
  let h := fold_left get futures h in
  ({| ol_key := ol_key self;
      ol_cleared := false;
      ol_pending_adds := [];
      ol_pending_removes := RangeSet.empty |}, h).

(** [add] and [clear_range] calls, as a client issues them. *)
Inductive ol_call : Type :=
| Ol_add (key : Z) (value : V)
| Ol_clear_range (min_key limit_key : Z).

Fixpoint ol_calls (calls : list ol_call) (self : OrderedList)
  : outcome OrderedList :=
  match calls with
  | [] => Returned self
  | Ol_add key value :: rest =>
      bind (ol_add self key value) (ol_calls rest)
  | Ol_clear_range min_key limit_key :: rest =>
      ol_calls rest (ol_clear_range self min_key limit_key)
  end.

End OrderedList.

(** *** Vocabulary for the statements *)
Section Vocabulary.
Variables K V : Type.

(** The requests a commit sends for a cleared flag and buffered adds:
    the clear first, then the append. *)
Definition clear_then_append (key : state_key K) (cleared : bool)
           (added_elements : list V) : list (request K V) :=
  (if cleared then [Clear key] else [])
  ++ match added_elements with
     | [] => []
     | _ => [Extend key added_elements]
     end.

(** The future of the last of [n] requests issued on top of [h]. *)
Definition last_issued (h : StateHandler.t K V) (n : nat) : list future :=
  match n with
  | O => []
  | S n' => [(length (requests h) + n')%nat]
  end.

(** The futures of [n] requests issued on top of [h]. *)
Definition all_issued (h : StateHandler.t K V) (n : nat) : list future :=
  seq (length (requests h)) n.

(** Every request issued between [h] and [h'] has been waited on. *)
Definition awaits_all_issued (h h' : StateHandler.t K V) : Prop :=
  forall f : future,
    (length (requests h) <= f < length (requests h'))%nat ->
    In f (awaited h').

End Vocabulary.
End KeyedState.

(** ** CombiningValueRuntimeState (lines 533-575) *)

Module CombiningValue.
Import KeyedState.

Section Combining.
Variables K In Acc Out : Type.

(** The user's [CombineFn]. *)
Record CombineFn : Type := mkCombineFn {
  create_accumulator : Acc;
  add_input : Acc -> In -> Acc;
  merge_accumulators : list Acc -> Acc;
  extract_output : Acc -> Out
}.

Variable combinefn : CombineFn.
(** What the state service holds for the key during the bundle. *)
Variable remote : list Acc.

Definition _read_accumulator (rewrite : bool) (bag : Bag K Acc)
  : Bag K Acc * Acc :=
  let merged_accumulator :=
    merge_accumulators combinefn (bag_read K Acc remote bag) in
  if rewrite
  then (bag_add K Acc (bag_clear K Acc bag) merged_accumulator,
        merged_accumulator)
  else (bag, merged_accumulator).

Definition read (bag : Bag K Acc) : Bag K Acc * Out :=
  let '(bag', acc) := _read_accumulator true bag in
  (bag', extract_output combinefn acc).

(** [coin] is the outcome of [random.random() < 0.5]. *)
Definition add (coin : bool) (bag : Bag K Acc) (value : In) : Bag K Acc :=
  let '(bag, accumulator) :=
    if coin
    then let '(bag', acc) := _read_accumulator false bag in
         (bag_clear K Acc bag', acc)
    else (bag, create_accumulator combinefn) in
  bag_add K Acc bag (add_input combinefn accumulator value).

(** A client program: [add]s, each with the coin it drew, and [read]s. *)
Inductive call : Type :=
| Add (coin : bool) (value : In)
| Read.

(** Runs the calls in order; returns the final bag and what each
    [read] returned, in order. *)
Fixpoint run (calls : list call) (bag : Bag K Acc) : Bag K Acc * list Out :=
  match calls with
  | [] => (bag, [])
  | Add coin value :: rest => run rest (add coin bag value)
  | Read :: rest =>
      let '(bag', out) := read bag in
      let '(bag'', outs) := run rest bag' in
      (bag'', out :: outs)
  end.

(** *** Vocabulary for the statements *)

(** The merge of what the service holds with one fresh accumulator per
    added value, extracted. *)
Definition merged_output (added : list In) : Out :=
  extract_output combinefn
    (merge_accumulators combinefn
       (remote ++ map (add_input combinefn (create_accumulator combinefn)) added)).

(** What each [read] of a program should return, given the values
    [added] before the program starts. *)
Fixpoint expected_reads (calls : list call) (added : list In) : list Out :=
  match calls with
  | [] => []
  | Add _ value :: rest => expected_reads rest (added ++ [value])
  | Read :: rest => merged_output added :: expected_reads rest added
  end.

(** A bag nobody has written to yet. *)
Definition fresh_bag (key : StateHandler.state_key K) : Bag K Acc :=
  {| bag_state_key := key; bag_cleared := false; bag_added_elements := [] |}.

End Combining.
End CombiningValue.

(** ** The multimap side-input view (lines 443-494) *)

Module SideInput.
Section MultiMap.
Variables K V : Type.
Variable K_eqb : K -> K -> bool.

Definition _BULK_READ_LIMIT : nat := 100.

Inductive bulk_read_state : Type :=
| _BULK_READ_FULLY
| _BULK_READ_PARTIALLY.

(** What a lookup hands back: values held in memory, or a lazy
    [_StateBackedIterable] over the per-key state key, which reads the
    state service when iterated. *)
Inductive view : Type :=
| In_memory (values : list V)
| Point_lookup (key : K).

(** The Python dict [cache]. *)
Definition dict : Type := list (K * view).

Fixpoint dict_get (d : dict) (key : K) : option view :=
  match d with
  | [] => None
  | (k, v) :: d' => if K_eqb key k then Some v else dict_get d' key
  end.

Fixpoint dict_set (d : dict) (key : K) (v : view) : dict :=
  match d with
  | [] => [(key, v)]
  | (k, v0) :: d' =>
      if K_eqb key k then (k, v) :: d' else (k, v0) :: dict_set d' key v
  end.

Record MultiMap : Type := mkMultiMap {
  _bulk_read : option bulk_read_state;
  cache : dict
}.

Definition fresh : MultiMap := {| _bulk_read := None; cache := [] |}.

(** The bulk iterable as the state service serves it: the pairs it
    yields, and whether the iteration then ends or raises. *)
Record bulk_iterable : Type := mkBulkIterable {
  pairs : list (K * list V);
  raises : bool
}.

(** The [for ix, (k, vs) in enumerate(...)] loop with its [else] and
    [except] clauses (lines 452-475), from enumeration index [ix]. *)
Fixpoint bulk_loop (ix : nat) (items : list (K * list V)) (raises : bool)
         (cache : dict) : dict * bulk_read_state :=
  match items with
  | [] => (cache, if raises then _BULK_READ_PARTIALLY else _BULK_READ_FULLY)
  | (k, vs) :: rest =>
      let cache := dict_set cache k (In_memory vs) in
      if (_BULK_READ_LIMIT <? ix)%nat then (cache, _BULK_READ_PARTIALLY)
      else bulk_loop (S ix) rest raises cache
  end.

(** [MultiMap.__getitem__]. *)
Definition getitem (use_bulk_read : bool) (source : bulk_iterable)
           (self : MultiMap) (key : K) : MultiMap * view :=
  let self :=
    if use_bulk_read then
      match _bulk_read self with
      | None =>
          let '(c, st) := bulk_loop 0 (pairs source) (raises source) (cache self) in
          {| _bulk_read := Some st; cache := c |}
      | Some _ => self
      end
    else self in
  let fully :=
    use_bulk_read &&
    match _bulk_read self with Some _BULK_READ_FULLY => true | _ => false end in
  if fully then
    (self, match dict_get (cache self) key with
           | Some v => v
           | None => In_memory []
           end)
  else
    match dict_get (cache self) key with
    | Some v => (self, v)
    | None =>
        ({| _bulk_read := _bulk_read self;
            cache := dict_set (cache self) key (Point_lookup key) |},
         Point_lookup key)
    end.

(** Successive lookups on one view; each comes with the bulk iterable
    the state service would serve at that moment. *)
Fixpoint lookups (use_bulk_read : bool) (self : MultiMap)
         (calls : list (bulk_iterable * K)) : MultiMap * list view :=
  match calls with
  | [] => (self, [])
  | (source, key) :: rest =>
      let '(self1, v) := getitem use_bulk_read source self key in
      let '(self2, vs) := lookups use_bulk_read self1 rest in
      (self2, v :: vs)
  end.

(** *** Vocabulary for the statements *)

(** The enumeration reaches an index above the limit. *)
Definition exceeds_limit (source : bulk_iterable) : Prop :=
  exists ix : nat,
    (ix < length (pairs source))%nat /\ (_BULK_READ_LIMIT < ix)%nat.

(** The pairs the loop stores before it ends or breaks. *)
Definition stored_pairs (source : bulk_iterable) : list (K * list V) :=
  firstn (_BULK_READ_LIMIT + 2) (pairs source).

(** The cache those pairs make. *)
Definition bulk_cache (source : bulk_iterable) : dict :=
  fold_left (fun c kv => dict_set c (fst kv) (In_memory (snd kv)))
            (stored_pairs source) [].

(** The view once the bulk read has been attempted. *)
Definition loaded (source : bulk_iterable) : MultiMap :=
  {| _bulk_read :=
       Some (if (_BULK_READ_LIMIT + 1 <? length (pairs source))%nat
             then _BULK_READ_PARTIALLY
             else if raises source then _BULK_READ_PARTIALLY
                  else _BULK_READ_FULLY);
     cache := bulk_cache source |}.

(** A lookup answered from a cache, with [missing] for absent keys. *)
Definition answer (c : dict) (missing : K -> view) (key : K) : view :=
  match dict_get c key with
  | Some v => v
  | None => missing key
  end.

End MultiMap.
End SideInput.

(** ** BundleProcessor (lines 1080-1348) *)

Module Bundle.
Local Open Scope py_scope.

(** The transform URNs the lifecycle distinguishes. *)
Inductive urn : Type :=
| DATA_INPUT_URN
| DATA_OUTPUT_URN
| PAR_DO
| OTHER_URN.

Record PTransform : Type := mkPTransform {
  spec_urn : urn;
  inputs : list (string * string);     (* tag -> pcollection id *)
  outputs : list (string * string);    (* tag -> pcollection id *)
  side_inputs : list string            (* tags of the ParDo payload *)
}.

(** [descriptor.transforms], in its iteration order. *)
Definition descriptor : Type := list (string * PTransform).

Definition is_side_input (transform_proto : PTransform) (tag : string) : bool :=
  match spec_urn transform_proto with
  | PAR_DO => existsb (String.eqb tag) (side_inputs transform_proto)
  | _ => false
  end.

(** [pcoll_consumers[pcoll_id]] after the loop of lines 1160-1163. *)
Definition pcoll_consumers (d : descriptor) (pcoll_id : string) : list string :=
  flat_map
    (fun entry =>
       flat_map
         (fun input =>
            if negb (is_side_input (snd entry) (fst input))
               && String.eqb (snd input) pcoll_id
            then [fst entry] else [])
         (inputs (snd entry)))
    d.

Fixpoint lookup (d : descriptor) (transform_id : string) : option PTransform :=
  match d with
  | [] => None
  | (id, t) :: d' => if String.eqb transform_id id then Some t else lookup d' transform_id
  end.

(** The consumers [topological_height] recurses into. *)
Definition consumers (d : descriptor) (transform_id : string) : list string :=
  match lookup d transform_id with
  | Some t => flat_map (fun output => pcoll_consumers d (snd output)) (outputs t)
  | None => []
  end.

Fixpoint all_some {A : Type} (l : list (option A)) : option (list A) :=
  match l with
  | [] => Some []
  | None :: _ => None
  | Some a :: l' =>
      match all_some l' with
      | Some r => Some (a :: r)
      | None => None
      end
  end.

(** [max] of a Python list of ints that starts with [0]. *)
Definition max_list (l : list Z) : Z := fold_right Z.max 0 l.

(** [topological_height], with the recursion depth made explicit:
    [None] when [depth] nested calls do not suffice. *)
Fixpoint topological_height (depth : nat) (d : descriptor)
         (transform_id : string) : option Z :=
  match depth with
  | O => None
  | S depth' =>
      match all_some (map (topological_height depth' d) (consumers d transform_id)) with
      | Some heights => Some (1 + max_list (0 :: heights))
      | None => None
      end
  end.

(** [sorted(..., key=..., reverse=True)]: descending and stable. *)
Fixpoint insert_desc (x : string * Z) (l : list (string * Z)) : list (string * Z) :=
  match l with
  | [] => [x]
  | y :: l' => if snd x <? snd y then y :: insert_desc x l' else x :: l
  end.

Definition sorted_desc (l : list (string * Z)) : list (string * Z) :=
  fold_right insert_desc [] l.

(** A chain of consumers visits each transform at most once, so
    [length d] nested calls are enough on an acyclic descriptor. *)
Definition heights (d : descriptor) : option (list (string * Z)) :=
  all_some
    (map (fun entry =>
            match topological_height (length d) d (fst entry) with
            | Some h => Some (fst entry, h)
            | None => None
            end) d).

(** [create_execution_tree]: the transform ids in the order of
    [self.ops], each with the kind of operation built for it. *)
Definition create_execution_tree (d : descriptor) : option (list string) :=
  match heights d with
  | Some keyed => Some (map fst (sorted_desc keyed))
  | None => None
  end.

(** What [process_bundle] does to its collaborators, in order. *)
Inductive event : Type :=
| Set_output_stream (instruction_id transform_id : string)
| Op_start (instruction_id transform_id : string)
| Output_timer_stream (instruction_id transform_id timer_family_id : string)
| Process_timer (transform_id timer_family_id : string) (timer_data : list Byte.byte)
| Process_encoded (transform_id : string) (data : list Byte.byte)
| Op_finish (transform_id : string)
| Close_timer_stream (transform_id timer_family_id : string).

(** What a data channel delivers. *)
Inductive element : Type :=
| Timers (transform_id timer_family_id : string) (timers : list (list Byte.byte))
| Data (transform_id : string) (data : list Byte.byte).

Record BundleProcessor : Type := mkBundleProcessor {
  (** [self.ops]: transform id and the URN its operation was built from *)
  ops : list (string * urn);
  timers_info : list (string * string);
  has_timer_data_channel : bool;
  current_instruction_id : option string;
  consuming_received_data : bool;
  (** [self.state_sampler]: progress tracking is running *)
  tracking : bool
}.

(** Modelled from the spec: [state_sampler.start()] and
    [state_sampler.stop_if_still_running()], whose class (statesampler.py)
    is not among the sources.  The spec has [process_bundle] fail if
    another instruction is already current, and stop progress tracking on
    every exit path: [start] fails while tracking runs, and
    [stop_if_still_running] ends it. *)
Definition state_sampler_start (self : BundleProcessor)
  : outcome BundleProcessor :=
  if tracking self then Raised AssertionError
  else Returned {| ops := ops self;
                   timers_info := timers_info self;
                   has_timer_data_channel := has_timer_data_channel self;
                   current_instruction_id := current_instruction_id self;
                   consuming_received_data := consuming_received_data self;
                   tracking := true |}.

Definition state_sampler_stop_if_still_running (self : BundleProcessor)
  : BundleProcessor :=
  {| ops := ops self;
     timers_info := timers_info self;
     has_timer_data_channel := has_timer_data_channel self;
     current_instruction_id := current_instruction_id self;
     consuming_received_data := consuming_received_data self;
     tracking := false |}.

Section Process.
(** Whether a collaborator's call raises. *)
Variable fails : event -> bool.

Definition call (ev : event) (trace : list event) : outcome (list event) :=
  if fails ev then Raised ValueError else Returned (trace ++ [ev]).

Fixpoint call_all (evs : list event) (trace : list event)
  : outcome (list event) :=
  match evs with
  | [] => Returned trace
  | ev :: evs' => trace' <- call ev trace ;; call_all evs' trace'
  end.

Definition is_data_input (o : string * urn) : bool :=
  match snd o with DATA_INPUT_URN => true | _ => false end.
Definition is_data_output (o : string * urn) : bool :=
  match snd o with DATA_OUTPUT_URN => true | _ => false end.

Definition has_key (k : string) (l : list string) : bool :=
  existsb (String.eqb k) l.
Definition has_pair (k : string * string) (l : list (string * string)) : bool :=
  existsb (fun p => String.eqb (fst k) (fst p) && String.eqb (snd k) (snd p)) l.

(** Lines 1260-1277 for one delivered element. *)
Definition dispatch (self : BundleProcessor) (e : element)
           (trace : list event) : outcome (list event) :=
  match e with
  | Timers transform_id timer_family_id timers =>
      if has_pair (transform_id, timer_family_id) (timers_info self)
      then call_all (map (Process_timer transform_id timer_family_id) timers) trace
      else Raised KeyError
  | Data transform_id data =>
      if has_key transform_id (map fst (filter is_data_input (ops self)))
      then call (Process_encoded transform_id data) trace
      else Raised KeyError
  end.

Fixpoint dispatch_all (self : BundleProcessor) (es : list element)
         (trace : list event) : outcome (list event) :=
  match es with
  | [] => Returned trace
  | e :: es' => trace' <- dispatch self e trace ;; dispatch_all self es' trace'
  end.

Definition with_instruction (self : BundleProcessor) (i : option string)
  : BundleProcessor :=
  {| ops := ops self;
     timers_info := timers_info self;
     has_timer_data_channel := has_timer_data_channel self;
     current_instruction_id := i;
     consuming_received_data := false;
     tracking := tracking self |}.

(** The [try] block of [process_bundle] from line 1223 on, on the
    processor whose marker has been set and whose state sampler has been
    started.  The [assert] of line 1286 fails for a timer family whose
    output stream was never set, that is, when there is no timer data
    channel. *)
Definition process_bundle_body (self : BundleProcessor)
           (instruction_id : string) (input_elements : list element)
           (trace : list event) : outcome (list event) :=
  trace <- call_all (map (fun o => Op_start instruction_id (fst o))
                         (rev (ops self))) trace ;;
  trace <- (if has_timer_data_channel self
            then call_all (map (fun ti => Output_timer_stream instruction_id
                                                          (fst ti) (snd ti))
                               (timers_info self)) trace
            else Returned trace) ;;
  trace <- dispatch_all self input_elements trace ;;
  trace <- call_all (map (fun o => Op_finish (fst o)) (ops self)) trace ;;
  if has_timer_data_channel self
  then call_all (map (fun ti => Close_timer_stream (fst ti) (snd ti))
                     (timers_info self)) trace
  else match timers_info self with
       | [] => Returned trace
       | _ :: _ => Raised AssertionError
       end.

(** [process_bundle]: the processor afterwards, and either the calls
    made (in order) or the exception that escaped. *)
Definition process_bundle (self : BundleProcessor) (instruction_id : string)
           (input_elements : list element)
  : BundleProcessor * outcome (list event) :=
  match call_all (map (fun o => Set_output_stream instruction_id (fst o))
                      (filter is_data_output (ops self))) [] with
  | Raised e => (self, Raised e)
  | Returned trace =>
      (* try: lines 1221 and 1222 *)
      let self := with_instruction self (Some instruction_id) in
      let '(self, result) :=
        match state_sampler_start self with
        | Raised e => (self, Raised e)
        | Returned self =>
            (self, process_bundle_body self instruction_id input_elements trace)
        end in
      (* finally *)
      (state_sampler_stop_if_still_running (with_instruction self None), result)
  end.

(** [try_split] of the processor, as far as the instruction marker
    decides: [None] for a stale request, else the data inputs asked. *)
Definition split_targets (self : BundleProcessor) (request_instruction_id : string)
  : option (list string) :=
  match current_instruction_id self with
  | Some i =>
      if String.eqb request_instruction_id i
      then Some (map fst (filter is_data_input (ops self)))
      else None
  | None => None
  end.

End Process.

(** [__init__]: the operations of a descriptor, not yet in a bundle. *)
Definition make (d : descriptor) (timers : list (string * string))
           (timer_channel : bool) : option BundleProcessor :=
  match create_execution_tree d with
  | Some ids =>
      Some {| ops := map (fun id => (id, match lookup d id with
                                         | Some t => spec_urn t
                                         | None => OTHER_URN
                                         end)) ids;
              timers_info := timers;
              has_timer_data_channel := timer_channel;
              current_instruction_id := None;
              consuming_received_data := false;
              tracking := false |}
  | None => None
  end.

(** The transform ids of the [Op_start] and of the [Op_finish] calls of a
    trace, in the order the calls were made. *)
Definition started_order (trace : list event) : list string :=
  flat_map (fun ev => match ev with Op_start _ id => [id] | _ => [] end) trace.
Definition finished_order (trace : list event) : list string :=
  flat_map (fun ev => match ev with Op_finish id => [id] | _ => [] end) trace.

(** *** Vocabulary for the statements *)

(** The height Python computes for a transform of [d]. *)
Definition height_of (d : descriptor) (transform_id : string) : Z :=
  match topological_height (length d) d transform_id with
  | Some h => h
  | None => 0
  end.

(** In [sorted_desc] order: the earlier entry is at least as high. *)
Definition by_height_desc (x y : string * Z) : Prop := snd x >= snd y.

(** The calls made while the inputs are pumped. *)
Definition is_processing (ev : event) : Prop :=
  match ev with
  | Process_timer _ _ _ | Process_encoded _ _ => True
  | _ => False
  end.

Definition ascending (l : list Z) : Prop := StronglySorted Z.le l.
Definition descending (l : list Z) : Prop := StronglySorted Z.ge l.

(** The processor as the operations of a bundle, and other threads, see
    it while [instruction_id] runs: inside the [try], after line 1222. *)
Definition during (self : BundleProcessor) (instruction_id : string)
  : BundleProcessor :=
  {| ops := ops self;
     timers_info := timers_info self;
     has_timer_data_channel := has_timer_data_channel self;
     current_instruction_id := Some instruction_id;
     consuming_received_data := false;
     tracking := true |}.


End Bundle.

(** ** Sample inputs *)

Module Samples.
Import PyFloat DataInput.

(** A coder whose every element is one byte. *)
Definition byte_decoder (input_stream : list Byte.byte)
  : option (Byte.byte * list Byte.byte) :=
  match input_stream with
  | [] => None
  | b :: rest => Some (b, rest)
  end.

(** Keep half of what remains of [total] buffered elements; the receiver
    reports no progress and cannot split an element. *)
Definition keep_half_of (total : Z) : split_request unit unit :=
  {| fraction_of_remainder := half;
     total_buffer_size := total;
     allowed_split_points := [];
     current_element_progress_object := None;
     receiver_try_split := fun _ => None |}.

Definition started_world : world Byte.byte :=
  {| op := start initial; at_ := Idle; emitted := [] |}.

Definition three_bytes : list Byte.byte := [Byte.x01; Byte.x02; Byte.x03].

(** After a split at 1 and one decoded element: the loop is back at its
    head with two bytes left, and [index == stop - 1]. *)
Definition boundary_world : world Byte.byte :=
  {| op := {| index := 0; stop := Fin 1; started := true |};
     at_ := Loop_head [Byte.x02; Byte.x03];
     emitted := [(0, Byte.x01)] |}.

(** The same once that call has returned and a further buffer has been
    delivered and dropped. *)
Definition drained_world : world Byte.byte :=
  {| op := {| index := 0; stop := Fin 1; started := true |};
     at_ := Idle;
     emitted := [(0, Byte.x01)] |}.

(** In the middle of the first element, after a split at 5. *)
Definition split_at_5_world : world Byte.byte :=
  {| op := {| index := 0; stop := Fin 5; started := true |};
     at_ := Decoding three_bytes;
     emitted := [] |}.

(** The integer sum as a combine function. *)
Definition sum_fn : CombiningValue.CombineFn Z Z Z :=
  {| CombiningValue.create_accumulator := 0;
     CombiningValue.add_input := Z.add;
     CombiningValue.merge_accumulators := fun accs => fold_right Z.add 0 accs;
     CombiningValue.extract_output := fun acc => acc |}.

(** A bag that was cleared and then written to once. *)
Definition cleared_bag_with_7 : KeyedState.Bag Z Z :=
  {| KeyedState.bag_state_key := StateHandler.Key 0;
     KeyedState.bag_cleared := true;
     KeyedState.bag_added_elements := [7] |}.

Definition idle_handler : StateHandler.t Z Z :=
  {| StateHandler.requests := []; StateHandler.awaited := [] |}.

Definition fresh_ordered_list : KeyedState.OrderedList Z Z :=
  {| KeyedState.ol_key := 0;
     KeyedState.ol_cleared := false;
     KeyedState.ol_pending_adds := [];
     KeyedState.ol_pending_removes := RangeSet.empty |}.

(** A source feeding a sink through one collection. *)
Definition source_to_sink : Bundle.descriptor :=
  [("source"%string,
    {| Bundle.spec_urn := Bundle.DATA_INPUT_URN;
       Bundle.inputs := [];
       Bundle.outputs := [("out"%string, "pc"%string)];
       Bundle.side_inputs := [] |});
   ("sink"%string,
    {| Bundle.spec_urn := Bundle.DATA_OUTPUT_URN;
       Bundle.inputs := [("in"%string, "pc"%string)];
       Bundle.outputs := [];
       Bundle.side_inputs := [] |})].

(** The processor built for it, and the same while instruction
    ["earlier"] runs. *)
Definition source_sink_processor : Bundle.BundleProcessor :=
  {| Bundle.ops := [("source"%string, Bundle.DATA_INPUT_URN);
                    ("sink"%string, Bundle.DATA_OUTPUT_URN)];
     Bundle.timers_info := [];
     Bundle.has_timer_data_channel := false;
     Bundle.current_instruction_id := None;
     Bundle.consuming_received_data := false;
     Bundle.tracking := false |}.


Definition nothing_fails (ev : Bundle.event) : bool := false.

(** The calls of one bundle ["b"] that delivers three bytes. *)
Definition bundle_b_trace : list Bundle.event :=
  [Bundle.Set_output_stream "b" "sink"; Bundle.Op_start "b" "sink";
   Bundle.Op_start "b" "source";
   Bundle.Process_encoded "source" three_bytes;
   Bundle.Op_finish "source"; Bundle.Op_finish "sink"]%string.

(** An ordered list after [clear], two adds and a ranged clear. *)
Definition cleared_list_with_20 : KeyedState.OrderedList Z Z :=
  {| KeyedState.ol_key := 0;
     KeyedState.ol_cleared := true;
     KeyedState.ol_pending_adds := [(20, [7])];
     KeyedState.ol_pending_removes :=
       RangeSet.add RangeSet.empty KeyedState.RANGE_MIN KeyedState.RANGE_MAX |}.

(** A bulk iterable of [n] pairs [(0, [0]), (1, [1]), ...]. *)
Definition counting_source (n : nat) (raises : bool)
  : SideInput.bulk_iterable Z Z :=
  {| SideInput.pairs := map (fun i => (Z.of_nat i, [Z.of_nat i])) (seq 0 n);
     SideInput.raises := raises |}.

End Samples.

(** ** What a buffer holds, for [process_encoded] run alone *)

Module Buffer.
Import DataInput.

Section Buffer.
Variable V : Type.
Variable decode_from_stream : list Byte.byte -> option (V * list Byte.byte).

(** The stream decodes, element after element, to [vs] and is then empty. *)
Inductive holds : list Byte.byte -> list V -> Prop :=
| holds_nil : holds [] []
| holds_cons b s v rest vs :
    decode_from_stream (b :: s) = Some (v, rest) ->
    holds rest vs ->
    holds (b :: s) (v :: vs).

(** The stream decodes to [vs] and then, not yet empty, fails to decode. *)
Inductive holds_then_fails : list Byte.byte -> list V -> Prop :=
| fails_here b s :
    decode_from_stream (b :: s) = None ->
    holds_then_fails (b :: s) []
| fails_later b s v rest vs :
    decode_from_stream (b :: s) = Some (v, rest) ->
    holds_then_fails rest vs ->
    holds_then_fails (b :: s) (v :: vs).

(** The values with their ordinals, counting from [first]. *)
Fixpoint numbered (first : Z) (vs : list V) : list (Z * V) :=
  match vs with
  | [] => []
  | v :: vs' => (first, v) :: numbered (first + 1) vs'
  end.

End Buffer.

(** Of [n] buffered elements, how many the stop bound lets through. *)
Definition allowance (self : DataInputOperation) (n : nat) : nat :=
  match stop self with
  | Inf => n
  | Fin k => Nat.min n (Z.to_nat (k - 1 - index self))
  end.

(** The operation after [n] more elements have been counted. *)
Definition advanced (self : DataInputOperation) (n : nat) : DataInputOperation :=
  {| index := index self + Z.of_nat n; stop := stop self; started := started self |}.

End Buffer.

(** ** The processor's [try_split] (lines 1310-1348) *)

Module ProcessorSplit.
Import PyFloat DataInput.

(** [desired_splits[transform_id]] of the request. *)
Record DesiredSplit : Type := mkDesiredSplit {
  ds_fraction_of_remainder : float;
  ds_estimated_input_elements : Z;
  ds_allowed_split_points : list Z
}.

Record ChannelSplit : Type := mkChannelSplit {
  cs_transform_id : string;
  last_primary_element : Z;
  first_residual_element : Z
}.

Section Response.
(** Element primaries and residuals, as the receivers hand them over. *)
Variables P R : Type.

Record SplitResponse : Type := mkSplitResponse {
  primary_roots : list P;
  residual_roots : list R;
  channel_splits : list ChannelSplit
}.

Definition empty_response : SplitResponse :=
  {| primary_roots := []; residual_roots := []; channel_splits := [] |}.

Fixpoint desired_get (desired_splits : list (string * DesiredSplit))
         (transform_id : string) : option DesiredSplit :=
  match desired_splits with
  | [] => None
  | (id, ds) :: rest =>
      if String.eqb transform_id id then Some ds else desired_get rest transform_id
  end.

(** What the receiver of a data input answers during the call: its
    progress object and its element splitter. *)
Definition receiver_answers : Type :=
  string -> option float * (float -> option (list P * list R)).

(** The loop of lines 1319-1346 over the data input operations, in the
    order of [self.ops].  An exception of one operation's [try_split]
    escapes; the operations split before it keep their new stop. *)
Fixpoint split_inputs (data_inputs : list (string * DataInputOperation))
         (desired_splits : list (string * DesiredSplit))
         (receivers : receiver_answers) (split_response : SplitResponse)
  : list (string * DataInputOperation) * outcome SplitResponse :=
  match data_inputs with
  | [] => ([], Returned split_response)
  | (transform_id, op) :: rest =>
      match desired_get desired_splits transform_id with
      | None =>
          let '(rest', r) := split_inputs rest desired_splits receivers split_response in
          ((transform_id, op) :: rest', r)
      | Some desired_split =>
          match DataInput.try_split op
                  {| fraction_of_remainder := ds_fraction_of_remainder desired_split;
                     total_buffer_size := ds_estimated_input_elements desired_split;
                     allowed_split_points := ds_allowed_split_points desired_split;
                     current_element_progress_object := fst (receivers transform_id);
                     receiver_try_split := snd (receivers transform_id) |} with
          | (op', Raised e) => ((transform_id, op') :: rest, Raised e)
          | (op', Returned None) =>
              let '(rest', r) :=
                split_inputs rest desired_splits receivers split_response in
              ((transform_id, op') :: rest', r)
          | (op', Returned (Some (primary_end, element_primaries,
                                  element_residuals, residual_start))) =>
              let split_response :=
                {| primary_roots := primary_roots split_response ++ element_primaries;
                   residual_roots := residual_roots split_response ++ element_residuals;
                   channel_splits :=
                     channel_splits split_response
                     ++ [ {| cs_transform_id := transform_id;
                             last_primary_element := primary_end;
                             first_residual_element := residual_start |} ] |} in
              let '(rest', r) :=
                split_inputs rest desired_splits receivers split_response in
              ((transform_id, op') :: rest', r)
          end
      end
  end.

(** [BundleProcessor.try_split]: a request for another instruction than
    the current one is answered with the empty response.  A desired split
    that is present is a message, hence true; building the roots of the
    response from the primaries and residuals is taken not to raise. *)
Definition try_split (self : Bundle.BundleProcessor)
           (data_inputs : list (string * DataInputOperation))
           (request_instruction_id : string)
           (desired_splits : list (string * DesiredSplit))
           (receivers : receiver_answers)
  : list (string * DataInputOperation) * outcome SplitResponse :=
  match Bundle.current_instruction_id self with
  | Some current =>
      if String.eqb request_instruction_id current
      then split_inputs data_inputs desired_splits receivers empty_response
      else (data_inputs, Returned empty_response)
  | None => (data_inputs, Returned empty_response)
  end.

(** *** Vocabulary for the statements *)

(** What [try_split] may do to one data input: nothing, or set its
    stop to the residual start reported for it. *)
Definition split_or_kept (response : SplitResponse)
           (before after : string * DataInputOperation) : Prop :=
  fst after = fst before
  /\ index (snd after) = index (snd before)
  /\ started (snd after) = started (snd before)
  /\ (stop (snd after) = stop (snd before)
      \/ exists cs, In cs (channel_splits response)
                    /\ cs_transform_id cs = fst before
                    /\ stop (snd after) = Fin (first_residual_element cs)
                    /\ index (snd before) < first_residual_element cs).

End Response.
End ProcessorSplit.

(** ** Vocabulary for the bundle's calls *)

Module BundleCalls.
Import Bundle.

(** The calls that deliver the elements [es], in order. *)
Definition delivered (es : list element) : list event :=
  flat_map (fun e => match e with
                     | Timers transform_id timer_family_id timers =>
                         map (Process_timer transform_id timer_family_id) timers
                     | Data transform_id data => [Process_encoded transform_id data]
                     end) es.

(** All the calls of a bundle that completes. *)
Definition complete_trace (self : BundleProcessor) (instruction_id : string)
           (es : list element) : list event :=
  map (fun o => Set_output_stream instruction_id (fst o))
      (filter is_data_output (ops self))
  ++ map (fun o => Op_start instruction_id (fst o)) (rev (ops self))
  ++ (if has_timer_data_channel self
      then map (fun ti => Output_timer_stream instruction_id (fst ti) (snd ti))
               (timers_info self)
      else [])
  ++ delivered es
  ++ map (fun o => Op_finish (fst o)) (ops self)
  ++ map (fun ti => Close_timer_stream (fst ti) (snd ti)) (timers_info self).

(** [a] comes before [b] in [l]. *)
Definition precedes {A : Type} (a b : A) (l : list A) : Prop :=
  exists l1 l2 l3, l = l1 ++ a :: l2 ++ b :: l3.

End BundleCalls.

(** ** What the state service holds

    [clear] and [extend] reach the service in the order in which they
    were issued, and a later [blocking_get] for the key sees them.  The
    service itself is not part of this file: it is a parameter, and the
    statements that need it say what they assume of it. *)

Module Service.
Import StateHandler.

Section Service.
Variables K V S : Type.
(** What [blocking_get] yields for the key of one state object. *)
Variable blocking_get : S -> list V.
Variable do_clear : S -> S.
Variable do_extend : S -> list V -> S.

Definition perform (s : S) (r : request K V) : S :=
  match r with
  | Clear _ => do_clear s
  | Extend _ elements => do_extend s elements
  end.

(** The service once it has performed the requests of [h], which are
    those that the state object of this key has sent. *)
Definition replay (s0 : S) (h : StateHandler.t K V) : S :=
  fold_left perform (requests h) s0.

(** [_StateBackedIterable(state_handler, state_key, coder)], iterated. *)
Definition remote (s0 : S) (h : StateHandler.t K V) : list V :=
  blocking_get (replay s0 h).

(** A clear empties the key; an append adds at the end. *)
Definition serves_a_bag : Prop :=
  (forall s, blocking_get (do_clear s) = [])
  /\ (forall s elements,
         blocking_get (do_extend s elements) = blocking_get s ++ elements).

End Service.
End Service.

(** ** ReadModifyWriteRuntimeState (lines 512-530) *)

Module ReadModifyWrite.
Import KeyedState.

Section Value.
Variables K V : Type.

Definition read (remote : list V) (bag : Bag K V) : option V :=
  match bag_read K V remote bag with
  | [] => None
  | value :: _ => Some value
  end.

Definition clear (bag : Bag K V) : Bag K V := bag_clear K V bag.

Definition write (bag : Bag K V) (value : V) : Bag K V :=
  bag_add K V (clear bag) value.

Definition commit (bag : Bag K V) (h : handler K V) : handler K V :=
  bag_commit K V bag h.

Inductive call : Type :=
| Write (value : V)
| Clear_value.

Definition step (bag : Bag K V) (c : call) : Bag K V :=
  match c with
  | Write value => write bag value
  | Clear_value => clear bag
  end.

Definition run (calls : list call) (bag : Bag K V) : Bag K V :=
  fold_left step calls bag.

(** *** Vocabulary for the statements *)

(** The value the last call leaves, if any. *)
Definition last_written (c : call) : option V :=
  match c with
  | Write value => Some value
  | Clear_value => None
  end.

Definition as_list (o : option V) : list V :=
  match o with
  | Some value => [value]
  | None => []
  end.

End Value.
End ReadModifyWrite.

(** ** SynchronousSetRuntimeState, with its reads (lines 635-691)

    The Python set is kept as a list without repetition; the statements
    speak of membership only, since a set has no order. *)

Module SetRuntime.
Import StateHandler KeyedState.

Section SetRuntime.
Variables K V S : Type.
Variable V_eq_dec : forall x y : V, {x = y} + {x <> y}.
Variable blocking_get : S -> list V.
Variable do_clear : S -> S.
Variable do_extend : S -> list V -> S.
(** The service before the first request of this handler. *)
Variable s0 : S.

Definition remote (h : handler K V) : list V :=
  Service.remote K V S blocking_get do_clear do_extend s0 h.

(** [set.add] *)
Definition set_insert (value : V) (elements : list V) : list V :=
  if in_dec V_eq_dec value elements then elements else elements ++ [value].

(** [_compact_data] (lines 647-663): the accumulator, and the state and
    the handler afterwards. *)
Definition _compact_data (rewrite : bool) (self : SetState K V) (h : handler K V)
  : SetState K V * handler K V * list V :=
  let accumulator :=
    nodup V_eq_dec
          ((if set_cleared K V self then [] else remote h)
           ++ set_added_elements K V self) in
  match rewrite, accumulator with
  | true, _ :: _ =>
      let '(h, _) := clear h (set_state_key K V self) in
      let '(h, _) := extend h (set_state_key K V self) accumulator in
      ({| set_state_key := set_state_key K V self;
          set_cleared := set_cleared K V self;
          set_added_elements := [] |}, h, accumulator)
  | _, _ => (self, h, accumulator)
  end.

Definition read (self : SetState K V) (h : handler K V) : list V :=
  snd (_compact_data false self h).

(** [add]; [coin] is [random.random() > 0.5]. *)
Definition add (self : SetState K V) (h : handler K V) (value : V) (coin : bool)
  : SetState K V * handler K V :=
  let '(self, h) :=
    if set_cleared K V self
    then ({| set_state_key := set_state_key K V self;
             set_cleared := false;
             set_added_elements := set_added_elements K V self |},
          fst (clear h (set_state_key K V self)))
    else (self, h) in
  let self :=
    {| set_state_key := set_state_key K V self;
       set_cleared := set_cleared K V self;
       set_added_elements := set_insert value (set_added_elements K V self) |} in
  if coin then fst (_compact_data true self h) else (self, h).

Inductive call : Type :=
| Add (value : V) (coin : bool)
| Clear_set.

Definition step (w : SetState K V * handler K V) (c : call)
  : SetState K V * handler K V :=
  match c with
  | Add value coin => add (fst w) (snd w) value coin
  | Clear_set => (set_clear K V (fst w), snd w)
  end.

Definition run (calls : list call) (w : SetState K V * handler K V)
  : SetState K V * handler K V :=
  fold_left step calls w.

(** *** Vocabulary for the statements *)

(** What [read] removes the repetitions of. *)
Definition held (self : SetState K V) (h : handler K V) : list V :=
  (if set_cleared K V self then [] else remote h) ++ set_added_elements K V self.

(** The members after the calls, of a set that had [members]. *)
Definition members_after (calls : list call) (members : list V) : list V :=
  fold_left (fun m c => match c with
                        | Add value _ => value :: m
                        | Clear_set => []
                        end) calls members.

End SetRuntime.
End SetRuntime.

(** ** SynchronousOrderedListRuntimeState, with its reads (lines 770-819) *)

Module OrderedRead.
Import KeyedState.

Section OrderedRead.
Variables K V : Type.
(** [==] and [<] on the values.  [heapq.merge] is called without a key
    function and so compares whole [(key, value)] tuples: for two items
    with equal sort keys and different values it asks [<] of the values,
    which raises [TypeError] for values that have no order ([None]). *)
Variable V_eqb : V -> V -> bool.
Variable V_ltb : V -> V -> option bool.

(** [==] and [<] on [(key, value)] tuples. *)
Definition tuple_eqb (x y : Z * V) : bool :=
  (fst x =? fst y) && V_eqb (snd x) (snd y).
Definition tuple_ltb (x y : Z * V) : option bool :=
  if fst x =? fst y
  then (if V_eqb (snd x) (snd y) then Some false else V_ltb (snd x) (snd y))
  else Some (fst x <? fst y).

(** [<] on the heap entries [[value, order, next]] of [heapq.merge],
    with order 0 for the first iterable and 1 for the second. *)
Definition first_entry_ltb (x y : Z * V) : option bool :=
  if tuple_eqb x y then Some true else tuple_ltb x y.
Definition second_entry_ltb (y x : Z * V) : option bool :=
  if tuple_eqb y x then Some false else tuple_ltb y x.

(** Whether the entry of the first iterable is the root of the heap.
    After [heapify] and after every [heapreplace] the root is the entry
    sifted last if that one is less than the other, else the other;
    [second_sifted] tells which entry was sifted last. *)
Definition first_is_root (second_sifted : bool) (x y : Z * V) : option bool :=
  if second_sifted then option_map negb (second_entry_ltb y x)
  else first_entry_ltb x y.

(** [heapq.merge] of two iterables, iterated: the items yielded, and
    whether the iteration came to its end or raised. *)
Fixpoint heapq_merge (l1 : list (Z * V))
  : bool -> list (Z * V) -> list (Z * V) * outcome unit :=
  fix inner (second_sifted : bool) (l2 : list (Z * V)) {struct l2}
    : list (Z * V) * outcome unit :=
    match l1, l2 with
    | [], _ => (l2, Returned tt)
    | _, [] => (l1, Returned tt)
    | x :: l1', y :: l2' =>
        match first_is_root second_sifted x y with
        | None => ([], Raised TypeError)
        | Some true =>
            let '(yielded, ending) := heapq_merge l1' false l2 in
            (x :: yielded, ending)
        | Some false =>
            let '(yielded, ending) := inner true l2' in
            (y :: yielded, ending)
        end
    end.

(** [irange(min_key, limit_key, inclusive=(True, False))] *)
Definition in_range (min_key limit_key : Z) (key : Z) : bool :=
  (min_key <=? key) && (key <? limit_key).

Definition irange (min_key limit_key : Z) (d : list (Z * list V))
  : list (Z * list V) :=
  filter (fun kv => in_range min_key limit_key (fst kv)) d.

(** [read_range] (lines 773-813), iterated; [persistent] is what the
    service yields for the range query. *)
Definition read_range (persistent : list (Z * V)) (self : OrderedList K V)
           (min_key limit_key : Z) : list (Z * V) * outcome unit :=
  let keys_to_add := irange min_key limit_key (ol_pending_adds K V self) in
  let local_items := items_to_add V keys_to_add in
  if negb (ol_cleared K V self) then
    let pending_removes_snapshot := ol_pending_removes K V self in
    let persistent_items :=
      filter (fun kv => negb (RangeSet.contains pending_removes_snapshot (fst kv)))
             persistent in
    heapq_merge persistent_items false local_items
  else (local_items, Returned tt).

Definition read (persistent : list (Z * V)) (self : OrderedList K V)
  : list (Z * V) * outcome unit :=
  read_range persistent self RANGE_MIN RANGE_MAX.

(** [__init__] *)
Definition fresh (key : K) : OrderedList K V :=
  {| ol_key := key;
     ol_cleared := false;
     ol_pending_adds := [];
     ol_pending_removes := RangeSet.empty |}.

(** The calls of a client before it reads. *)
Inductive action : Type :=
| Do_add (key : Z) (value : V)
| Do_clear_range (min_key limit_key : Z)
| Do_clear.

Fixpoint perform (actions : list action) (self : OrderedList K V)
  : outcome (OrderedList K V) :=
  match actions with
  | [] => Returned self
  | Do_add key value :: rest =>
      bind (ol_add K V self key value) (perform rest)
  | Do_clear_range min_key limit_key :: rest =>
      perform rest (ol_clear_range K V self min_key limit_key)
  | Do_clear :: rest => perform rest (ol_clear K V self)
  end.

(** *** Vocabulary for the statements *)

(** The items of the list after the calls, of a list that had [items]:
    an add appends, a ranged clear drops the keys in the range, a clear
    drops everything. *)
Definition items_after (actions : list action) (items : list (Z * V))
  : list (Z * V) :=
  fold_left (fun items a =>
               match a with
               | Do_add key value => items ++ [(key, value)]
               | Do_clear_range min_key limit_key =>
                   filter (fun kv => negb (in_range min_key limit_key (fst kv)))
                          items
               | Do_clear => []
               end) actions items.


Definition keys_ascending (items : list (Z * V)) : Prop :=
  StronglySorted Z.le (map fst items).

(** Every item of [persistent] and every item of [local] with the same
    sort key and a different value have values that [<] can compare. *)
Definition comparable (persistent local : list (Z * V)) : Prop :=
  forall x y,
    In x persistent -> In y local -> fst x = fst y ->
    (V_eqb (snd x) (snd y) = false -> V_ltb (snd x) (snd y) <> None)
    /\ (V_eqb (snd y) (snd x) = false -> V_ltb (snd y) (snd x) <> None).

(** What the state object lets through of the items [stored] in the
    service, followed by its pending adds. *)
Definition visible (stored : list (Z * V)) (self : OrderedList K V)
  : list (Z * V) :=
  (if ol_cleared K V self then []
   else filter (fun kv => negb (RangeSet.contains (ol_pending_removes K V self)
                                                  (fst kv))) stored)
  ++ items_to_add V (ol_pending_adds K V self).

(** The pending removals are kept as separated ranges, the pending adds
    by strictly ascending sort key. *)
Definition well_kept (self : OrderedList K V) : Prop :=
  (exists l, RangeSet.separated l
             /\ ol_pending_removes K V self = RangeSet.of_pairs l)
  /\ StronglySorted Z.lt (map fst (ol_pending_adds K V self)).

End OrderedRead.
End OrderedRead.

(** ** SplitAndSizeRestrictions and TruncateAndSizeRestriction
    (lines 1724-1770)

    [process] is a generator: what it yields, and how it ends.  Sizes
    are integers here. *)

Module SizedRestrictions.

Section Sdf.
(** Elements, restrictions and watermark estimator states. *)
Variables E R W : Type.
(** [restriction_provider.split_and_size(element, restriction)] *)
Variable split_and_size : E -> R -> list (R * Z).
(** [watermark_estimator_provider.initial_estimator_state(element, part)] *)
Variable initial_estimator_state : E -> R -> W.
(** [restriction_provider.truncate(element, restriction)], [None] when
    the result is false. *)
Variable truncate : E -> R -> option R.
Variable restriction_size : E -> R -> Z.

Definition sized : Type := (E * (R * W)) * Z.

Fixpoint split_loop (element : E) (parts : list (R * Z))
  : list sized * outcome unit :=
  match parts with
  | [] => ([], Returned tt)
  | (part, size) :: rest =>
      if size <? 0 then ([], Raised ValueError)
      else
        let estimator_state := initial_estimator_state element part in
        let '(yielded, r) := split_loop element rest in
        (((element, (part, estimator_state)), size) :: yielded, r)
  end.

(** [SplitAndSizeRestrictions.process] *)
Definition split_process (element_restriction : E * (R * W))
  : list sized * outcome unit :=
  let '(element, (restriction, _)) := element_restriction in
  split_loop element (split_and_size element restriction).

(** [TruncateAndSizeRestriction.process] *)
Definition truncate_process (element_restriction : sized)
  : list sized * outcome unit :=
  let '((element, (restriction, estimator_state)), _) := element_restriction in
  match truncate element restriction with
  | Some truncated_restriction =>
      let truncated_restriction_size :=
        restriction_size element truncated_restriction in
      if truncated_restriction_size <? 0 then ([], Raised ValueError)
      else ([((element, (truncated_restriction, estimator_state)),
              truncated_restriction_size)], Returned tt)
  | None => ([], Returned tt)
  end.

(** *** Vocabulary for the statements *)

(** The part and the size that a yielded value carries. *)
Definition part_and_size (y : sized) : R * Z := (fst (snd (fst y)), snd y).

End Sdf.
End SizedRestrictions.

(** ** MergeWindows (lines 2142-2179)

    [original_windows] is a set and [merged_windows] a
    [defaultdict(set)]; sets are kept as lists without repetition, the
    dict as the list of its items. *)

Module MergeWindows.

Section Merge.
Variable W : Type.
Variable W_eq_dec : forall x y : W, {x = y} + {x <> y}.

Definition dict : Type := list (W * list W).

Fixpoint dict_get (d : dict) (key : W) : option (list W) :=
  match d with
  | [] => None
  | (k, v) :: d' => if W_eq_dec key k then Some v else dict_get d' key
  end.

Fixpoint dict_set (d : dict) (key : W) (v : list W) : dict :=
  match d with
  | [] => [(key, v)]
  | (k, v0) :: d' =>
      if W_eq_dec key k then (k, v) :: d' else (k, v0) :: dict_set d' key v
  end.

(** What [pop(key)] leaves. *)
Fixpoint dict_pop (d : dict) (key : W) : dict :=
  match d with
  | [] => []
  | (k, v) :: d' => if W_eq_dec key k then d' else (k, v) :: dict_pop d' key
  end.

(** [set.add], [set.remove] of a member, [set.update] *)
Definition set_add (w : W) (s : list W) : list W :=
  if in_dec W_eq_dec w s then s else s ++ [w].
Definition set_remove (w : W) (s : list W) : list W := remove W_eq_dec w s.
Definition set_update (s t : list W) : list W :=
  fold_left (fun s w => set_add w s) t s.

Record state : Type := mkState {
  original_windows : list W;
  merged_windows : dict
}.

(** The loop of [RecordingMergeContext.merge] (lines 2167-2172).
    [originals] is the set object bound before the loop; it is the value
    of [merged_windows[merge_result]] as long as that entry has not been
    popped ([attached]), and a set that the dict no longer holds
    afterwards. *)
Fixpoint merge_loop (to_be_merged : list W) (merge_result : W)
         (originals : list W) (attached : bool) (st : state)
  : outcome state :=
  match to_be_merged with
  | [] => Returned st
  | w :: rest =>
      if in_dec W_eq_dec w (original_windows st) then
        let originals := set_add w originals in
        merge_loop rest merge_result originals attached
          {| original_windows := set_remove w (original_windows st);
             merged_windows :=
               if attached
               then dict_set (merged_windows st) merge_result originals
               else merged_windows st |}
      else
        match dict_get (merged_windows st) w with
        | None => Raised KeyError
        | Some popped =>
            let merged := dict_pop (merged_windows st) w in
            let attached :=
              if W_eq_dec w merge_result then false else attached in
            let originals := set_update originals popped in
            merge_loop rest merge_result originals attached
              {| original_windows := original_windows st;
                 merged_windows :=
                   if attached then dict_set merged merge_result originals
                   else merged |}
        end
  end.

(** [RecordingMergeContext.merge]; [merged_windows[merge_result]] makes
    an empty entry when there is none. *)
Definition merge (to_be_merged : list W) (merge_result : W) (st : state)
  : outcome state :=
  match dict_get (merged_windows st) merge_result with
  | Some originals => merge_loop to_be_merged merge_result originals true st
  | None =>
      merge_loop to_be_merged merge_result [] true
        {| original_windows := original_windows st;
           merged_windows := merged_windows st ++ [(merge_result, [])] |}
  end.

(** [MergeWindows.process]: the calls that [window_fn.merge] makes on
    the context, then the pair that is yielded. *)
Fixpoint merges (calls : list (list W * W)) (st : state) : outcome state :=
  match calls with
  | [] => Returned st
  | (to_be_merged, merge_result) :: rest =>
      bind (merge to_be_merged merge_result st) (merges rest)
  end.

Definition process (window_fn_merge : list W -> list (list W * W))
           (windows : list W) : outcome state :=
  merges (window_fn_merge windows)
         {| original_windows := nodup W_eq_dec windows; merged_windows := [] |}.

(** *** Vocabulary for the statements *)

(** The windows that are still unmerged, then those of every merged set. *)
Definition accounted (st : state) : list W :=
  original_windows st ++ flat_map snd (merged_windows st).

(** The keys of the dict are distinct, and no window is accounted for
    twice. *)
Definition well_formed (st : state) : Prop :=
  NoDup (map fst (merged_windows st)) /\ NoDup (accounted st).

(** A call that does not merge an earlier merge result into itself. *)
Definition proper (to_be_merged : list W) (merge_result : W) (st : state)
  : Prop :=
  NoDup to_be_merged
  /\ (In merge_result to_be_merged -> In merge_result (original_windows st)).

(** Every call of the sequence is proper when it is made. *)
Fixpoint all_proper (calls : list (list W * W)) (st : state) : Prop :=
  match calls with
  | [] => True
  | (to_be_merged, merge_result) :: rest =>
      proper to_be_merged merge_result st
      /\ forall st1, merge to_be_merged merge_result st = Returned st1 ->
                     all_proper rest st1
  end.

End Merge.
End MergeWindows.

(** ** Further sample inputs *)

Module MoreSamples.
Import PyFloat DataInput.

(** A coder of one byte per element that cannot decode [0xff]. *)
Definition picky_decoder (input_stream : list Byte.byte)
  : option (Byte.byte * list Byte.byte) :=
  match input_stream with
  | [] => None
  | b :: rest => if Byte.eqb b Byte.xff then None else Some (b, rest)
  end.

(** A bundle in which decoding the delivered data raises. *)
Definition decoding_fails (ev : Bundle.event) : bool :=
  match ev with
  | Bundle.Process_encoded _ _ => true
  | _ => false
  end.

(** The same processor while it runs instruction ["b"]. *)
Definition processor_running_b : Bundle.BundleProcessor :=
  Bundle.during Samples.source_sink_processor "b"%string.

(** Keep half of the remainder of ten elements of ["source"]. *)
Definition half_of_source : list (string * ProcessorSplit.DesiredSplit) :=
  [("source"%string, ProcessorSplit.mkDesiredSplit half 10 [])].

(** Receivers that report no progress and split no element. *)
Definition silent_receivers : ProcessorSplit.receiver_answers unit unit :=
  fun _ => (None, fun _ => None).

(** A service that holds a list in memory. *)
Definition memory_get (s : list Z) : list Z := s.
Definition memory_clear (s : list Z) : list Z := [].
Definition memory_extend (s elements : list Z) : list Z := s ++ elements.

(** A set state with nothing pending. *)
Definition new_set : KeyedState.SetState Z Z :=
  {| KeyedState.set_state_key := StateHandler.Key 0;
     KeyedState.set_cleared := false;
     KeyedState.set_added_elements := [] |}.

(** A bag with nothing pending. *)
Definition new_bag : KeyedState.Bag Z Z :=
  {| KeyedState.bag_state_key := StateHandler.Key 0;
     KeyedState.bag_cleared := false;
     KeyedState.bag_added_elements := [] |}.

(** Python ints under [<], and values that [<] cannot compare (dicts,
    say). *)
Definition int_ltb (a b : Z) : option bool := Some (a <? b).
Definition no_order (a b : Z) : option bool := None.

(** Two adds, a ranged clear that drops the first, one more add. *)
Definition list_edits : list (OrderedRead.action Z) :=
  [OrderedRead.Do_add Z 5 50; OrderedRead.Do_add Z 20 7;
   OrderedRead.Do_clear_range Z 0 10; OrderedRead.Do_add Z 12 9].

Definition list_after_edits : KeyedState.OrderedList Z Z :=
  {| KeyedState.ol_key := 0;
     KeyedState.ol_cleared := false;
     KeyedState.ol_pending_adds := [(12, [9]); (20, [7])];
     KeyedState.ol_pending_removes := RangeSet.mk [0] [10] |}.

(** A window function that merges windows 1 and 2 into window 10. *)
Definition merge_first_two (windows : list Z) : list (list Z * Z) :=
  [([1; 2], 10)].

(** Three windows, none merged yet. *)
Definition three_windows : MergeWindows.state Z :=
  {| MergeWindows.original_windows := [1; 2; 3];
     MergeWindows.merged_windows := [] |}.

End MoreSamples.

(** ** What the state service holds of an ordered list

    As for a bag, the service is a parameter.  A ranged clear drops the
    items whose sort key is in the range; an append adds its items (the
    service may keep them in any order). *)

Module OrderedService.
Import StateHandler KeyedState.

Section Service.
Variables K V S : Type.
Variable stored_items : S -> list (Z * V).
Variable do_clear_range : S -> Z -> Z -> S.
Variable do_clear : S -> S.
Variable do_extend : S -> list (Z * V) -> S.

Definition perform (s : S) (r : request K (Z * V)) : S :=
  match r with
  | Clear (Range_key _ start end_) => do_clear_range s start end_
  | Clear (Key _) => do_clear s
  | Extend _ elements => do_extend s elements
  end.

(** The service once it has performed the requests of [h]. *)
Definition replay (s0 : S) (h : StateHandler.t K (Z * V)) : S :=
  fold_left perform (requests h) s0.

Definition serves_an_ordered_list : Prop :=
  (forall s start end_,
      stored_items (do_clear_range s start end_)
      = filter (fun kv => negb (OrderedRead.in_range start end_ (fst kv)))
               (stored_items s))
  /\ (forall s elements,
         Permutation (stored_items (do_extend s elements))
                     (stored_items s ++ elements)).

(** Every stored sort key is one that [add] accepts. *)
Definition keys_valid (s : S) : Prop :=
  Forall (fun kv => RANGE_MIN <= fst kv < RANGE_MAX) (stored_items s).

End Service.
End OrderedService.

(** An ordered list service that holds a list in memory. *)

Module OrderedSamples.

Definition memory_items (s : list (Z * Z)) : list (Z * Z) := s.
Definition memory_clear_range (s : list (Z * Z)) (start end_ : Z) : list (Z * Z) :=
  filter (fun kv => negb (OrderedRead.in_range start end_ (fst kv))) s.
Definition memory_clear_all (s : list (Z * Z)) : list (Z * Z) := [].
Definition memory_append (s elements : list (Z * Z)) : list (Z * Z) :=
  s ++ elements.

(** A handler that has sent nothing yet. *)
Definition idle_list_handler : StateHandler.t Z (Z * Z) :=
  {| StateHandler.requests := []; StateHandler.awaited := [] |}.

End OrderedSamples.

(* ================================================================== *)
(** * Part II.  Properties                                             *)
(* ================================================================== *)

(** ** Floats and sorted sequences *)

Module PyFloatFacts.
Import PyFloat.

Lemma one_is_float_of_1 : of_int 1 = Returned one.
Proof. reflexivity. Qed.

Lemma half_is_1_over_2 :
  bind (of_int 2) (fun two => div one two) = Returned half.
Proof. vm_compute. reflexivity. Qed.

Lemma round_ties_to_even :
  bind (of_int 5) (fun five => bind (div five one) (fun x => round (mul x half)))
    = Returned 2
  /\ bind (of_int 7) (fun seven => round (mul seven half)) = Returned 4
  /\ round half = Returned 0.
Proof. vm_compute. repeat split. Qed.

End PyFloatFacts.

Module Sorted_seq_facts.
Import Sorted_seq.

Lemma insert_perm x l : Permutation (insert x l) (x :: l).
Proof.
  induction l as [|y l IH]; simpl; [reflexivity|].
  destruct (x <=? y); [reflexivity|].
  rewrite IH. apply perm_swap.
Qed.

Lemma sorted_perm l : Permutation (sorted l) l.
Proof.
  induction l as [|x l IH]; simpl; [constructor|].
  rewrite insert_perm. now constructor.
Qed.

Lemma sorted_In l x : In x (sorted l) <-> In x l.
Proof.
  split; apply Permutation_in; [|symmetry]; apply sorted_perm.
Qed.

Lemma insert_In x y l : In y (insert x l) <-> y = x \/ In y l.
Proof.
  split; intro H.
  - apply (Permutation_in _ (insert_perm x l)) in H. simpl in H. intuition.
  - apply (Permutation_in _ (Permutation_sym (insert_perm x l))).
    simpl. intuition.
Qed.

Lemma insert_sorted x l :
  StronglySorted Z.le l -> StronglySorted Z.le (insert x l).
Proof.
  induction 1 as [|y l Hs IH Hall]; simpl.
  - repeat constructor.
  - destruct (x <=? y) eqn:E.
    + apply Z.leb_le in E. constructor; [now constructor|].
      constructor; [exact E|].
      eapply Forall_impl; [|exact Hall]. simpl. intros; lia.
    + apply Z.leb_gt in E. constructor; [exact IH|].
      apply Forall_forall. intros z Hz. apply insert_In in Hz.
      destruct Hz as [->|Hz]; [lia|].
      rewrite Forall_forall in Hall. now apply Hall.
Qed.

Lemma sorted_sorted l : StronglySorted Z.le (sorted l).
Proof.
  induction l; simpl; [constructor|now apply insert_sorted].
Qed.

(** On a sorted sequence [bisect_right] cuts between the entries that
    are at most [x] and those above it. *)
Lemma bisect_right_split a x :
  StronglySorted Z.le a ->
  exists lo hi,
    a = lo ++ hi /\ length lo = bisect_right a x
    /\ Forall (fun y => y <= x) lo /\ Forall (fun y => x < y) hi.
Proof.
  induction 1 as [|y a Hs IH Hall]; simpl.
  - exists [], []. repeat split; constructor.
  - destruct (y <=? x) eqn:E.
    + apply Z.leb_le in E. destruct IH as (lo & hi & -> & Hlen & Hlo & Hhi).
      exists (y :: lo), hi. simpl. repeat split; auto.
    + apply Z.leb_gt in E. exists [], (y :: a). simpl. repeat split; auto.
      constructor; [exact E|].
      eapply Forall_impl; [|exact Hall]. simpl. intros; lia.
Qed.

(** The same for [bisect_left]: strictly below [x], and the rest. *)
Lemma bisect_left_split a x :
  StronglySorted Z.le a ->
  exists lo hi,
    a = lo ++ hi /\ length lo = bisect_left a x
    /\ Forall (fun y => y < x) lo /\ Forall (fun y => x <= y) hi.
Proof.
  induction 1 as [|y a Hs IH Hall]; simpl.
  - exists [], []. repeat split; constructor.
  - destruct (y <? x) eqn:E.
    + apply Z.ltb_lt in E. destruct IH as (lo & hi & -> & Hlen & Hlo & Hhi).
      exists (y :: lo), hi. simpl. repeat split; auto.
    + apply Z.ltb_ge in E. exists [], (y :: a). simpl. repeat split; auto.
      constructor; [exact E|].
      eapply Forall_impl; [|exact Hall]. simpl. intros; lia.
Qed.

Lemma StronglySorted_app_inv {A} (R : A -> A -> Prop) (lo hi : list A) :
  StronglySorted R (lo ++ hi) ->
  StronglySorted R lo /\ StronglySorted R hi
  /\ forall a b, In a lo -> In b hi -> R a b.
Proof.
  induction lo as [|x lo IH]; simpl; intro H.
  - repeat split; [constructor|exact H|intros a b []].
  - inversion H as [|? ? Hs Hall]; subst.
    destruct (IH Hs) as (H1 & H2 & H3).
    rewrite Forall_forall in Hall.
    repeat split; auto.
    + constructor; [exact H1|].
      apply Forall_forall. intros y Hy. apply Hall, in_or_app. now left.
    + intros a b [->|Ha] Hb; [|now apply H3].
      apply Hall, in_or_app. now right.
Qed.

Lemma mem_In x a : mem x a = true <-> In x a.
Proof.
  unfold mem. rewrite existsb_exists. split.
  - intros (y & Hy & E). apply Z.eqb_eq in E. now subst.
  - intro H. exists x. split; [exact H|apply Z.eqb_refl].
Qed.

End Sorted_seq_facts.

(** ** The split computation *)

Module DataInputFacts.
Import PyFloat Sorted_seq Sorted_seq_facts DataInput.

(** C2.  With index = -1, current_element_progress = 1.0, stop = +infinity,
    fraction_of_remainder = 0.5, total_buffer_size = 10 and no allowed
    split points, [_compute_split] returns [(4, [], [], 5)]: last primary
    ordinal 4, first residual ordinal 5 (whatever the element splitter). *)
Theorem compute_split_half_of_ten :
  forall (P R : Type) (try_split : float -> option (list P * list R)),
    _compute_split P R (-1) one Inf half 10 [] try_split
    = Returned (Some (4, [], [], 5)).
Proof. intros P R try_split. vm_compute. reflexivity. Qed.

(** When the current element is finished, the result is the boundary
    split at the snapped candidate. *)
Lemma compute_split_finished_element :
  forall (P R : Type) index progress stop fraction total allowed
         (ts : float -> option (list P * list R)),
    ltb progress one = false ->
    _compute_split P R index progress stop fraction total allowed ts
    = bind (of_int ((if total <? index + 1 then index + 1
                     else match stop with
                          | Fin z => if z <? total then z else total
                          | Inf => total
                          end) - index))
        (fun span =>
           bind (round (add progress (mul (sub span progress) fraction)))
             (fun rounded =>
                Returned
                  (boundary_split P R index
                     (snap_to_allowed index (index + Z.max 1 rounded) allowed)
                     stop))).
Proof.
  intros. unfold _compute_split. rewrite H. reflexivity.
Qed.

Lemma nth_app_length {A} (lo hi : list A) d :
  nth (length lo) (lo ++ hi) d = hd d hi.
Proof.
  induction lo; simpl; [destruct hi; reflexivity|exact IHlo].
Qed.

Lemma nth_app_pred_length {A} (lo hi : list A) d :
  lo <> [] -> nth (length lo - 1) (lo ++ hi) d = last lo d.
Proof.
  induction lo as [|x lo IH]; intro Hne; [congruence|].
  destruct lo as [|y lo]; [reflexivity|].
  specialize (IH ltac:(discriminate)).
  simpl in *. rewrite Nat.sub_0_r in IH. exact IH.
Qed.

Lemma last_In {A} (l : list A) d : l <> [] -> In (last l d) l.
Proof.
  induction l as [|x l IH]; intro Hne; [congruence|].
  destruct l as [|y l]; [now left|].
  right. apply IH. discriminate.
Qed.

Lemma sorted_last_max l :
  StronglySorted Z.le l -> forall x, In x l -> x <= last l 0.
Proof.
  induction 1 as [|y l Hs IH Hall]; intros x Hx; [destruct Hx|].
  destruct l as [|z l].
  - destruct Hx as [->|[]]. simpl. lia.
  - destruct Hx as [->|Hx].
    + rewrite Forall_forall in Hall.
      assert (Hz : z <= last (z :: l) 0) by (apply IH; now left).
      specialize (Hall z (or_introl eq_refl)).
      change (last (x :: z :: l) 0) with (last (z :: l) 0). lia.
    + change (last (y :: z :: l) 0) with (last (z :: l) 0). now apply IH.
Qed.

(** C3.  When [allowed_split_points] is non-empty and the candidate
    [stop_index] is not a member, [_compute_split] moves it to an allowed
    point: below every allowed point to the first (least) one, above
    every allowed point to the last (greatest) one, and otherwise to the
    previous point only when [index < prev] and
    [stop_index - prev < next - stop_index], else to the next point.  For
    allowed points {2, 7} and candidate 5 the result is 7, and the whole
    computation then returns the split [(6, [], [], 7)]. *)
Theorem compute_split_snaps_to_allowed :
  forall index stop_index allowed,
    allowed <> [] -> ~ In stop_index allowed ->
    let r := snap_to_allowed index stop_index allowed in
    ((forall a, In a allowed -> stop_index < a) ->
     In r allowed /\ forall a, In a allowed -> r <= a)
    /\ ((forall a, In a allowed -> a < stop_index) ->
        In r allowed /\ forall a, In a allowed -> a <= r)
    /\ (forall prev next,
           greatest_below allowed stop_index prev ->
           least_above allowed stop_index next ->
           r = if (index <? prev) && (stop_index - prev <? next - stop_index)
               then prev else next)
    /\ snap_to_allowed index 5 [2; 7] = 7
    /\ (forall (P R : Type) (ts : float -> option (list P * list R)),
           _compute_split P R (-1) one Inf half 10 [2; 7] ts
           = Returned (Some (6, [], [], 7))).
Proof.
  intros index x allowed Hne Hnotin r.
  assert (Hr : r = let a := sorted allowed in
                   let c := bisect_right a x in
                   if Nat.eqb c 0 then nth 0 a 0
                   else if Nat.eqb c (length a) then last a 0
                   else if (index <? nth (c - 1) a 0)
                           && (x - nth (c - 1) a 0 <? nth c a 0 - x)
                        then nth (c - 1) a 0 else nth c a 0).
  { subst r. unfold snap_to_allowed. destruct allowed as [|a0 al]; [congruence|].
    destruct (mem x (a0 :: al)) eqn:E; [|reflexivity].
    apply mem_In in E. contradiction. }
  clearbody r. cbv zeta in Hr.
  destruct (bisect_right_split (sorted allowed) x (sorted_sorted allowed))
    as (lo & hi & Hsplit & Hlen & Hlo & Hhi).
  rewrite <- Hlen, Hsplit in Hr.
  rewrite Forall_forall in Hlo, Hhi.
  assert (HIn : forall a, In a allowed <-> In a lo \/ In a hi).
  { intro a. rewrite <- sorted_In, Hsplit. apply in_app_iff. }
  assert (Hss : StronglySorted Z.le (lo ++ hi))
    by (rewrite <- Hsplit; apply sorted_sorted).
  assert (Hlo_lt : forall a, In a lo -> a < x).
  { intros a Ha. assert (a <> x) by (intros ->; apply Hnotin, HIn; auto).
    specialize (Hlo a Ha). lia. }
  assert (Hhd_min : forall a, In a hi -> hd 0 hi <= a).
  { apply StronglySorted_app_inv in Hss. destruct Hss as (_ & Hss & _).
    destruct hi as [|h hi']; [intros a []|].
    inversion Hss as [|? ? _ Hall]; subst. rewrite Forall_forall in Hall.
    intros a [->|Ha]; simpl; [lia|now apply Hall]. }
  assert (Hlast_max : forall a, In a lo -> a <= last lo 0).
  { apply StronglySorted_app_inv in Hss. destruct Hss as (Hss & _).
    now apply sorted_last_max. }
  assert (Hnth0 : hi <> [] -> lo = [] -> nth 0 (lo ++ hi) 0 = hd 0 hi).
  { intros _ ->. destruct hi; reflexivity. }
  refine (conj _ (conj _ (conj _ (conj _ _)))).
  - (* below every allowed point *)
    intro H.
    assert (lo = []) as ->.
    { destruct lo as [|l0 lo']; [reflexivity|].
      specialize (Hlo_lt l0 (or_introl eq_refl)).
      specialize (H l0 (proj2 (HIn l0) (or_introl (or_introl eq_refl)))). lia. }
    simpl in Hr. destruct hi as [|h hi'].
    { exfalso. destruct allowed as [|a0 al]; [congruence|].
      destruct (proj1 (HIn a0) (or_introl eq_refl)) as [[]|[]]. }
    simpl in Hr. subst r. split.
    + apply HIn. right. now left.
    + intros a Ha. apply HIn in Ha. destruct Ha as [[]|Ha].
      apply (Hhd_min a Ha).
  - (* above every allowed point *)
    intro H.
    assert (hi = []) as ->.
    { destruct hi as [|h hi']; [reflexivity|].
      specialize (Hhi h (or_introl eq_refl)).
      specialize (H h (proj2 (HIn h) (or_intror (or_introl eq_refl)))). lia. }
    rewrite app_nil_r in Hr.
    destruct lo as [|l0 lo'].
    { exfalso. destruct allowed as [|a0 al]; [congruence|].
      destruct (proj1 (HIn a0) (or_introl eq_refl)) as [[]|[]]. }
    rewrite Nat.eqb_refl in Hr.
    change (Nat.eqb (length (l0 :: lo')) 0) with false in Hr.
    subst r. split.
    + apply HIn. left. apply last_In. discriminate.
    + intros a Ha. apply Hlast_max. apply HIn in Ha.
      destruct Ha as [Ha|[]]. exact Ha.
  - (* between two allowed points *)
    intros prev next (Hp_in & Hp_lt & Hp_max) (Hn_in & Hn_gt & Hn_min).
    assert (Hlo_ne : lo <> []).
    { intros ->. apply HIn in Hp_in. destruct Hp_in as [[]|Hp_in].
      specialize (Hhi _ Hp_in). lia. }
    assert (Hhi_ne : hi <> []).
    { intros ->. apply HIn in Hn_in. destruct Hn_in as [Hn_in|[]].
      specialize (Hlo_lt _ Hn_in). lia. }
    assert (Hprev : last lo 0 = prev).
    { assert (In (last lo 0) lo) by now apply last_In.
      assert (In prev lo).
      { apply HIn in Hp_in. destruct Hp_in as [|Hp]; [assumption|].
        specialize (Hhi _ Hp). lia. }
      specialize (Hp_max (last lo 0) (proj2 (HIn _) (or_introl H)) (Hlo_lt _ H)).
      specialize (Hlast_max prev H0). lia. }
    assert (Hnext : hd 0 hi = next).
    { assert (In (hd 0 hi) hi) by (destruct hi; [congruence|now left]).
      assert (In next hi).
      { apply HIn in Hn_in. destruct Hn_in as [Hn|]; [|assumption].
        specialize (Hlo_lt _ Hn). lia. }
      specialize (Hn_min (hd 0 hi) (proj2 (HIn _) (or_intror H)) (Hhi _ H)).
      specialize (Hhd_min next H0). lia. }
    rewrite nth_app_length, (nth_app_pred_length lo hi 0 Hlo_ne) in Hr.
    rewrite Hprev, Hnext in Hr.
    destruct (Nat.eqb (length lo) 0) eqn:E0.
    { apply Nat.eqb_eq in E0. destruct lo; [congruence|discriminate]. }
    destruct (Nat.eqb (length lo) (length (lo ++ hi))) eqn:E1.
    { apply Nat.eqb_eq in E1. rewrite length_app in E1.
      destruct hi; [congruence|simpl in E1; lia]. }
    exact Hr.
  - unfold snap_to_allowed. simpl.
    destruct (index <? 2); reflexivity.
  - intros P R ts. vm_compute. reflexivity.
Qed.

End DataInputFacts.

(** ** Splits never move the stop bound past what was already promised *)

Module SplitSafety.
Import PyFloat DataInput.

Lemma boundary_split_some P R index stop_index stop a ps rs b :
  boundary_split P R index stop_index stop = Some (a, ps, rs, b) ->
  a = b - 1 /\ ps = [] /\ rs = [] /\ index < b /\ lt_bound b stop = true.
Proof.
  unfold boundary_split. intro H.
  destruct ((index <? stop_index) && lt_bound stop_index stop) eqn:E;
    [|discriminate].
  apply andb_true_iff in E. destruct E as [E1 E2]. apply Z.ltb_lt in E1.
  inversion H; subst. auto.
Qed.

(** A split is either inside the current element, with the residual
    starting right after it, or at an element boundary strictly between
    [index] and [stop]. *)
Lemma compute_split_some P R index progress stop fraction total allowed ts
      a ps rs b :
  _compute_split P R index progress stop fraction total allowed ts
  = Returned (Some (a, ps, rs, b)) ->
  (a = index - 1 /\ b = index + 1)
  \/ (a = b - 1 /\ ps = [] /\ rs = [] /\ index < b /\ lt_bound b stop = true).
Proof.
  unfold _compute_split, bind. intro H.
  destruct (of_int _) as [span|] eqn:Espan; [|discriminate].
  assert (Hb : forall stop_index,
             Returned (boundary_split P R index stop_index stop)
             = Returned (Some (a, ps, rs, b)) ->
             a = b - 1 /\ ps = [] /\ rs = [] /\ index < b /\ lt_bound b stop = true).
  { intros si Hsi. inversion Hsi as [Hsi']. now apply boundary_split_some in Hsi'. }
  destruct (ltb progress one).
  - destruct (div _ _) as [k|]; [|discriminate].
    destruct (ltb k one && is_valid_split_point allowed index
              && is_valid_split_point allowed (index + 1)).
    + destruct (ts k) as [[eps ers]|].
      * inversion H; subst. left. split; reflexivity.
      * destruct (round _); [|discriminate]. right. eapply Hb, H.
    + destruct (round _); [|discriminate]. right. eapply Hb, H.
  - destruct (round _); [|discriminate]. right. eapply Hb, H.
Qed.

Lemma bound_le_refl b : bound_le b b.
Proof. destruct b; simpl; lia. Qed.

Lemma bound_le_trans b1 b2 b3 : bound_le b1 b2 -> bound_le b2 b3 -> bound_le b1 b3.
Proof. destruct b1, b2, b3; simpl; intros; try lia; tauto. Qed.

Section Steps.
Variables P R V : Type.
Variable decode : list Byte.byte -> option (V * list Byte.byte).

(** What one [try_split] call does to the operation. *)
Lemma try_split_cases (o : DataInputOperation) (rq : split_request P R) :
  match try_split o rq with
  | (o', Returned (Some (a, ps, rs, b))) =>
      o' = set_stop o b /\ index o < b
      /\ ((a = index o - 1 /\ b = index o + 1)
          \/ (a = b - 1 /\ ps = [] /\ rs = [] /\ lt_bound b (stop o) = true))
  | (o', _) => o' = o
  end.
Proof.
  unfold try_split. destruct (negb (started o)); [reflexivity|].
  destruct (_compute_split _ _ _ _ _ _ _ _ _) as [[[[[a ps] rs] b]|]|e] eqn:E;
    simpl; try reflexivity.
  apply compute_split_some in E. split; [reflexivity|].
  destruct E as [[-> ->]|(-> & -> & -> & Hlt & Hb)].
  - split; [lia|]. left. split; reflexivity.
  - split; [exact Hlt|]. right. auto.
Qed.

(** After any successful split, [index < stop]. *)
Lemma try_split_success_below_stop o rq o' a ps rs b :
  try_split (P:=P) (R:=R) o rq = (o', Returned (Some (a, ps, rs, b))) ->
  stop o' = Fin b /\ index o' = index o /\ index o < b.
Proof.
  intro H. pose proof (try_split_cases o rq) as C. rewrite H in C.
  destruct C as (-> & Hlt & _). simpl. auto.
Qed.

(** A split keeps [index < stop] and never raises [stop]. *)
Lemma try_split_keeps o rq :
  below_stop o ->
  below_stop (fst (try_split (P:=P) (R:=R) o rq))
  /\ bound_le (stop (fst (try_split o rq))) (stop o)
  /\ index (fst (try_split o rq)) = index o.
Proof.
  unfold below_stop. intro Inv. pose proof (try_split_cases o rq) as C.
  destruct (try_split o rq) as [o' [[[[[a ps] rs] b]|]|e]]; simpl;
    try (subst o'; repeat split; auto using bound_le_refl).
  destruct C as (-> & Hlt & Hc). simpl. repeat split.
  - now apply Z.ltb_lt.
  - destruct Hc as [[_ ->]|(_ & _ & _ & Hb)]; destruct (stop o); simpl in *;
      auto; try apply Z.ltb_lt in Inv; try apply Z.ltb_lt in Hb; lia.
Qed.

Lemma exec_keeps (a : action P R) (w w' : world V) :
  exec decode a w = Some w' ->
  below_stop (op w) ->
  below_stop (op w') /\ bound_le (stop (op w')) (stop (op w))
  /\ index (op w) <= index (op w').
Proof.
  unfold below_stop. intros H Inv. destruct a; simpl in H.
  - inversion H; subst; simpl. repeat split; auto using bound_le_refl; lia.
  - destruct (at_ w); inversion H; subst; simpl.
    repeat split; auto using bound_le_refl; lia.
  - destruct (at_ w) as [|s|s|]; try discriminate.
    destruct s as [|c s]; [inversion H; subst; simpl;
                           repeat split; auto using bound_le_refl; lia|].
    destruct (eq_pred_bound (index (op w)) (stop (op w))) eqn:E;
      inversion H; subst; simpl.
    + repeat split; auto using bound_le_refl; lia.
    + repeat split; auto using bound_le_refl; try lia.
      destruct (stop (op w)); simpl in *; [|reflexivity].
      apply Z.ltb_lt in Inv. apply Z.eqb_neq in E. apply Z.ltb_lt. lia.
  - destruct (at_ w) as [|s|s|]; try discriminate.
    destruct (decode s) as [[v rest]|]; inversion H; subst; simpl;
      repeat split; auto using bound_le_refl; lia.
  - inversion H; subst; simpl.
    destruct (try_split_keeps (op w) rq Inv) as (H1 & H2 & H3).
    repeat split; auto. lia.
Qed.

(** Every value output by a step carries the current index. *)
Lemma exec_emits (a : action P R) (w w' : world V) :
  exec decode a w = Some w' ->
  emitted w' = emitted w
  \/ exists v, emitted w' = emitted w ++ [(index (op w), v)].
Proof.
  intro H. destruct a; simpl in H.
  - inversion H; subst; auto.
  - destruct (at_ w); inversion H; subst; auto.
  - destruct (at_ w) as [|s|s|]; try discriminate.
    destruct s; [inversion H; subst; auto|].
    destruct (eq_pred_bound _ _); inversion H; subst; auto.
  - destruct (at_ w) as [|s|s|]; try discriminate.
    destruct (decode s) as [[v rest]|]; inversion H; subst; simpl; eauto.
  - inversion H; subst; auto.
Qed.

Lemma run_keeps (acts : list (action P R)) : forall (w w' : world V) k,
  run decode acts w = Some w' ->
  below_stop (op w) -> bound_le (stop (op w)) (Fin k) ->
  below_stop (op w') /\ bound_le (stop (op w')) (stop (op w))
  /\ index (op w') < k
  /\ exists new, emitted w' = emitted w ++ new
                 /\ Forall (fun e => fst e < k) new.
Proof.
  induction acts as [|a acts IH]; simpl; intros w w' k H Inv Hk.
  - inversion H; subst. repeat split; auto using bound_le_refl.
    + unfold below_stop in Inv. destruct (stop (op w')); simpl in *; [|tauto].
      apply Z.ltb_lt in Inv. lia.
    + exists []. rewrite app_nil_r. split; [reflexivity|constructor].
  - destruct (exec decode a w) as [w1|] eqn:E; [|discriminate].
    destruct (exec_keeps _ _ _ E Inv) as (Inv1 & Hle1 & Hidx).
    assert (Hk1 : bound_le (stop (op w1)) (Fin k))
      by (eapply bound_le_trans; eauto).
    destruct (IH _ _ _ H Inv1 Hk1) as (Inv' & Hle' & Hlt & new & Hnew & Hall).
    repeat split; auto.
    + eapply bound_le_trans; eauto.
    + assert (Hw : index (op w) < k).
      { unfold below_stop in Inv. destruct (stop (op w)); simpl in *; [|tauto].
        apply Z.ltb_lt in Inv. lia. }
      destruct (exec_emits _ _ _ E) as [Em|[v Em]]; rewrite Hnew, Em.
      * exists new. auto.
      * exists ((index (op w), v) :: new). rewrite <- app_assoc. simpl.
        split; [reflexivity|]. constructor; [exact Hw|exact Hall].
Qed.

Lemma exec_at_boundary (a : action P R) (w w' : world V) :
  exec decode a w = Some w' -> at_boundary w ->
  at_boundary w' /\ emitted w' = emitted w.
Proof.
  unfold at_boundary. intros H [Hb Hpos]. destruct a; simpl in H.
  - inversion H; subst; simpl. auto.
  - destruct (at_ w); inversion H; subst; simpl; auto.
  - destruct (at_ w) as [|s|s|]; try discriminate.
    destruct s; [inversion H; subst; simpl; auto|].
    rewrite Hb in H. inversion H; subst; simpl; auto.
  - destruct (at_ w) as [|s|s|]; try discriminate. destruct Hpos.
  - inversion H; subst; simpl. split; [|reflexivity]. split; [|exact Hpos].
    pose proof (try_split_cases (op w) rq) as C.
    destruct (try_split (op w) rq) as [o' [[[[[a ps] rs] b]|]|e]]; simpl;
      try (subst o'; exact Hb).
    destruct C as (-> & Hlt & Hc). simpl.
    destruct (stop (op w)) as [z|]; simpl in *; [|discriminate].
    apply Z.eqb_eq in Hb. apply Z.eqb_eq.
    destruct Hc as [[_ ->]|(_ & _ & _ & Hz)]; [lia|].
    apply Z.ltb_lt in Hz. lia.
Qed.

Lemma run_at_boundary (acts : list (action P R)) : forall (w w' : world V),
  run decode acts w = Some w' -> at_boundary w -> emitted w' = emitted w.
Proof.
  induction acts as [|a acts IH]; simpl; intros w w' H Hb.
  - now inversion H.
  - destruct (exec decode a w) as [w1|] eqn:E; [|discriminate].
    destruct (exec_at_boundary _ _ _ E Hb) as [Hb1 Em].
    rewrite <- Em. now apply IH.
Qed.

Lemma run_app (acts1 acts2 : list (action P R)) (w : world V) :
  run decode (acts1 ++ acts2) w
  = match run decode acts1 w with
    | Some w1 => run decode acts2 w1
    | None => None
    end.
Proof.
  revert w. induction acts1 as [|a acts1 IH]; simpl; intro w; [reflexivity|].
  destruct (exec decode a w); [apply IH|reflexivity].
Qed.

(** The loop run alone is one schedule of the steps. *)
Lemma process_encoded_is_a_run fuel :
  forall self input_stream output self' output' r,
    process_encoded decode fuel self input_stream output
    = Some (self', output', r) ->
    exists acts : list (action P R),
      run decode acts
          {| op := self; at_ := Loop_head input_stream; emitted := output |}
      = Some {| op := self';
                at_ := match r with Returned _ => Idle | Raised _ => Crashed end;
                emitted := output' |}.
Proof.
  induction fuel as [|fuel IH]; intros self s output self' output' r H;
    [discriminate|].
  cbn [process_encoded] in H. destruct s as [|c s].
  - inversion H; subst. exists [Lock_and_advance]. reflexivity.
  - destruct (eq_pred_bound (index self) (stop self)) eqn:E.
    + inversion H; subst. exists [Lock_and_advance]. simpl. now rewrite E.
    + destruct (decode (c :: s)) as [[v rest]|] eqn:D.
      * apply IH in H. destruct H as [acts Hacts].
        exists (Lock_and_advance :: Decode_and_output :: acts).
        simpl. rewrite E. simpl. rewrite D. exact Hacts.
      * inversion H; subst.
        exists [Lock_and_advance; Decode_and_output].
        simpl. rewrite E. simpl. rewrite D. reflexivity.
Qed.

(** With a decoder that consumes at least one byte per element, the loop
    finishes within one iteration per byte, plus one. *)
Lemma process_encoded_finishes :
  (forall s v rest, decode s = Some (v, rest) -> (length rest < length s)%nat) ->
  forall fuel self input_stream output,
    (length input_stream < fuel)%nat ->
    exists result, process_encoded decode fuel self input_stream output = Some result.
Proof.
  intro Hdec. induction fuel as [|fuel IH]; intros self s output Hlen; [lia|].
  cbn [process_encoded]. destruct s as [|c s]; [eauto|].
  destruct (eq_pred_bound (index self) (stop self)); [eauto|].
  destruct (decode (c :: s)) as [[v rest]|] eqn:D; [|eauto].
  apply IH. apply Hdec in D. lia.
Qed.

(** Reachable states satisfy [index < stop]. *)
Lemma reachable_below_stop (acts : list (action P R)) (w : world V) :
  run decode acts initial_world = Some w -> below_stop (op w).
Proof.
  assert (G : forall (acts : list (action P R)) (w0 w : world V),
             run decode acts w0 = Some w -> below_stop (op w0) ->
             below_stop (op w)).
  { clear. induction acts as [|a acts IH]; simpl; intros w0 w H Inv.
    - now inversion H; subst.
    - destruct (exec decode a w0) as [w1|] eqn:E; [|discriminate].
      eapply IH; [exact H|]. eapply exec_keeps; eauto. }
  intro H. eapply G; [exact H|]. reflexivity.
Qed.

Lemma run_stop_decreases (acts : list (action P R)) : forall (w w' : world V),
  run decode acts w = Some w' -> below_stop (op w) ->
  bound_le (stop (op w')) (stop (op w)).
Proof.
  induction acts as [|a acts IH]; simpl; intros w w' H Inv.
  - inversion H; subst. apply bound_le_refl.
  - destruct (exec decode a w) as [w1|] eqn:E; [|discriminate].
    destruct (exec_keeps _ _ _ E Inv) as (Inv1 & Hle1 & _).
    eapply bound_le_trans; [|exact Hle1]. now apply IH.
Qed.

End Steps.
End SplitSafety.

(** ** The stop bound and what [process_encoded] emits *)

Module StopBound.
Import PyFloat DataInput SplitSafety.

Section Bundle_steps.
Variables P R V : Type.
Variable decode : list Byte.byte -> option (V * list Byte.byte).

(** C1.  Once a successful [try_split] has set [stop] to [k], then
    whatever the worker and the control thread do afterwards
    ([process_encoded] calls, their steps, further splits), the index
    stays below [k] and every element emitted from then on has an
    ordinal below [k]; so does a [process_encoded] call run on its own.
    When the loop reaches the boundary ([index == stop - 1]) with bytes
    still in the buffer, the call returns at once with nothing emitted,
    and no later step emits anything: the rest of that buffer is never
    decoded. *)
Theorem process_encoded_stops_at_split :
  forall (w0 : world V) (rq : split_request P R) o1 a ps rs k,
    try_split (op w0) rq = (o1, Returned (Some (a, ps, rs, k))) ->
    stop o1 = Fin k
    /\ (forall fuel input_stream self' output' r,
           process_encoded decode fuel o1 input_stream (emitted w0)
           = Some (self', output', r) ->
           index self' < k
           /\ exists new, output' = emitted w0 ++ new
                          /\ Forall (fun e => fst e < k) new)
    /\ forall (acts : list (action P R)) (w2 : world V),
        run decode acts (with_op w0 o1) = Some w2 ->
        index (op w2) < k
        /\ (exists new, emitted w2 = emitted w0 ++ new
                        /\ Forall (fun e => fst e < k) new)
        /\ (forall rest,
               at_ w2 = Loop_head rest ->
               eq_pred_bound (index (op w2)) (stop (op w2)) = true ->
               exec (P:=P) (R:=R) decode Lock_and_advance w2
               = Some {| op := op w2; at_ := Idle; emitted := emitted w2 |}
               /\ forall (acts' : list (action P R)) (w3 : world V),
                   run decode acts' w2 = Some w3 -> emitted w3 = emitted w2).
Proof.
  intros w0 rq o1 a ps rs k Hsplit.
  destruct (try_split_success_below_stop _ _ _ _ _ _ _ _ _ Hsplit)
    as (Hstop & Hidx & Hlt).
  split; [exact Hstop|].
  assert (Inv1 : below_stop o1).
  { unfold below_stop. rewrite Hstop, Hidx. simpl. now apply Z.ltb_lt. }
  assert (Hk1 : bound_le (stop o1) (Fin k)) by (rewrite Hstop; simpl; lia).
  split.
  - intros fuel s self' output' r Hcall.
    destruct (process_encoded_is_a_run P R V decode fuel _ _ _ _ _ _ Hcall)
      as [acts Hacts].
    destruct (run_keeps P R V decode acts _ _ k Hacts Inv1 Hk1)
      as (_ & _ & Hlt2 & Hnew).
    split; [exact Hlt2|exact Hnew].
  - intros acts w2 Hrun.
    destruct (run_keeps P R V decode acts (with_op w0 o1) _ k Hrun Inv1 Hk1)
      as (_ & _ & Hlt2 & Hnew).
    split; [exact Hlt2|]. split; [exact Hnew|].
    intros rest Hat Hb. split.
    + simpl. rewrite Hat. destruct rest; [reflexivity|]. now rewrite Hb.
    + intros acts' w3 Hrun'. eapply run_at_boundary; [exact Hrun'|].
      split; [exact Hb|]. now rewrite Hat.
Qed.

(** C10.  In any state reached within a bundle (from the initial
    operation, by starting, by [process_encoded] steps and by splits),
    a [try_split] call that succeeds sets [stop] to the residual start
    it returns; that ordinal is above [index] and at most the previous
    [stop], and strictly below it for an element-boundary split (the
    one whose primary end is the residual start minus one).  A call
    that does not succeed leaves the operation as it was.  Hence
    [stop] never increases along a bundle. *)
Theorem stop_never_increases :
  forall (acts : list (action P R)) (w : world V),
    run decode acts initial_world = Some w ->
    (forall rq : split_request P R,
        match try_split (op w) rq with
        | (o', Returned (Some (a, ps, rs, b))) =>
            stop o' = Fin b /\ index o' = index (op w)
            /\ index (op w) < b
            /\ bound_le (Fin b) (stop (op w))
            /\ (a = b - 1 -> lt_bound b (stop (op w)) = true)
        | (o', _) => o' = op w
        end)
    /\ (forall (acts' : list (action P R)) (w' : world V),
           run decode acts' w = Some w' ->
           bound_le (stop (op w')) (stop (op w))).
Proof.
  intros acts w Hrun.
  pose proof (reachable_below_stop P R V decode acts w Hrun) as Inv.
  split.
  - intro rq. pose proof (try_split_cases P R (op w) rq) as C.
    destruct (try_split (op w) rq) as [o' [[[[[a ps] rs] b]|]|e]]; auto.
    destruct C as (-> & Hlt & Hc). simpl.
    repeat split; auto.
    + unfold below_stop in Inv.
      destruct Hc as [[_ ->]|(_ & _ & _ & Hb)];
        destruct (stop (op w)); simpl in *; auto;
        try apply Z.ltb_lt in Inv; try apply Z.ltb_lt in Hb; lia.
    + intro Ha. destruct Hc as [[Ha' Hb']|(_ & _ & _ & Hb)]; [lia|exact Hb].
  - intros acts' w' Hrun'. eapply run_stop_decreases; eauto.
Qed.

End Bundle_steps.
End StopBound.

(** ** RangeSet keeps disjoint, non-adjacent ranges *)

Module RangeSetFacts.
Import Sorted_seq Sorted_seq_facts RangeSet.

Lemma StronglySorted_app {A} (R : A -> A -> Prop) (lo hi : list A) :
  StronglySorted R lo -> StronglySorted R hi ->
  (forall a b, In a lo -> In b hi -> R a b) ->
  StronglySorted R (lo ++ hi).
Proof.
  induction lo as [|x lo IH]; simpl; intros Hlo Hhi Hx; [exact Hhi|].
  inversion Hlo as [|? ? Hs Hall]; subst. constructor.
  - apply IH; auto.
  - rewrite Forall_forall in *. intros y Hy. apply in_app_or in Hy.
    destruct Hy; auto.
Qed.

Lemma separated_app lo hi :
  separated (lo ++ hi) <->
  separated lo /\ separated hi /\ forall a b, In a lo -> In b hi -> apart a b.
Proof.
  unfold separated. rewrite Forall_app. split.
  - intros [[H1 H2] H3]. apply StronglySorted_app_inv in H3. tauto.
  - intros ([H1 H2] & [H3 H4] & H5). split; [tauto|].
    now apply StronglySorted_app.
Qed.

Lemma separated_cons r l :
  separated (r :: l) <->
  fst r < snd r /\ separated l /\ forall b, In b l -> apart r b.
Proof.
  change (r :: l) with ([r] ++ l). rewrite separated_app. split.
  - intros ([H1 _] & H2 & H3). inversion H1; subst.
    split; [assumption|]. split; [exact H2|].
    intros b Hb. apply H3; simpl; auto.
  - intros (H1 & H2 & H3). split; [|split; [exact H2|]].
    + split; repeat constructor. exact H1.
    + intros a b [<-|[]] Hb. auto.
Qed.

(** The first range of a separated list starts lowest, the last one
    ends highest. *)
Lemma separated_hd_min r l :
  separated (r :: l) -> forall b, In b (r :: l) -> fst r <= fst b.
Proof.
  intros H b [<-|Hb]; [lia|].
  apply separated_cons in H. destruct H as (H1 & _ & H3).
  specialize (H3 b Hb). unfold apart in H3. lia.
Qed.

Lemma separated_last_max l d :
  separated l -> forall b, In b l -> snd b <= snd (last l d).
Proof.
  induction l as [|r l IH]; intros H b Hb; [destruct Hb|].
  apply separated_cons in H. destruct H as (H1 & H2 & H3).
  destruct l as [|r' l].
  - destruct Hb as [<-|[]]. simpl. lia.
  - change (last (r :: r' :: l) d) with (last (r' :: l) d).
    destruct Hb as [<-|Hb]; [|now apply IH].
    assert (Hr' : snd r' <= snd (last (r' :: l) d)) by (apply IH; simpl; auto).
    specialize (H3 r' (or_introl eq_refl)). unfold apart in H3.
    destruct H2 as [H2 _]. inversion H2; subst. lia.
Qed.

(** *** Where the two bisections land *)

Lemma bisect_left_app lo hi x :
  Forall (fun y => y < x) lo ->
  bisect_left (lo ++ hi) x = (length lo + bisect_left hi x)%nat.
Proof.
  induction 1 as [|y lo Hy _ IH]; simpl; [reflexivity|].
  apply Z.ltb_lt in Hy. now rewrite Hy, IH.
Qed.

Lemma bisect_right_app lo hi x :
  Forall (fun y => y <= x) lo ->
  bisect_right (lo ++ hi) x = (length lo + bisect_right hi x)%nat.
Proof.
  induction 1 as [|y lo Hy _ IH]; simpl; [reflexivity|].
  apply Z.leb_le in Hy. now rewrite Hy, IH.
Qed.

Lemma bisect_left_0 hi x :
  Forall (fun y => x <= y) hi -> bisect_left hi x = O.
Proof.
  destruct 1 as [|y hi Hy _]; simpl; [reflexivity|].
  apply Z.ltb_ge in Hy. now rewrite Hy.
Qed.

Lemma bisect_right_0 hi x :
  Forall (fun y => x < y) hi -> bisect_right hi x = O.
Proof.
  destruct 1 as [|y hi Hy _]; simpl; [reflexivity|].
  apply Z.leb_gt in Hy. now rewrite Hy.
Qed.

(** The ranges that end before [s], and the others. *)
Lemma split_ending_before s l :
  separated l ->
  exists A rest,
    l = A ++ rest
    /\ Forall (fun r => snd r < s) A
    /\ Forall (fun r => s <= snd r) rest.
Proof.
  induction l as [|r l IH]; intro H.
  - exists [], []. repeat split; constructor.
  - pose proof H as H0. apply separated_cons in H. destruct H as (H1 & H2 & H3).
    destruct (Z.lt_ge_cases (snd r) s) as [Hlt|Hge].
    + destruct (IH H2) as (A & rest & -> & HA & Hrest).
      exists (r :: A), rest. repeat split; auto.
    + exists [], (r :: l). repeat split; auto.
      constructor; [lia|]. apply Forall_forall. intros b Hb.
      specialize (H3 b Hb). unfold apart in H3.
      destruct H2 as [H2 _]. rewrite Forall_forall in H2.
      specialize (H2 b Hb). lia.
Qed.

(** The ranges that start at or before [e], and the others. *)
Lemma split_starting_upto e l :
  separated l ->
  exists M B,
    l = M ++ B
    /\ Forall (fun r => fst r <= e) M
    /\ Forall (fun r => e < fst r) B.
Proof.
  induction l as [|r l IH]; intro H.
  - exists [], []. repeat split; constructor.
  - apply separated_cons in H. destruct H as (H1 & H2 & H3).
    destruct (Z.le_gt_cases (fst r) e) as [Hle|Hgt].
    + destruct (IH H2) as (M & B & -> & HM & HB).
      exists (r :: M), B. repeat split; auto.
    + exists [], (r :: l). repeat split; auto.
      constructor; [lia|]. apply Forall_forall. intros b Hb.
      specialize (H3 b Hb). unfold apart in H3. lia.
Qed.

(** The ranges that start before [x], and the others. *)
Lemma split_starting_before x l :
  separated l ->
  exists A rest,
    l = A ++ rest
    /\ Forall (fun r => fst r < x) A
    /\ Forall (fun r => x <= fst r) rest.
Proof.
  induction l as [|r l IH]; intro H.
  - exists [], []. repeat split; constructor.
  - apply separated_cons in H. destruct H as (H1 & H2 & H3).
    destruct (Z.lt_ge_cases (fst r) x) as [Hlt|Hge].
    + destruct (IH H2) as (A & rest & -> & HA & Hrest).
      exists (r :: A), rest. repeat split; auto.
    + exists [], (r :: l). repeat split; auto.
      constructor; [lia|]. apply Forall_forall. intros b Hb.
      specialize (H3 b Hb). unfold apart in H3. lia.
Qed.

Lemma Forall_map_iff {A B} (f : A -> B) (Q : B -> Prop) l :
  Forall Q (map f l) <-> Forall (fun a => Q (f a)) l.
Proof.
  induction l; simpl; split; intro H; try constructor;
    inversion H; subst; auto; now apply IHl.
Qed.

(** [SortedList.add] between a lower and an upper part. *)
Lemma insert_between x lo hi :
  Forall (fun y => y < x) lo -> Forall (fun y => x <= y) hi ->
  insert x (lo ++ hi) = lo ++ x :: hi.
Proof.
  intros Hlo Hhi. induction Hlo as [|y lo Hy _ IH]; simpl.
  - destruct Hhi as [|h hi Hh _]; simpl; [reflexivity|].
    apply Z.leb_le in Hh. now rewrite Hh.
  - apply Z.leb_gt in Hy. now rewrite Hy, IH.
Qed.

Lemma del_slice_middle {A} (lo mid hi : list A) :
  firstn (length lo) (lo ++ mid ++ hi)
  ++ skipn (Nat.max (length lo) (length lo + length mid)) (lo ++ mid ++ hi)
  = lo ++ hi.
Proof.
  rewrite Nat.max_r by lia.
  rewrite firstn_app, Nat.sub_diag, firstn_all. simpl. rewrite app_nil_r.
  f_equal. rewrite app_assoc, skipn_app, length_app, Nat.sub_diag.
  rewrite <- length_app, skipn_all. reflexivity.
Qed.

Lemma nth_middle_hd {A} (lo hi : list A) d :
  nth (length lo) (lo ++ hi) d = hd d hi.
Proof.
  induction lo; simpl; [destruct hi; reflexivity|exact IHlo].
Qed.

Lemma nth_before_middle {A} (lo hi : list A) d :
  lo <> [] -> nth (length lo - 1) (lo ++ hi) d = last lo d.
Proof.
  induction lo as [|x lo IH]; intro Hne; [congruence|].
  destruct lo as [|y lo]; [reflexivity|].
  specialize (IH ltac:(discriminate)).
  simpl in *. rewrite Nat.sub_0_r in IH. exact IH.
Qed.

Lemma last_map {A B} (f : A -> B) l d :
  last (map f l) (f d) = f (last l d).
Proof.
  induction l as [|x l IH]; [reflexivity|].
  destruct l; [reflexivity|]. simpl in *. exact IH.
Qed.

Lemma hd_map {A B} (f : A -> B) l d : hd (f d) (map f l) = f (hd d l).
Proof. destruct l; reflexivity. Qed.

Lemma last_in {A} (l : list A) d : l <> [] -> In (last l d) l.
Proof.
  induction l as [|x l IH]; intro Hne; [congruence|].
  destruct l as [|y l]; [now left|].
  right. apply IH. discriminate.
Qed.

Lemma hd_in {A} (l : list A) d : l <> [] -> In (hd d l) l.
Proof. destruct l; [congruence|now left]. Qed.

Lemma hd_fst l : hd 0 (map fst l) = fst (hd (0, 0) l).
Proof. destruct l; reflexivity. Qed.

Lemma last_snd (l : list (Z * Z)) : last (map snd l) 0 = snd (last l (0, 0)).
Proof. exact (last_map snd l (0, 0)). Qed.

Lemma last_app_r {A} (lo hi : list A) d : hi <> [] -> last (lo ++ hi) d = last hi d.
Proof.
  intro Hne. induction lo as [|x lo IH]; [reflexivity|].
  simpl. destruct (lo ++ hi) eqn:E; [|exact IH].
  apply app_eq_nil in E. destruct E. congruence.
Qed.

(** *** What [add] does to a separated set

    [A] are the stored ranges that end before the new one starts, [B]
    those that start after it ends, [M] the ranges in between, which the
    new range swallows. *)
Lemma add_of_pairs s e l :
  separated l -> s < e ->
  exists A M B ns ne,
    l = A ++ M ++ B
    /\ Forall (fun r => snd r < s) A
    /\ Forall (fun r => s <= snd r /\ fst r <= e) M
    /\ Forall (fun r => e < fst r) B
    /\ (M = [] -> ns = s /\ ne = e)
    /\ (M <> [] -> ns = Z.min s (fst (hd (0, 0) M))
                   /\ ne = Z.max e (snd (last M (0, 0))))
    /\ add (of_pairs l) s e = of_pairs (A ++ (ns, ne) :: B).
Proof.
  intros Hsep Hse.
  destruct (split_ending_before s l Hsep) as (A & rest & -> & HA & Hrest).
  apply separated_app in Hsep. destruct Hsep as (HsA & Hsrest & HAr).
  destruct (split_starting_upto e rest Hsrest) as (M & B & -> & HM & HB).
  apply separated_app in Hsrest. destruct Hsrest as (HsM & HsB & HMB).
  apply Forall_app in Hrest. destruct Hrest as [HMs HBs].
  rewrite Forall_forall in HA, HM, HB, HMs, HBs.
  assert (HneA : forall r, In r A -> fst r < snd r).
  { destruct HsA as [H _]. now rewrite Forall_forall in H. }
  assert (HneB : forall r, In r B -> fst r < snd r).
  { destruct HsB as [H _]. now rewrite Forall_forall in H. }
  assert (HneM : forall r, In r M -> fst r < snd r).
  { destruct HsM as [H _]. now rewrite Forall_forall in H. }
  set (ns := match M with [] => s | _ => Z.min s (fst (hd (0, 0) M)) end).
  set (ne := match M with [] => e | _ => Z.max e (snd (last M (0, 0))) end).
  exists A, M, B, ns, ne.
  split; [reflexivity|]. split; [now apply Forall_forall|].
  split; [apply Forall_forall; intros r Hr; split; auto|].
  split; [now apply Forall_forall|].
  split; [intros ->; split; reflexivity|].
  split; [intro Hne; subst ns ne; destruct M; [congruence|split; reflexivity]|].
  (* the two bisections *)
  assert (Hmin : bisect_left (map snd (A ++ M ++ B)) s = length A).
  { rewrite map_app, bisect_left_app, bisect_left_0, length_map; [lia| |].
    - apply Forall_map_iff, Forall_forall. intros r Hr.
      apply in_app_or in Hr. destruct Hr; auto.
    - apply Forall_map_iff, Forall_forall. auto. }
  assert (Hmax : bisect_right (map fst (A ++ M ++ B)) e
                 = (length A + length M)%nat).
  { rewrite app_assoc, map_app, bisect_right_app, bisect_right_0, length_map,
      length_app; [lia| |].
    - apply Forall_map_iff, Forall_forall. auto.
    - apply Forall_map_iff, Forall_forall. intros r Hr.
      apply in_app_or in Hr. destruct Hr as [Hr|Hr]; auto.
      specialize (HA r Hr). specialize (HneA r Hr). lia. }
  (* the new start lies between the starts of [A] and of [B] *)
  assert (Hns_lo : Forall (fun y => y < ns) (map fst A)).
  { apply Forall_map_iff, Forall_forall. intros r Hr.
    specialize (HA r Hr). specialize (HneA r Hr). subst ns.
    destruct M as [|m M']; [lia|]. simpl hd.
    assert (apart r m) by (apply HAr; [exact Hr|simpl; auto]).
    unfold apart in *. lia. }
  assert (Hns_le : ns <= s) by (subst ns; destruct M; lia).
  assert (Hne_ge : e <= ne) by (subst ne; destruct M; lia).
  assert (Hns_hi : Forall (fun y => ns <= y) (map fst B)).
  { apply Forall_map_iff, Forall_forall. intros r Hr. specialize (HB r Hr). lia. }
  assert (Hne_lo : Forall (fun y => y < ne) (map snd A)).
  { apply Forall_map_iff, Forall_forall. intros r Hr. specialize (HA r Hr). lia. }
  assert (Hne_hi : Forall (fun y => ne <= y) (map snd B)).
  { apply Forall_map_iff, Forall_forall. intros r Hr.
    specialize (HB r Hr). specialize (HneB r Hr). subst ne.
    destruct M as [|m M']; [lia|].
    assert (apart (last (m :: M') (0, 0)) r).
    { apply HMB; [apply last_in; discriminate|exact Hr]. }
    unfold apart in *. lia. }
  unfold add, of_pairs. cbn [_sorted_starts _sorted_ends].
  replace (s >=? e) with false
    by (symmetry; rewrite Z.geb_leb; apply Z.leb_gt; lia).
  rewrite Hmin, Hmax.
  destruct M as [|m M'].
  - (* nothing to merge *)
    subst ns ne. simpl app in *. rewrite Nat.add_0_r.
    destruct ((length (map fst (A ++ B)) <=? length A)%nat
              || (length A <=? 0)%nat) eqn:Econd.
    + rewrite !map_app.
      rewrite (insert_between s _ _ Hns_lo Hns_hi).
      rewrite (insert_between e _ _ Hne_lo Hne_hi).
      reflexivity.
    + apply orb_false_iff in Econd. destruct Econd as [E1 E2].
      apply Nat.leb_gt in E1, E2.
      rewrite length_map, length_app in E1.
      assert (HBne : B <> []) by (destruct B; [simpl in E1; lia|discriminate]).
      assert (HAne : A <> []) by (destruct A; [simpl in E2; lia|discriminate]).
      unfold del_slice. rewrite Nat.max_id.
      rewrite !firstn_skipn.
      rewrite !map_app.
      rewrite <- (length_map fst A) at 1.
      rewrite nth_middle_hd, hd_fst.
      rewrite <- (length_map snd A) at 1.
      rewrite nth_before_middle, last_snd
        by (destruct A; [congruence|discriminate]).
      assert (e < fst (hd (0, 0) B)) by (apply HB, hd_in, HBne).
      assert (snd (last A (0, 0)) < s) by (apply HA, last_in, HAne).
      rewrite Z.min_l, Z.max_l by lia.
      rewrite (insert_between s _ _ Hns_lo Hns_hi).
      rewrite (insert_between e _ _ Hne_lo Hne_hi).
      reflexivity.
  - (* the ranges of [M] are merged with the new one *)
    replace ((length (map fst (A ++ (m :: M') ++ B)) <=? length A)%nat
             || (length A + length (m :: M') <=? 0)%nat) with false.
    2:{ symmetry. apply orb_false_iff. split; apply Nat.leb_gt.
        - rewrite length_map, !length_app. simpl. lia.
        - simpl. lia. }
    unfold del_slice. rewrite !map_app.
    rewrite <- (length_map fst A), <- (length_map fst (m :: M')).
    rewrite del_slice_middle.
    rewrite nth_middle_hd.
    rewrite (length_map fst A), (length_map fst (m :: M')).
    rewrite <- (length_map snd A), <- (length_map snd (m :: M')).
    rewrite del_slice_middle.
    rewrite <- length_app, app_assoc.
    rewrite nth_before_middle
      by (intro E; apply app_eq_nil in E; destruct E; discriminate).
    rewrite last_app_r by discriminate.
    rewrite last_snd.
    change (hd 0 (map fst (m :: M') ++ map fst B)) with (fst m).
    change (Z.min s (fst m)) with ns. fold ne.
    rewrite (insert_between ns _ _ Hns_lo Hns_hi).
    rewrite (insert_between ne _ _ Hne_lo Hne_hi).
    reflexivity.
Qed.

Lemma covered_app lo hi p : covered (lo ++ hi) p <-> covered lo p \/ covered hi p.
Proof.
  unfold covered. split.
  - intros (r & Hr & Hp). apply in_app_or in Hr. destruct Hr; eauto.
  - intros [(r & Hr & Hp)|(r & Hr & Hp)]; exists r; split; auto;
      apply in_or_app; auto.
Qed.

Lemma covered_cons r l p :
  covered (r :: l) p <-> fst r <= p < snd r \/ covered l p.
Proof.
  unfold covered. split.
  - intros (r' & [<-|Hr] & Hp); eauto.
  - intros [Hp|(r' & Hr & Hp)]; [exists r|exists r']; simpl; auto.
Qed.

(** One [add] keeps the ranges separated and covers exactly the points
    covered before plus those of the new range. *)
Lemma add_separated s e l :
  separated l ->
  exists l',
    add (of_pairs l) s e = of_pairs l'
    /\ separated l'
    /\ forall p, covered l' p <-> covered l p \/ s <= p < e.
Proof.
  intro Hsep. destruct (Z.lt_ge_cases s e) as [Hse|Hse].
  2:{ exists l. split; [|split; [exact Hsep|intro p; split; [auto|]]].
      - unfold add. replace (s >=? e) with true; [reflexivity|].
        symmetry. rewrite Z.geb_leb. apply Z.leb_le. lia.
      - intros [H|H]; [exact H|lia]. }
  destruct (add_of_pairs s e l Hsep Hse)
    as (A & M & B & ns & ne & -> & HA & HM & HB & Hnil & Hcons & Hadd).
  exists (A ++ (ns, ne) :: B). split; [exact Hadd|].
  apply separated_app in Hsep. destruct Hsep as (HsA & HsMB & HAMB).
  apply separated_app in HsMB. destruct HsMB as (HsM & HsB & HMB).
  rewrite Forall_forall in HA, HM, HB.
  assert (Hns : ns <= s /\ forall a, In a A -> snd a < ns).
  { destruct M as [|m M'].
    - destruct (Hnil eq_refl) as [-> _]. split; [lia|auto].
    - destruct (Hcons ltac:(discriminate)) as [-> _]. simpl hd. split; [lia|].
      intros a Ha. specialize (HA a Ha).
      assert (apart a m) by (apply HAMB; [exact Ha|simpl; auto]).
      unfold apart in *. lia. }
  assert (Hne : e <= ne /\ forall b, In b B -> ne < fst b).
  { destruct M as [|m M'].
    - destruct (Hnil eq_refl) as [_ ->]. split; [lia|auto].
    - destruct (Hcons ltac:(discriminate)) as [_ ->]. split; [lia|].
      intros b Hb. specialize (HB b Hb).
      assert (apart (last (m :: M') (0, 0)) b).
      { apply HMB; [apply last_in; discriminate|exact Hb]. }
      unfold apart in *. lia. }
  destruct Hns as [Hns_le Hns_A]. destruct Hne as [Hne_ge Hne_B].
  split.
  - apply separated_app. split; [exact HsA|]. split.
    + apply separated_cons. simpl. split; [lia|]. split; [exact HsB|].
      intros b Hb. unfold apart. simpl. auto.
    + intros a b Ha [<-|Hb].
      * unfold apart. simpl. auto.
      * apply HAMB; [exact Ha|]. apply in_or_app. now right.
  - intro p. rewrite !covered_app, covered_cons. simpl.
    assert (Hmid : ns <= p < ne <-> covered M p \/ s <= p < e).
    { destruct M as [|m M'].
      - destruct (Hnil eq_refl) as [-> ->]. split; [auto|].
        intros [(r & [] & _)|H]; exact H.
      - destruct (Hcons ltac:(discriminate)) as [Ens Ene]. simpl hd in Ens.
        split.
        + intro Hp.
          destruct (Z.lt_ge_cases p s) as [Hps|Hps].
          * left. exists m. split; [now left|].
            destruct (HM m (or_introl eq_refl)). lia.
          * destruct (Z.lt_ge_cases p e) as [Hpe|Hpe]; [right; lia|].
            left. exists (last (m :: M') (0, 0)).
            split; [apply last_in; discriminate|].
            assert (Hlast : In (last (m :: M') (0, 0)) (m :: M'))
              by (apply last_in; discriminate).
            destruct (HM _ Hlast). lia.
        + intros [(r & Hr & Hp)|Hp]; [|lia].
          pose proof (separated_hd_min m M' HsM r Hr).
          pose proof (separated_last_max (m :: M') (0, 0) HsM r Hr). lia. }
    tauto.
Qed.

Lemma ranges_of_pairs l : ranges (of_pairs l) = l.
Proof.
  unfold ranges, of_pairs. simpl.
  induction l as [|[a b] l IH]; simpl; [reflexivity|now rewrite IH].
Qed.

(** On separated ranges [__contains__] decides coverage. *)
Lemma contains_covered l p :
  separated l -> contains (of_pairs l) p = true <-> covered l p.
Proof.
  intro Hsep.
  destruct (split_starting_before p l Hsep) as (A & rest & -> & HA & Hrest).
  apply separated_app in Hsep. destruct Hsep as (HsA & Hsr & HAr).
  assert (Hidx : bisect_left (map fst (A ++ rest)) p = length A).
  { rewrite map_app, bisect_left_app, bisect_left_0, length_map; [lia| |];
      now apply Forall_map_iff. }
  rewrite Forall_forall in HA, Hrest.
  unfold contains, of_pairs. cbn [_sorted_starts _sorted_ends].
  rewrite Hidx, !map_app.
  rewrite <- (length_map fst A) at 2. rewrite nth_middle_hd, hd_fst.
  rewrite orb_true_iff, !andb_true_iff, covered_app.
  rewrite !Nat.ltb_lt, Z.eqb_eq, Z.ltb_lt, length_app, !length_map.
  split.
  - intros [[Hlen Hhd]|[Hpos Hlast]].
    + right. destruct rest as [|r rest']; [simpl in Hlen; lia|].
      exists r. split; [now left|]. simpl in Hhd.
      destruct Hsr as [Hne _]. inversion Hne; subst. lia.
    + left. assert (HAne : A <> []) by (destruct A; [simpl in Hpos; lia|discriminate]).
      rewrite <- (length_map snd A) in Hlast.
      rewrite nth_before_middle, last_snd in Hlast
        by (destruct A; [congruence|discriminate]).
      exists (last A (0, 0)). split; [now apply last_in|].
      specialize (HA _ (last_in A (0, 0) HAne)). lia.
  - intros [(r & Hr & Hp)|(r & Hr & Hp)].
    + right. assert (HAne : A <> []) by (destruct A; [destruct Hr|discriminate]).
      split; [destruct A; [congruence|simpl; lia]|].
      rewrite <- (length_map snd A).
      rewrite nth_before_middle, last_snd
        by (destruct A; [congruence|discriminate]).
      pose proof (separated_last_max A (0, 0) HsA r Hr). lia.
    + left. destruct rest as [|r0 rest']; [destruct Hr|].
      split; [simpl; lia|]. simpl.
      pose proof (separated_hd_min r0 rest' Hsr r Hr).
      pose proof (Hrest r0 (or_introl eq_refl)).
      pose proof (Hrest r Hr). lia.
Qed.

(** Any two different ranges of a separated list lie apart. *)
Lemma separated_pairwise l :
  separated l ->
  forall r1 r2, In r1 l -> In r2 l -> r1 <> r2 -> apart r1 r2 \/ apart r2 r1.
Proof.
  induction l as [|r l IH]; intros Hsep r1 r2 H1 H2 Hne; [destruct H1|].
  apply separated_cons in Hsep. destruct Hsep as (_ & Hl & Hr).
  destruct H1 as [<-|H1], H2 as [<-|H2]; auto; congruence.
Qed.

Lemma add_all_from calls : forall l,
  separated l ->
  exists l',
    fold_left (fun rs c => add rs (fst c) (snd c)) calls (of_pairs l) = of_pairs l'
    /\ separated l'
    /\ forall p, covered l' p <-> covered l p \/ covered calls p.
Proof.
  induction calls as [|c calls IH]; intros l Hsep; simpl.
  - exists l. split; [reflexivity|]. split; [exact Hsep|].
    intro p. split; [auto|]. intros [H|(r & [] & _)]. exact H.
  - destruct (add_separated (fst c) (snd c) l Hsep) as (l1 & -> & Hs1 & Hc1).
    destruct (IH l1 Hs1) as (l' & -> & Hs' & Hc').
    exists l'. split; [reflexivity|]. split; [exact Hs'|].
    intro p. rewrite Hc', Hc1, covered_cons. tauto.
Qed.

(** C5.  After any sequence of [add(start, end)] calls on a fresh
    RangeSet, the stored ranges are non-empty and pairwise apart: of any
    two different stored ranges one ends strictly before the other
    starts, so they neither overlap nor touch.  The membership test
    answers true exactly for the points that lie in one of the added
    ranges. *)
Theorem range_set_disjoint_and_exact :
  forall calls : list (Z * Z),
    let rs := add_all calls in
    length (_sorted_starts rs) = length (_sorted_ends rs)
    /\ Forall (fun r => fst r < snd r) (ranges rs)
    /\ StronglySorted apart (ranges rs)
    /\ (forall r1 r2, In r1 (ranges rs) -> In r2 (ranges rs) -> r1 <> r2 ->
                       apart r1 r2 \/ apart r2 r1)
    /\ (forall p, contains rs p = true <->
                  exists c, In c calls /\ fst c <= p < snd c).
Proof.
  intro calls.
  assert (Hnil : separated []) by (split; constructor).
  destruct (add_all_from calls [] Hnil) as (l' & E & Hsep & Hcov).
  change (of_pairs []) with empty in E. fold (add_all calls) in E.
  intro rs. subst rs. rewrite E, ranges_of_pairs.
  split; [simpl; now rewrite !length_map|].
  split; [apply Hsep|]. split; [apply Hsep|].
  split; [now apply separated_pairwise|].
  intro p. rewrite (contains_covered l' p Hsep), Hcov.
  split; [intros [(r & [] & _)|H]; exact H|auto].
Qed.

End RangeSetFacts.

(** ** What [commit] sends and what it waits for *)

Module CommitFacts.
Import StateHandler KeyedState.

Section Commit.
Variables K V : Type.

Lemma commit_cleared_added_spec (key : state_key K) cleared
      (added : list V) (h : StateHandler.t K V) :
  let issued := clear_then_append K V key cleared added in
  let h' := commit_cleared_added K V key cleared added h in
  requests h' = requests h ++ issued
  /\ awaited h' = awaited h ++ last_issued K V h (length issued).
Proof.
  unfold commit_cleared_added, clear_then_append, last_issued, clear, extend,
    issue, get.
  destruct cleared, added as [|v added]; simpl;
    rewrite ?app_nil_r, ?length_app, <- ?app_assoc; simpl;
    rewrite ?Nat.add_0_r; auto.
Qed.

Lemma issue_all_spec (rs : list (request K (Z * V))) :
  forall h : StateHandler.t K (Z * V),
    requests (fst (issue_all K V h rs)) = requests h ++ rs
    /\ awaited (fst (issue_all K V h rs)) = awaited h
    /\ snd (issue_all K V h rs) = seq (length (requests h)) (length rs).
Proof.
  induction rs as [|r rs IH]; intro h; simpl.
  - rewrite app_nil_r. auto.
  - specialize (IH {| requests := requests h ++ [r]; awaited := awaited h |}).
    unfold issue. destruct (issue_all K V _ rs) as [h2 fs]. simpl in *.
    destruct IH as (IH1 & IH2 & IH3).
    rewrite IH1, IH2, IH3, <- app_assoc, length_app. simpl.
    rewrite Nat.add_1_r. auto.
Qed.

Lemma fold_get (fs : list future) :
  forall h : StateHandler.t K (Z * V),
    requests (fold_left get fs h) = requests h
    /\ awaited (fold_left get fs h) = awaited h ++ fs.
Proof.
  induction fs as [|f fs IH]; intro h; simpl.
  - rewrite app_nil_r. auto.
  - destruct (IH (get h f)) as [IH1 IH2]. rewrite IH1, IH2. simpl.
    rewrite <- app_assoc. auto.
Qed.

(** After [clear], [add] and [clear_range] leave the pending full-range
    removal in place. *)
Lemma cleared_keeps_full_range (calls : list (ol_call V)) :
  forall o o' : OrderedList K V,
    ol_cleared K V o = true ->
    ol_calls K V calls o = Returned o' ->
    ol_cleared K V o' = true
    /\ ol_pending_removes K V o' = ol_pending_removes K V o.
Proof.
  induction calls as [|c calls IH]; intros o o' Hc H; simpl in H.
  - inversion H; subst. auto.
  - destruct c as [key value|a b].
    + unfold ol_add in H.
      destruct ((key >=? RANGE_MAX) || (key <? RANGE_MIN)); [discriminate|].
      simpl in H. apply IH in H; [|exact Hc]. exact H.
    + apply IH in H; simpl; [|exact Hc]. simpl in H. rewrite Hc in H. exact H.
Qed.

Lemma full_range_pending :
  RangeSet.ranges (RangeSet.add RangeSet.empty RANGE_MIN RANGE_MAX)
  = [(RANGE_MIN, RANGE_MAX)].
Proof. reflexivity. Qed.

(** C4 (as the code has it).  [commit] of a bag or a set sends a clear
    if the object was cleared, then an append if there are buffered
    adds, and waits for the last request it sent only.  [commit] of an
    ordered list sends one ranged clear per pending removal (the full
    key range once the list was cleared), then one append carrying
    every pending add, and waits for every request it sent. *)
Theorem commit_requests_and_waits :
  (forall (b : Bag K V) (h : StateHandler.t K V),
      let issued := clear_then_append K V (bag_state_key K V b)
                      (bag_cleared K V b) (bag_added_elements K V b) in
      requests (bag_commit K V b h) = requests h ++ issued
      /\ awaited (bag_commit K V b h)
         = awaited h ++ last_issued K V h (length issued))
  /\ (forall (s : SetState K V) (h : StateHandler.t K V),
         let issued := clear_then_append K V (set_state_key K V s)
                         (set_cleared K V s) (set_added_elements K V s) in
         requests (set_commit K V s h) = requests h ++ issued
         /\ awaited (set_commit K V s h)
            = awaited h ++ last_issued K V h (length issued))
  /\ (forall (o : OrderedList K V) (h : StateHandler.t K (Z * V)),
         let issued :=
           map (fun se => Clear (Range_key (ol_key K V o) (fst se) (snd se)))
               (RangeSet.ranges (ol_pending_removes K V o))
           ++ match ol_pending_adds K V o with
              | [] => []
              | adds => [Extend (Key (ol_key K V o)) (items_to_add V adds)]
              end in
         let h' := snd (ol_commit K V o h) in
         requests h' = requests h ++ issued
         /\ awaited h' = awaited h ++ all_issued K (Z * V) h (length issued)
         /\ awaits_all_issued K (Z * V) h h')
  /\ (forall (o o' : OrderedList K V) (calls : list (ol_call V)),
         ol_calls K V calls (ol_clear K V o) = Returned o' ->
         RangeSet.ranges (ol_pending_removes K V o')
         = [(RANGE_MIN, RANGE_MAX)]).
Proof.
  split; [|split; [|split]].
  - intros b h. apply commit_cleared_added_spec.
  - intros s h. apply commit_cleared_added_spec.
  - intros o h issued h'.
    assert (H : requests h' = requests h ++ issued
                /\ awaited h' = awaited h ++ all_issued K (Z * V) h (length issued)).
    { subst h' issued. unfold ol_commit, all_issued.
      set (clears := map _ (RangeSet.ranges _)).
      pose proof (issue_all_spec clears h) as (I1 & I2 & I3).
      destruct (issue_all K V h clears) as [h1 fs]. simpl in I1, I2, I3.
      destruct (ol_pending_adds K V o) as [|a adds].
      - simpl. destruct (fold_get fs h1) as [F1 F2].
        rewrite F1, F2, I1, I2, I3, !app_nil_r. auto.
      - unfold extend, issue. simpl snd.
        match goal with
        | |- context [fold_left get ?l ?hh] =>
            destruct (fold_get l hh) as [F1 F2]
        end.
        rewrite F1, F2. simpl. rewrite I1, I2, I3, <- app_assoc.
        split; [reflexivity|]. f_equal.
        rewrite length_app, length_app, seq_app. simpl.
        reflexivity. }
    destruct H as [H1 H2]. split; [exact H1|]. split; [exact H2|].
    intros f Hf. rewrite H2. apply in_or_app. right.
    unfold all_issued. apply in_seq. rewrite H1, length_app in Hf. lia.
  - intros o o' calls H.
    apply cleared_keeps_full_range in H; [|reflexivity].
    destruct H as [_ ->]. reflexivity.
Qed.

End Commit.
End CommitFacts.

(** ** CombiningValue reads the merge of everything added *)

Module CombiningFacts.
Import StateHandler KeyedState CombiningValue.

Section Contract.
Variables K In Acc Out : Type.
Variable cf : CombineFn In Acc Out.
Variable remote : list Acc.

(** The algebraic contract of the combine function: merging a single
    accumulator changes nothing, and merging in a fresh accumulator
    that holds one input is adding that input. *)
Hypothesis merge_single :
  forall a, merge_accumulators In Acc Out cf [a] = a.
Hypothesis merge_fresh :
  forall l v,
    merge_accumulators In Acc Out cf
      (l ++ [add_input In Acc Out cf (create_accumulator In Acc Out cf) v])
    = add_input In Acc Out cf (merge_accumulators In Acc Out cf l) v.

Lemma run_expected (calls : list (call In)) :
  forall (bag : Bag K Acc) (added : list In),
    merge_accumulators In Acc Out cf (bag_read K Acc remote bag)
    = merge_accumulators In Acc Out cf
        (remote ++ map (add_input In Acc Out cf (create_accumulator In Acc Out cf))
                       added) ->
    snd (run K In Acc Out cf remote calls bag)
    = expected_reads In Acc Out cf remote calls added.
Proof.
  induction calls as [|c calls IH]; intros bag added Hinv; [reflexivity|].
  destruct c as [coin value|].
  - simpl. apply IH. rewrite map_app, app_assoc. simpl map.
    rewrite merge_fresh, <- Hinv.
    destruct coin; unfold add, _read_accumulator, bag_add, bag_clear, bag_read;
      simpl.
    + apply merge_single.
    + rewrite app_assoc. apply merge_fresh.
  - simpl. unfold read, _read_accumulator.
    cbn [fst snd].
    match goal with
    | |- context [run K In Acc Out cf remote calls ?b] =>
        specialize (IH b added)
    end.
    destruct (run K In Acc Out cf remote calls _) as [bag'' outs].
    simpl in *. f_equal.
    + unfold merged_output. now rewrite Hinv.
    + apply IH. unfold bag_read. simpl. rewrite merge_single. exact Hinv.
Qed.

(** C6.  For a combine function that meets its contract, whatever
    coins the [add] calls draw (merge-and-replace or append a fresh
    singleton accumulator) and however [add]s and [read]s interleave,
    every [read] returns the extracted output of the merge of what the
    service holds and of all values added so far. *)
Theorem combining_read_is_merge_of_adds :
  forall (key : state_key K) (calls : list (call In)),
    snd (run K In Acc Out cf remote calls (fresh_bag K Acc key))
    = expected_reads In Acc Out cf remote calls [].
Proof.
  intros key calls. apply run_expected.
  unfold bag_read, fresh_bag. simpl. reflexivity.
Qed.

End Contract.
End CombiningFacts.

(** ** The order in which operations are started and finished *)

Module BundleFacts.
Import Bundle.

Lemma all_some_spec {A} (l : list (option A)) r :
  all_some l = Some r <-> l = map Some r.
Proof.
  revert r. induction l as [|o l IH]; intro r; simpl.
  - split; [intro H; inversion H; reflexivity|].
    destruct r; [reflexivity|discriminate].
  - destruct o as [a|].
    + destruct (all_some l) as [r'|] eqn:E.
      * split.
        -- intro H. inversion H; subst. simpl. f_equal. now apply IH.
        -- destruct r as [|a' r]; [discriminate|]. simpl. intro H.
           inversion H; subst.
           assert (Some r' = Some r) as E' by (apply IH; reflexivity).
           inversion E'. reflexivity.
      * split; [discriminate|].
        destruct r as [|a' r]; [discriminate|]. simpl. intro H.
        inversion H; subst.
        assert (None = Some r) by (apply IH; reflexivity). discriminate.
    + split; [discriminate|]. destruct r; discriminate.
Qed.

Lemma map_some_ext {A B} (f g : A -> option B) l hs :
  (forall c h, f c = Some h -> g c = Some h) ->
  map f l = map Some hs -> map g l = map Some hs.
Proof.
  intro Hfg. revert hs. induction l as [|c cs IH]; intros hs E.
  - destruct hs; [reflexivity|discriminate].
  - destruct hs as [|hc hs]; [discriminate|]. simpl in E.
    injection E as E1 E2. simpl.
    rewrite (Hfg c hc E1), (IH hs E2). reflexivity.
Qed.

(** *** More recursion depth does not change a height *)

Lemma topological_height_deeper d n :
  forall id h,
    topological_height n d id = Some h ->
    topological_height (S n) d id = Some h.
Proof.
  induction n as [|n IH]; intros id h H; [discriminate|].
  simpl in H. change (topological_height (S (S n)) d id)
    with (match all_some (map (topological_height (S n) d) (consumers d id)) with
          | Some heights => Some (1 + max_list (0 :: heights))
          | None => None
          end).
  destruct (all_some (map (topological_height n d) (consumers d id)))
    as [hs|] eqn:E; [|discriminate].
  apply all_some_spec in E.
  assert (E' : map (topological_height (S n) d) (consumers d id) = map Some hs)
    by (eapply map_some_ext; [exact IH|exact E]).
  apply all_some_spec in E'. rewrite E'. exact H.
Qed.

Lemma keyed_spec {T} (f : string -> option Z) (l : list (string * T)) keyed :
  all_some (map (fun entry => match f (fst entry) with
                              | Some h => Some (fst entry, h)
                              | None => None
                              end) l) = Some keyed ->
  map fst keyed = map fst l
  /\ Forall (fun p => f (fst p) = Some (snd p)) keyed.
Proof.
  intro H. apply all_some_spec in H. revert keyed H.
  induction l as [|[id t] l IH]; intros keyed H.
  - destruct keyed; [split; [reflexivity|constructor]|discriminate].
  - destruct keyed as [|[id' h] keyed]; [discriminate|].
    simpl in H. injection H as H1 H2.
    destruct (f id) as [h0|] eqn:E; [|discriminate].
    inversion H1; subst. destruct (IH keyed H2) as [IH1 IH2].
    split; [simpl; now rewrite IH1|]. constructor; [exact E|exact IH2].
Qed.

Lemma heights_spec d keyed :
  heights d = Some keyed ->
  map fst keyed = map fst d
  /\ Forall (fun p => topological_height (length d) d (fst p) = Some (snd p)) keyed.
Proof. apply keyed_spec. Qed.

(** The height of a transform is one more than the greatest height among
    its consumers; a transform nothing consumes from has height 1. *)
Lemma height_equation d keyed id :
  heights d = Some keyed -> In id (map fst d) ->
  height_of d id = 1 + max_list (0 :: map (height_of d) (consumers d id)).
Proof.
  intros Hh Hin. destruct (heights_spec d keyed Hh) as [Hids Hall].
  rewrite <- Hids in Hin. apply in_map_iff in Hin.
  destruct Hin as ([id' h] & <- & Hp). rewrite Forall_forall in Hall.
  specialize (Hall _ Hp). cbn [fst snd] in *.
  unfold height_of at 1. rewrite Hall.
  destruct (length d) as [|n] eqn:En; [discriminate|].
  cbn [topological_height] in Hall.
  destruct (all_some (map (topological_height n d) (consumers d id')))
    as [hs|] eqn:E; [|discriminate].
  injection Hall as <-.
  apply all_some_spec in E.
  assert (Hhs : map (height_of d) (consumers d id') = hs).
  { clear Hp. revert hs E.
    induction (consumers d id') as [|c cs IHc]; intros hs E.
    - destruct hs; [reflexivity|discriminate].
    - destruct hs as [|hc hs]; [discriminate|]. cbn [map] in E.
      injection E as E1 E2. cbn [map]. rewrite (IHc hs E2).
      unfold height_of. rewrite En.
      now rewrite (topological_height_deeper d n c hc E1). }
  now rewrite Hhs.
Qed.

(** *** Enough recursion depth on an acyclic descriptor

    [rank] numbers the transforms so that every consumer ranks below the
    transform it consumes from. *)
Lemma topological_height_defined d (rank : string -> nat) :
  (forall t c, In c (consumers d t) -> (rank c < rank t)%nat) ->
  forall n t, (rank t < n)%nat -> exists h, topological_height n d t = Some h.
Proof.
  intros Hrank. induction n as [|n IH]; intros t Hlt; [lia|].
  cbn [topological_height].
  assert (Hcs : exists hs,
             map (topological_height n d) (consumers d t) = map Some hs).
  { assert (Hc : forall c, In c (consumers d t) -> (rank c < n)%nat).
    { intros c Hc. specialize (Hrank t c Hc). lia. }
    induction (consumers d t) as [|c cs IHc].
    - exists []. reflexivity.
    - destruct (IH c (Hc c (or_introl eq_refl))) as [h Hh].
      destruct IHc as [hs Hhs]; [intros c' Hc'; apply Hc; now right|].
      exists (h :: hs). cbn [map]. now rewrite Hh, Hhs. }
  destruct Hcs as [hs Hhs]. apply all_some_spec in Hhs. rewrite Hhs. eauto.
Qed.

Lemma create_execution_tree_defined d (rank : string -> nat) :
  (forall t c, In c (consumers d t) -> (rank c < rank t)%nat) ->
  (forall t, In t (map fst d) -> (rank t < length d)%nat) ->
  exists ids, create_execution_tree d = Some ids.
Proof.
  intros Hrank Hbound. unfold create_execution_tree, heights.
  assert (H : forall l : list (string * PTransform),
             (forall t, In t (map fst l) -> (rank t < length d)%nat) ->
             exists keyed,
               map (fun entry : string * PTransform =>
                      match topological_height (length d) d (fst entry) with
                      | Some h => Some (fst entry, h)
                      | None => None
                      end) l = map Some keyed).
  { induction l as [|[id t] l IHl]; intro Hl.
    - exists []. reflexivity.
    - destruct IHl as [keyed Hk]; [intros t' Ht'; apply Hl; now right|].
      destruct (topological_height_defined d rank Hrank (length d) id)
        as [h Hh]; [apply Hl; now left|].
      exists ((id, h) :: keyed). cbn [map fst]. now rewrite Hh, Hk. }
  destruct (H d Hbound) as [keyed Hk]. apply all_some_spec in Hk. rewrite Hk. eauto.
Qed.

(** *** The descending stable sort *)

Lemma insert_desc_perm x l : Permutation (insert_desc x l) (x :: l).
Proof.
  induction l as [|y l IH]; simpl; [reflexivity|].
  destruct (snd x <? snd y); [|reflexivity].
  rewrite IH. apply perm_swap.
Qed.

Lemma sorted_desc_perm l : Permutation (sorted_desc l) l.
Proof.
  induction l as [|x l IH]; simpl; [constructor|].
  rewrite insert_desc_perm. now constructor.
Qed.

Lemma insert_desc_sorted x l :
  StronglySorted by_height_desc l -> StronglySorted by_height_desc (insert_desc x l).
Proof.
  induction 1 as [|y l Hs IH Hall]; simpl.
  - repeat constructor.
  - destruct (snd x <? snd y) eqn:E.
    + apply Z.ltb_lt in E. constructor; [exact IH|].
      apply Forall_forall. intros z Hz.
      apply (Permutation_in _ (insert_desc_perm x l)) in Hz.
      destruct Hz as [<-|Hz]; [unfold by_height_desc; lia|].
      rewrite Forall_forall in Hall. now apply Hall.
    + apply Z.ltb_ge in E. constructor; [now constructor|].
      constructor; [unfold by_height_desc; lia|].
      eapply Forall_impl; [|exact Hall]. unfold by_height_desc. intros; lia.
Qed.

Lemma sorted_desc_sorted l : StronglySorted by_height_desc (sorted_desc l).
Proof.
  induction l; simpl; [constructor|now apply insert_desc_sorted].
Qed.

Lemma StronglySorted_map {A B} (f : A -> B) (R : B -> B -> Prop) l :
  StronglySorted (fun x y => R (f x) (f y)) l -> StronglySorted R (map f l).
Proof.
  induction 1 as [|x l Hs IH Hall]; simpl; constructor; auto.
  now apply Forall_map.
Qed.

Lemma StronglySorted_rev {A} (R : A -> A -> Prop) l :
  StronglySorted R l -> StronglySorted (fun x y => R y x) (rev l).
Proof.
  induction 1 as [|x l Hs IH Hall]; simpl; [constructor|].
  apply RangeSetFacts.StronglySorted_app; auto.
  - repeat constructor.
  - intros a b Ha [<-|[]]. rewrite Forall_forall in Hall.
    apply Hall. now apply in_rev.
Qed.

(** [self.ops] lists every transform once, highest first. *)
Lemma create_execution_tree_spec d ids :
  create_execution_tree d = Some ids ->
  Permutation ids (map fst d)
  /\ descending (map (height_of d) ids).
Proof.
  unfold create_execution_tree. destruct (heights d) as [keyed|] eqn:E;
    [|discriminate].
  intro H. inversion H; subst ids. clear H.
  destruct (heights_spec d keyed E) as [Hids Hall]. split.
  - rewrite <- Hids. apply Permutation_map, sorted_desc_perm.
  - assert (Hs : map (height_of d) (map fst (sorted_desc keyed))
                 = map snd (sorted_desc keyed)).
    { rewrite map_map. apply map_ext_in. intros p Hp.
      apply (Permutation_in _ (sorted_desc_perm keyed)) in Hp.
      rewrite Forall_forall in Hall. unfold height_of. now rewrite (Hall p Hp). }
    rewrite Hs. unfold descending. apply StronglySorted_map.
    apply sorted_desc_sorted.
Qed.

(** *** The calls [process_bundle] makes *)

Section Trace.
Variable fails : event -> bool.

Lemma call_all_trace evs : forall tr tr',
  call_all fails evs tr = Returned tr' -> tr' = tr ++ evs.
Proof.
  induction evs as [|ev evs IH]; intros tr tr' H; simpl in H.
  - inversion H. now rewrite app_nil_r.
  - unfold call, bind in H. destruct (fails ev); [discriminate|].
    apply IH in H. now rewrite <- app_assoc in H.
Qed.

Lemma dispatch_all_trace self es : forall tr tr',
  dispatch_all fails self es tr = Returned tr' ->
  exists evs, tr' = tr ++ evs /\ Forall is_processing evs.
Proof.
  induction es as [|e es IH]; intros tr tr' H; simpl in H.
  - inversion H. exists []. rewrite app_nil_r. split; [reflexivity|constructor].
  - unfold bind in H. destruct (dispatch fails self e tr) as [tr1|] eqn:E;
      [|discriminate].
    destruct (IH _ _ H) as (evs & -> & Hevs).
    assert (exists evs1, tr1 = tr ++ evs1 /\ Forall is_processing evs1)
      as (evs1 & -> & Hevs1).
    { unfold dispatch in E. destruct e as [tid fam timers|tid data].
      - destruct (has_pair _ _); [|discriminate].
        apply call_all_trace in E. exists (map (Process_timer tid fam) timers).
        split; [exact E|]. apply Forall_forall. intros ev Hev.
        apply in_map_iff in Hev. destruct Hev as (x & <- & _). exact I.
      - destruct (has_key _ _); [|discriminate].
        unfold call in E. destruct (fails _); [discriminate|].
        inversion E. exists [Process_encoded tid data].
        split; [reflexivity|]. repeat constructor. }
    exists (evs1 ++ evs). rewrite <- app_assoc. split; [reflexivity|].
    apply Forall_app. auto.
Qed.

Lemma started_order_app t1 t2 :
  started_order (t1 ++ t2) = started_order t1 ++ started_order t2.
Proof. apply flat_map_app. Qed.

Lemma finished_order_app t1 t2 :
  finished_order (t1 ++ t2) = finished_order t1 ++ finished_order t2.
Proof. apply flat_map_app. Qed.

Lemma order_of_others evs :
  Forall (fun ev => match ev with Op_start _ _ | Op_finish _ => False | _ => True end)
         evs ->
  started_order evs = [] /\ finished_order evs = [].
Proof.
  induction 1 as [|ev evs Hev _ [IH1 IH2]]; [split; reflexivity|].
  unfold started_order, finished_order in *. simpl. rewrite IH1, IH2.
  destruct ev; try destruct Hev; split; reflexivity.
Qed.

Lemma order_of_starts {A} (f : A -> string) i (l : list A) :
  started_order (map (fun o => Op_start i (f o)) l) = map f l
  /\ finished_order (map (fun o => Op_start i (f o)) l) = [].
Proof.
  induction l as [|x l [IH1 IH2]]; [split; reflexivity|].
  unfold started_order, finished_order in *. simpl. rewrite IH1, IH2.
  split; reflexivity.
Qed.

Lemma order_of_finishes {A} (f : A -> string) (l : list A) :
  started_order (map (fun o => Op_finish (f o)) l) = []
  /\ finished_order (map (fun o => Op_finish (f o)) l) = map f l.
Proof.
  induction l as [|x l [IH1 IH2]]; [split; reflexivity|].
  unfold started_order, finished_order in *. simpl. rewrite IH1, IH2.
  split; reflexivity.
Qed.

(** Closing the timer output streams, when it returns. *)
Lemma closing_trace (self : BundleProcessor) tr trace :
  (if has_timer_data_channel self
   then call_all fails (map (fun ti => Close_timer_stream (fst ti) (snd ti))
                            (timers_info self)) tr
   else match timers_info self with
        | [] => Returned tr
        | _ :: _ => Raised AssertionError
        end) = Returned trace ->
  trace = tr ++ map (fun ti => Close_timer_stream (fst ti) (snd ti))
                    (timers_info self).
Proof.
  destruct (has_timer_data_channel self).
  - apply call_all_trace.
  - destruct (timers_info self); [|discriminate].
    intro H. inversion H. simpl. now rewrite app_nil_r.
Qed.

(** A bundle that returns was run with its marker set and its state
    sampler started, on a processor that was not tracking. *)
Lemma process_bundle_returned self i es self' trace :
  process_bundle fails self i es = (self', Returned trace) ->
  tracking self = false
  /\ exists tr0,
       call_all fails (map (fun o => Set_output_stream i (fst o))
                           (filter is_data_output (ops self))) [] = Returned tr0
       /\ process_bundle_body fails (during self i) i es tr0 = Returned trace.
Proof.
  unfold process_bundle.
  destruct (call_all fails _ []) as [tr0|] eqn:E0; [|discriminate].
  unfold state_sampler_start. cbn [tracking with_instruction].
  destruct (tracking self); [discriminate|].
  intro H. inversion H as [[Hs Hb]]. split; [reflexivity|].
  exists tr0. split; reflexivity.
Qed.

(** A bundle that completes has started the operations in the reverse
    of [self.ops] and finished them in the order of [self.ops]. *)
Lemma process_bundle_orders self i es self' trace :
  process_bundle fails self i es = (self', Returned trace) ->
  started_order trace = rev (map fst (ops self))
  /\ finished_order trace = map fst (ops self).
Proof.
  intro H. apply process_bundle_returned in H.
  destruct H as (_ & tr0 & E0 & Hb).
  apply call_all_trace in E0. simpl in E0.
  unfold process_bundle_body, bind in Hb. simpl ops in Hb.
  simpl has_timer_data_channel in Hb. simpl timers_info in Hb.
  destruct (call_all fails (map _ (rev (ops self))) tr0) as [tr1|] eqn:E1;
    [|discriminate].
  apply call_all_trace in E1.
  match type of Hb with
  | match ?x with _ => _ end = _ => destruct x as [tr2|] eqn:E2; [|discriminate]
  end.
  assert (exists evs2, tr2 = tr1 ++ evs2
            /\ Forall (fun ev => match ev with
                                 | Op_start _ _ | Op_finish _ => False
                                 | _ => True end) evs2)
    as (evs2 & -> & Hevs2).
  { destruct (has_timer_data_channel self).
    - apply call_all_trace in E2. eexists. split; [exact E2|].
      apply Forall_forall. intros ev Hev. apply in_map_iff in Hev.
      destruct Hev as (x & <- & _). exact I.
    - inversion E2. exists []. rewrite app_nil_r. split; [reflexivity|constructor]. }
  destruct (dispatch_all fails _ es _) as [tr3|] eqn:E3; [|discriminate].
  apply dispatch_all_trace in E3. destruct E3 as (evs3 & -> & Hevs3).
  destruct (call_all fails (map _ (ops self)) _) as [tr4|] eqn:E4; [|discriminate].
  apply call_all_trace in E4. apply closing_trace in Hb.
  subst trace tr4 tr1 tr0.
  assert (H0 : Forall (fun ev => match ev with
                                 | Op_start _ _ | Op_finish _ => False
                                 | _ => True end)
                      (map (fun o => Set_output_stream i (fst o))
                           (filter (is_data_output) (ops self)))).
  { apply Forall_forall. intros ev Hev. apply in_map_iff in Hev.
    destruct Hev as (x & <- & _). exact I. }
  assert (H3 : Forall (fun ev => match ev with
                                 | Op_start _ _ | Op_finish _ => False
                                 | _ => True end) evs3).
  { eapply Forall_impl; [|exact Hevs3]. intros ev. destruct ev; simpl; tauto. }
  assert (H5 : Forall (fun ev => match ev with
                                 | Op_start _ _ | Op_finish _ => False
                                 | _ => True end)
                      (map (fun ti => Close_timer_stream (fst ti) (snd ti))
                           (timers_info self))).
  { apply Forall_forall. intros ev Hev. apply in_map_iff in Hev.
    destruct Hev as (x & <- & _). exact I. }
  destruct (order_of_others _ H0) as [A0 B0].
  destruct (order_of_others _ Hevs2) as [A2 B2].
  destruct (order_of_others _ H3) as [A3 B3].
  destruct (order_of_others _ H5) as [A5 B5].
  destruct (order_of_starts (@fst string urn) i (rev (ops self))) as [A1 B1].
  destruct (order_of_finishes (@fst string urn) (ops self)) as [A4 B4].
  rewrite !started_order_app, !finished_order_app.
  rewrite A0, A1, A2, A3, A4, A5, B0, B1, B2, B3, B4, B5.
  rewrite !app_nil_r. simpl. rewrite map_rev. auto.
Qed.

End Trace.
End BundleFacts.

Module BundleOrder.
Import Bundle BundleFacts.

Lemma make_ops d timers tc self :
  make d timers tc = Some self ->
  create_execution_tree d = Some (map fst (ops self)).
Proof.
  unfold make. destruct (create_execution_tree d) as [ids|]; [|discriminate].
  intro H. inversion H; subst. simpl. rewrite map_map. simpl.
  now rewrite map_id.
Qed.

(** C7 (as the code has it).  [self.ops] is sorted by descending height;
    [process_bundle] starts the operations in the reverse of that order
    and finishes them in that order.  So operations are started in
    ascending height order (consumers before their producers) and
    finished in descending height order (producers before their
    consumers), each transform once, where the height of a transform is
    1 + the greatest height among its consumers (1 when it has none). *)
Theorem operations_start_lowest_first :
  forall (d : descriptor) timers tc (self : BundleProcessor),
    make d timers tc = Some self ->
    forall fails i es self' trace,
      process_bundle fails self i es = (self', Returned trace) ->
      ascending (map (height_of d) (started_order trace))
      /\ descending (map (height_of d) (finished_order trace))
      /\ started_order trace = rev (finished_order trace)
      /\ Permutation (finished_order trace) (map fst d)
      /\ (forall id, In id (map fst d) ->
                     height_of d id
                     = 1 + max_list (0 :: map (height_of d) (consumers d id))).
Proof.
  intros d timers tc self Hmake fails i es self' trace Hrun.
  pose proof (make_ops _ _ _ _ Hmake) as Hops.
  destruct (create_execution_tree_spec d _ Hops) as [Hperm Hdesc].
  destruct (process_bundle_orders fails _ _ _ _ _ Hrun) as [Hs Hf].
  rewrite Hs, Hf. repeat split; auto.
  - rewrite map_rev. unfold ascending.
    apply StronglySorted_rev in Hdesc.
    clear -Hdesc. induction Hdesc; constructor; auto.
    eapply Forall_impl; [|eassumption]. simpl. intros; lia.
  - unfold create_execution_tree in Hops.
    destruct (heights d) as [keyed|] eqn:E; [|discriminate].
    intros id Hid. eapply height_equation; eauto.
Qed.



End BundleOrder.

(** ** The multimap view: bulk read, then cache or point lookups *)

Module SideInputFacts.
Import SideInput.

Section MultiMapFacts.
Variables K V : Type.
Variable K_eqb : K -> K -> bool.
(** Python compares keys by equality. *)
Hypothesis K_eqb_eq : forall a b, K_eqb a b = true <-> a = b.

Lemma dict_get_set_same (d : dict K V) k v :
  dict_get K V K_eqb (dict_set K V K_eqb d k v) k = Some v.
Proof.
  assert (Hkk : K_eqb k k = true) by now apply K_eqb_eq.
  induction d as [|[k0 v0] d IH]; simpl.
  - now rewrite Hkk.
  - destruct (K_eqb k k0) eqn:E; simpl; rewrite ?E; [reflexivity|exact IH].
Qed.

Lemma dict_get_set_other (d : dict K V) k v k' :
  k' <> k ->
  dict_get K V K_eqb (dict_set K V K_eqb d k v) k' = dict_get K V K_eqb d k'.
Proof.
  intro Hne.
  assert (Hk : K_eqb k' k = false).
  { destruct (K_eqb k' k) eqn:E; [|reflexivity]. apply K_eqb_eq in E. congruence. }
  induction d as [|[k0 v0] d IH]; simpl.
  - now rewrite Hk.
  - destruct (K_eqb k k0) eqn:E; simpl.
    + apply K_eqb_eq in E. subst k0. now rewrite Hk.
    + destruct (K_eqb k' k0); [reflexivity|exact IH].
Qed.

(** The loop stores the pairs up to enumeration index
    [_BULK_READ_LIMIT + 1]; it ends fully loaded exactly when the
    iterable is exhausted before that index without raising. *)
Lemma bulk_loop_spec (items : list (K * list V)) (raises : bool) :
  forall (ix : nat) (c : dict K V),
    (ix <= _BULK_READ_LIMIT + 1)%nat ->
    bulk_loop K V K_eqb ix items raises c
    = (fold_left (fun c kv => dict_set K V K_eqb c (fst kv) (In_memory K V (snd kv)))
                 (firstn (_BULK_READ_LIMIT + 2 - ix) items) c,
       if (_BULK_READ_LIMIT + 1 <? ix + length items)%nat
       then _BULK_READ_PARTIALLY
       else if raises then _BULK_READ_PARTIALLY else _BULK_READ_FULLY).
Proof.
  induction items as [|[k vs] items IH]; intros ix c Hix.
  - cbn [bulk_loop length]. rewrite firstn_nil. cbn [fold_left].
    replace (_BULK_READ_LIMIT + 1 <? ix + 0)%nat with false; [reflexivity|].
    symmetry. apply Nat.ltb_ge. lia.
  - cbn [bulk_loop length].
    destruct (_BULK_READ_LIMIT <? ix)%nat eqn:E.
    + apply Nat.ltb_lt in E.
      replace (_BULK_READ_LIMIT + 2 - ix)%nat with 1%nat by lia.
      cbn [firstn fold_left fst snd].
      replace (_BULK_READ_LIMIT + 1 <? ix + S (length items))%nat with true;
        [reflexivity|].
      symmetry. apply Nat.ltb_lt. lia.
    + apply Nat.ltb_ge in E.
      rewrite IH by lia.
      replace (_BULK_READ_LIMIT + 2 - ix)%nat
        with (S (_BULK_READ_LIMIT + 2 - S ix)) by lia.
      cbn [firstn fold_left fst snd].
      replace (S ix + length items)%nat with (ix + S (length items))%nat by lia.
      reflexivity.
Qed.

Lemma exceeds_limit_length (source : bulk_iterable K V) :
  exceeds_limit K V source
  <-> (_BULK_READ_LIMIT + 1 < length (pairs K V source))%nat.
Proof.
  unfold exceeds_limit. split.
  - intros (ix & H1 & H2). lia.
  - intro H. exists (_BULK_READ_LIMIT + 1)%nat. lia.
Qed.

Lemma first_getitem_loads source key :
  getitem K V K_eqb true source (fresh K V) key
  = getitem K V K_eqb true source (loaded K V K_eqb source) key.
Proof.
  unfold getitem at 1. cbn [_bulk_read cache fresh].
  rewrite bulk_loop_spec by lia.
  rewrite Nat.sub_0_r, Nat.add_0_l. reflexivity.
Qed.

(** Fully loaded: every lookup is answered from the cache, absent keys
    with the empty sequence, and nothing changes. *)
Lemma lookups_fully (calls : list (bulk_iterable K V * K)) :
  forall m : MultiMap K V,
    _bulk_read K V m = Some _BULK_READ_FULLY ->
    lookups K V K_eqb true m calls
    = (m, map (answer K V K_eqb (cache K V m) (fun _ => In_memory K V []))
              (map snd calls)).
Proof.
  induction calls as [|[source key] calls IH]; intros m Hm; [reflexivity|].
  cbn [lookups]. unfold getitem. rewrite Hm. cbn [andb].
  rewrite Hm. rewrite (IH m Hm). reflexivity.
Qed.

(** Partially loaded: the view stays so; an entry once cached stays,
    and every lookup is answered by the cached entry, or else by a
    point lookup for that key. *)
Lemma lookups_partially (B : dict K V) (calls : list (bulk_iterable K V * K)) :
  forall m : MultiMap K V,
    _bulk_read K V m = Some _BULK_READ_PARTIALLY ->
    (forall k, answer K V K_eqb (cache K V m) (Point_lookup K V) k
               = answer K V K_eqb B (Point_lookup K V) k) ->
    (forall k v, dict_get K V K_eqb B k = Some v ->
                 dict_get K V K_eqb (cache K V m) k = Some v) ->
    let m' := fst (lookups K V K_eqb true m calls) in
    _bulk_read K V m' = Some _BULK_READ_PARTIALLY
    /\ (forall k v, dict_get K V K_eqb B k = Some v ->
                    dict_get K V K_eqb (cache K V m') k = Some v)
    /\ snd (lookups K V K_eqb true m calls)
       = map (answer K V K_eqb B (Point_lookup K V)) (map snd calls).
Proof.
  induction calls as [|[source key] calls IH]; intros m Hm Hans Hkeep.
  - simpl. auto.
  - cbn [lookups map snd]. unfold getitem. rewrite Hm. cbn [andb].
    rewrite Hm. pose proof (Hans key) as Hkey. unfold answer in Hkey at 1.
    destruct (dict_get K V K_eqb (cache K V m) key) as [v|] eqn:Eg.
    + specialize (IH m Hm Hans Hkeep).
      destruct (lookups K V K_eqb true m calls) as [m2 vs2].
      cbn [fst snd] in *. destruct IH as (I1 & I2 & I3).
      repeat split; auto. congruence.
    + set (m1 := {| _bulk_read := Some _BULK_READ_PARTIALLY;
                    cache := dict_set K V K_eqb (cache K V m) key
                                      (Point_lookup K V key) |}).
      assert (H1 : _bulk_read K V m1 = Some _BULK_READ_PARTIALLY) by reflexivity.
      assert (H2 : forall k, answer K V K_eqb (cache K V m1) (Point_lookup K V) k
                             = answer K V K_eqb B (Point_lookup K V) k).
      { intro k. rewrite <- Hans. unfold answer. subst m1. cbn [cache].
        destruct (K_eqb k key) eqn:Ek.
        - apply K_eqb_eq in Ek. subst k.
          now rewrite dict_get_set_same, Eg.
        - rewrite dict_get_set_other; [reflexivity|].
          intro Heq. apply K_eqb_eq in Heq. congruence. }
      assert (H3 : forall k v, dict_get K V K_eqb B k = Some v ->
                               dict_get K V K_eqb (cache K V m1) k = Some v).
      { intros k v Hk. subst m1. cbn [cache].
        rewrite dict_get_set_other; [now apply Hkeep|].
        intros ->. apply Hkeep in Hk. congruence. }
      specialize (IH m1 H1 H2 H3).
      destruct (lookups K V K_eqb true m1 calls) as [m2 vs2].
      cbn [fst snd] in *. destruct IH as (I1 & I2 & I3).
      repeat split; auto. congruence.
Qed.

(** The bulk read as the loop performs it, with the limit taken as the
    code tests it: on the enumeration index.  With bulk reading enabled,
    the first lookup on a fresh view runs the bulk read.  If the iterable is exhausted without the
    enumeration index exceeding [_BULK_READ_LIMIT] and without raising,
    the view is marked fully loaded and this and every later lookup
    is answered from the cache of the pairs read, absent keys with the
    empty sequence; the cache never changes.  If the index exceeds the
    limit or the iterable raises, the view is marked partially loaded
    and stays so; the entries stored so far are kept, and this and
    every later lookup is answered by the kept entry for its key, or
    else by a per-key point lookup.  In both cases what the service
    would serve to a later bulk read is never looked at. *)
Theorem multimap_bulk_read_then_cache_or_point_lookups :
  forall (source : bulk_iterable K V) (key : K)
         (later : list (bulk_iterable K V * K)),
    let m := fst (lookups K V K_eqb true (fresh K V) ((source, key) :: later)) in
    let vs := snd (lookups K V K_eqb true (fresh K V) ((source, key) :: later)) in
    (~ exceeds_limit K V source -> raises K V source = false ->
     _bulk_read K V m = Some _BULK_READ_FULLY
     /\ cache K V m = bulk_cache K V K_eqb source
     /\ stored_pairs K V source = pairs K V source
     /\ vs = map (answer K V K_eqb (bulk_cache K V K_eqb source)
                         (fun _ => In_memory K V []))
                 (key :: map snd later))
    /\ (exceeds_limit K V source \/ raises K V source = true ->
        _bulk_read K V m = Some _BULK_READ_PARTIALLY
        /\ (forall k v, dict_get K V K_eqb (bulk_cache K V K_eqb source) k = Some v ->
                        dict_get K V K_eqb (cache K V m) k = Some v)
        /\ vs = map (answer K V K_eqb (bulk_cache K V K_eqb source)
                            (Point_lookup K V))
                    (key :: map snd later)).
Proof.
  intros source key later m vs.
  assert (E : lookups K V K_eqb true (fresh K V) ((source, key) :: later)
              = lookups K V K_eqb true (loaded K V K_eqb source) ((source, key) :: later)).
  { cbn [lookups]. now rewrite first_getitem_loads. }
  subst m vs. rewrite E. split.
  - intros Hlim Hraise.
    assert (Hlen : (_BULK_READ_LIMIT + 1 <? length (pairs K V source))%nat = false).
    { apply Nat.ltb_ge. rewrite exceeds_limit_length in Hlim. lia. }
    assert (Hm : _bulk_read K V (loaded K V K_eqb source) = Some _BULK_READ_FULLY).
    { unfold loaded. cbn [_bulk_read]. now rewrite Hlen, Hraise. }
    rewrite (lookups_fully _ _ Hm). cbn [fst snd map].
    repeat split; auto.
    unfold stored_pairs. apply firstn_all2. apply Nat.ltb_ge in Hlen. lia.
  - intros Hor.
    assert (Hm : _bulk_read K V (loaded K V K_eqb source) = Some _BULK_READ_PARTIALLY).
    { unfold loaded. cbn [_bulk_read].
      destruct (_BULK_READ_LIMIT + 1 <? length (pairs K V source))%nat eqn:Hlen;
        [reflexivity|].
      destruct Hor as [Hex | ->]; [|reflexivity].
      apply exceeds_limit_length in Hex. apply Nat.ltb_ge in Hlen. lia. }
    apply (lookups_partially (bulk_cache K V K_eqb source)
                             ((source, key) :: later) (loaded K V K_eqb source) Hm);
      auto.
Qed.

End MultiMapFacts.

(** C9.  The claim holds except at the limit, which the loop misses by
    one.  It tests the 0-based enumeration index against
    [_BULK_READ_LIMIT] after it has stored the pair, so a bulk iterable
    of 101 pairs, one more than the limit of 100, is read to its end:
    the view is marked fully loaded, all 101 pairs are cached, and a key
    that is absent is answered with the empty sequence, not with a point
    lookup.  Only from 102 pairs on does the view fall back, with 102
    pairs stored. *)
Theorem bulk_read_of_101_pairs_loads_fully :
  (_BULK_READ_LIMIT < length (pairs Z Z (Samples.counting_source 101 false)))%nat
  /\ getitem Z Z Z.eqb true (Samples.counting_source 101 false) (fresh Z Z) 500
     = ({| _bulk_read := Some _BULK_READ_FULLY;
           cache := bulk_cache Z Z Z.eqb (Samples.counting_source 101 false) |},
        In_memory Z Z [])
  /\ length (bulk_cache Z Z Z.eqb (Samples.counting_source 101 false)) = 101%nat
  /\ getitem Z Z Z.eqb true (Samples.counting_source 102 false) (fresh Z Z) 500
     = ({| _bulk_read := Some _BULK_READ_PARTIALLY;
           cache := dict_set Z Z Z.eqb
                      (bulk_cache Z Z Z.eqb (Samples.counting_source 102 false))
                      500 (Point_lookup Z Z 500) |},
        Point_lookup Z Z 500)
  /\ length (bulk_cache Z Z Z.eqb (Samples.counting_source 102 false)) = 102%nat.
Proof.
  split; [vm_compute; lia|]. repeat split; vm_compute; reflexivity.
Qed.

End SideInputFacts.

(** ** The statements on sample inputs *)

Module Examples.
Import PyFloat DataInput Samples.

(** A split at 1, then one element: nothing more is ever emitted. *)
Lemma process_encoded_stops_at_split_witness :
  index (op boundary_world) < 1
  /\ emitted drained_world = emitted boundary_world.
Proof.
  assert (Hsplit : try_split (op started_world) (keep_half_of 2)
                   = (set_stop (start initial) 1, Returned (Some (0, [], [], 1))))
    by (vm_compute; reflexivity).
  destruct (StopBound.process_encoded_stops_at_split
              unit unit Byte.byte byte_decoder
              started_world (keep_half_of 2) _ _ _ _ _ Hsplit) as (_ & _ & Hafter).
  assert (Hrun : run (P:=unit) (R:=unit) byte_decoder
                     [Process_encoded three_bytes; Lock_and_advance;
                      Decode_and_output]
                     (with_op started_world (set_stop (start initial) 1))
                 = Some boundary_world)
    by (vm_compute; reflexivity).
  destruct (Hafter _ _ Hrun) as (Hidx & _ & Hdrop).
  split; [exact Hidx|].
  destruct (Hdrop [Byte.x02; Byte.x03] eq_refl eq_refl) as [_ Hlater].
  apply (Hlater [Lock_and_advance; Process_encoded [Byte.x04]; Lock_and_advance]).
  vm_compute. reflexivity.
Defined.

(** Allowed points {2, 7}, candidate 5: the rule picks 7. *)
Lemma compute_split_snaps_to_allowed_witness :
  snap_to_allowed (-1) 5 [2; 7]
  = (if (-1 <? 2) && (5 - 2 <? 7 - 5) then 2 else 7).
Proof.
  assert (Hne : [2; 7] <> []) by discriminate.
  assert (Hnotin : ~ In 5 [2; 7]) by (intros [H|[H|[]]]; discriminate).
  destruct (DataInputFacts.compute_split_snaps_to_allowed (-1) 5 [2; 7] Hne Hnotin)
    as (_ & _ & Hbetween & _).
  apply Hbetween.
  - split; [simpl; auto|]. split; [lia|].
    intros a [<-|[<-|[]]] Ha; lia.
  - split; [simpl; auto|]. split; [lia|].
    intros a [<-|[<-|[]]] Ha; lia.
Defined.

(** After [clear], adds and a ranged clear, the full-range removal is
    what [commit] will send. *)
Lemma commit_requests_and_waits_witness :
  RangeSet.ranges (KeyedState.ol_pending_removes Z Z cleared_list_with_20)
  = [(KeyedState.RANGE_MIN, KeyedState.RANGE_MAX)].
Proof.
  destruct (CommitFacts.commit_requests_and_waits Z Z) as (_ & _ & _ & Hclear).
  apply (Hclear fresh_ordered_list cleared_list_with_20
                [KeyedState.Ol_add Z 5 50; KeyedState.Ol_add Z 20 7;
                 KeyedState.Ol_clear_range Z 0 10]).
  vm_compute. reflexivity.
Defined.

(** C4 as the spec states it fails for a bag that was cleared and written to:
    [commit] sends the clear and the append and waits for the append
    only. *)
Lemma commit_awaits_every_request_counterexample :
  ~ (forall (b : KeyedState.Bag Z Z) (h : StateHandler.t Z Z),
        KeyedState.awaits_all_issued Z Z h (KeyedState.bag_commit Z Z b h)).
Proof.
  intro H. specialize (H cleared_bag_with_7 idle_handler 0%nat).
  assert (Hf : In 0%nat [1%nat]) by (apply H; vm_compute; lia).
  destruct Hf as [Hf|[]]. discriminate.
Qed.

(** Four adds leave three ranges, pairwise apart; 12 is covered. *)
Lemma range_set_disjoint_and_exact_witness :
  (RangeSet.apart (-3, -1) (0, 5) \/ RangeSet.apart (0, 5) (-3, -1))
  /\ RangeSet.contains (RangeSet.add_all [(0, 5); (10, 15); (2, 3); (-3, -1)]) 12
     = true.
Proof.
  destruct (RangeSetFacts.range_set_disjoint_and_exact
              [(0, 5); (10, 15); (2, 3); (-3, -1)])
    as (_ & _ & _ & Hpair & Hmem).
  split.
  - apply Hpair; [vm_compute; auto|vm_compute; auto|discriminate].
  - apply Hmem. exists (10, 15). split; [simpl; auto|simpl; lia].
Defined.

Lemma sum_merge_fresh (l : list Z) (v : Z) :
  fold_right Z.add 0 (l ++ [0 + v]) = fold_right Z.add 0 l + v.
Proof. induction l as [|a l IH]; simpl in *; lia. Qed.

(** The sum: whatever the coins, the reads see 10 + 1 and 10 + 1 + 2 + 3. *)
Lemma combining_read_is_merge_of_adds_witness :
  snd (CombiningValue.run Z Z Z Z sum_fn [10]
         [CombiningValue.Add Z true 1; CombiningValue.Read Z;
          CombiningValue.Add Z false 2; CombiningValue.Add Z true 3;
          CombiningValue.Read Z]
         (CombiningValue.fresh_bag Z Z (StateHandler.Key 0)))
  = [11; 16].
Proof.
  apply (CombiningFacts.combining_read_is_merge_of_adds Z Z Z Z sum_fn [10]).
  - intro a. simpl. lia.
  - intros l v. apply sum_merge_fresh.
Defined.

(** Source and sink: the sink (height 1) is started first, the source
    (height 2) is finished first. *)
Lemma operations_start_lowest_first_witness :
  Bundle.ascending [1; 2] /\ Bundle.descending [2; 1].
Proof.
  destruct (BundleOrder.operations_start_lowest_first
              source_to_sink [] false source_sink_processor eq_refl
              nothing_fails "b"%string [Bundle.Data "source"%string three_bytes]
              source_sink_processor bundle_b_trace eq_refl)
    as (Hstart & Hfinish & _).
  split; [exact Hstart|exact Hfinish].
Defined.

(** C7 as the spec states it fails on source and sink: the start order has
    heights 1, 2, which is not descending. *)
Lemma operations_start_highest_first_counterexample :
  ~ (forall (d : Bundle.descriptor) timers tc self fails i es self' trace,
        Bundle.make d timers tc = Some self ->
        Bundle.process_bundle fails self i es = (self', Returned trace) ->
        Bundle.descending (map (Bundle.height_of d) (Bundle.started_order trace))
        /\ Bundle.ascending (map (Bundle.height_of d) (Bundle.finished_order trace))).
Proof.
  intro H.
  destruct (H source_to_sink [] false source_sink_processor
              nothing_fails "b"%string [Bundle.Data "source"%string three_bytes]
              source_sink_processor bundle_b_trace eq_refl eq_refl) as [Hd _].
  change (Bundle.descending [1; 2]) in Hd.
  inversion Hd as [|? ? _ Hall]; subst.
  inversion Hall as [|? ? Hge _]; subst. lia.
Qed.


(** Three pairs load fully: key 1 is cached, key 7 is absent.  An
    iterable that raises at once leaves point lookups. *)
Lemma multimap_bulk_read_then_cache_or_point_lookups_witness :
  snd (SideInput.lookups Z Z Z.eqb true (SideInput.fresh Z Z)
         [(counting_source 3 false, 1); (counting_source 0 true, 7)])
  = [SideInput.In_memory Z Z [1]; SideInput.In_memory Z Z []]
  /\ snd (SideInput.lookups Z Z Z.eqb true (SideInput.fresh Z Z)
            [(counting_source 0 true, 1); (counting_source 3 false, 7)])
     = [SideInput.Point_lookup Z Z 1; SideInput.Point_lookup Z Z 7].
Proof.
  split.
  - destruct (SideInputFacts.multimap_bulk_read_then_cache_or_point_lookups
                Z Z Z.eqb Z.eqb_eq (counting_source 3 false) 1
                [(counting_source 0 true, 7)]) as [Hfull _].
    apply Hfull; [|reflexivity].
    intros (ix & H1 & H2). simpl in H1. unfold SideInput._BULK_READ_LIMIT in H2.
    lia.
  - destruct (SideInputFacts.multimap_bulk_read_then_cache_or_point_lookups
                Z Z Z.eqb Z.eqb_eq (counting_source 0 true) 1
                [(counting_source 3 false, 7)]) as [_ Hpart].
    apply Hpart. right. reflexivity.
Defined.

(** A second split in the same bundle lowers the stop from 5 to 3. *)
Lemma stop_never_increases_witness :
  match try_split (op split_at_5_world) (keep_half_of 10) with
  | (o', Returned (Some (a, ps, rs, b))) =>
      stop o' = Fin b /\ index o' = index (op split_at_5_world)
      /\ index (op split_at_5_world) < b
      /\ bound_le (Fin b) (stop (op split_at_5_world))
      /\ (a = b - 1 -> lt_bound b (stop (op split_at_5_world)) = true)
  | (o', _) => o' = op split_at_5_world
  end.
Proof.
  assert (Hrun : run byte_decoder
                     [Start; Process_encoded three_bytes; Lock_and_advance;
                      Try_split (keep_half_of 10)]
                     initial_world
                 = Some split_at_5_world)
    by (vm_compute; reflexivity).
  destruct (StopBound.stop_never_increases unit unit Byte.byte byte_decoder
              _ _ Hrun) as [Hsplit _].
  exact (Hsplit (keep_half_of 10)).
Defined.

(** Ranges that touch are merged into one. *)
Example adjacent_ranges_merge :
  RangeSet.ranges (RangeSet.add_all [(0, 5); (5, 10)]) = [(0, 10)]
  /\ RangeSet.ranges (RangeSet.add_all [(5, 10); (0, 5)]) = [(0, 10)]
  /\ RangeSet.ranges (RangeSet.add_all [(0, 5); (6, 10)]) = [(0, 5); (6, 10)].
Proof. repeat split. Qed.

(** Of 150 pairs, 102 are stored before the view falls back. *)
Example bulk_read_limit_is_on_the_index :
  SideInput._bulk_read Z Z
    (fst (SideInput.getitem Z Z Z.eqb true (counting_source 101 false)
            (SideInput.fresh Z Z) 5))
  = Some SideInput._BULK_READ_FULLY
  /\ SideInput._bulk_read Z Z
       (fst (SideInput.getitem Z Z Z.eqb true (counting_source 150 false)
               (SideInput.fresh Z Z) 5))
     = Some SideInput._BULK_READ_PARTIALLY
  /\ length (SideInput.cache Z Z
               (fst (SideInput.getitem Z Z Z.eqb true (counting_source 150 false)
                       (SideInput.fresh Z Z) 5)))
     = 102%nat.
Proof. vm_compute. repeat split. Qed.

(** A call on its own after the split at 1: one element out, two bytes
    dropped. *)
Example process_encoded_drops_the_rest :
  process_encoded byte_decoder 4 (set_stop (start initial) 1) three_bytes []
  = Some (op drained_world, [(0, Byte.x01)], Returned tt).
Proof. reflexivity. Qed.

(** [finish] is what moves the index onto the stop bound. *)
Example finish_counts_the_last_element :
  index (finish (op drained_world)) = 1
  /\ stop (finish (op drained_world)) = Fin 1
  /\ reset (finish (op drained_world)) = initial.
Proof. repeat split. Qed.

End Examples.

(* ================================================================== *)
(** * Part III.  Further properties of the code                        *)
(* ================================================================== *)

(** ** Where a split may land *)

Module SplitPlacement.
Import PyFloat Sorted_seq Sorted_seq_facts DataInput.

Lemma bisect_right_le_length a x : (bisect_right a x <= length a)%nat.
Proof.
  induction a as [|y a IH]; simpl; [lia|]. destruct (y <=? x); simpl; lia.
Qed.

Lemma sorted_length l : length (sorted l) = length l.
Proof. apply Permutation_length, sorted_perm. Qed.

(** The snapped point is always one of the allowed points. *)
Lemma snap_to_allowed_is_allowed index x allowed :
  allowed <> [] -> In (snap_to_allowed index x allowed) allowed.
Proof.
  intro Hne. unfold snap_to_allowed.
  destruct allowed as [|a0 al] eqn:Ea; [congruence|]. rewrite <- Ea in *.
  destruct (mem x allowed) eqn:Em; [now apply mem_In|].
  assert (Hlen : (0 < length (sorted allowed))%nat).
  { rewrite sorted_length, Ea. simpl. lia. }
  pose proof (bisect_right_le_length (sorted allowed) x) as Hc.
  set (c := bisect_right (sorted allowed) x) in *.
  apply sorted_In.
  destruct (Nat.eqb c 0) eqn:E0; [apply nth_In; lia|].
  apply Nat.eqb_neq in E0.
  destruct (Nat.eqb c (length (sorted allowed))) eqn:E1.
  - apply DataInputFacts.last_In.
    intro H. rewrite H in Hlen. simpl in Hlen. lia.
  - apply Nat.eqb_neq in E1.
    destruct ((index <? nth (c - 1) (sorted allowed) 0)
              && (x - nth (c - 1) (sorted allowed) 0 <? nth c (sorted allowed) 0 - x));
      apply nth_In; lia.
Qed.

(** How [_compute_split] arrives at a split. *)
Lemma compute_split_cases P R index progress stop fraction total allowed ts
      a ps rs b :
  _compute_split P R index progress stop fraction total allowed ts
  = Returned (Some (a, ps, rs, b)) ->
  (a = index - 1 /\ b = index + 1
   /\ ltb progress one = true
   /\ is_valid_split_point allowed index = true
   /\ is_valid_split_point allowed (index + 1) = true
   /\ exists k, ts k = Some (ps, rs))
  \/ (exists raw,
         boundary_split P R index (snap_to_allowed index raw allowed) stop
         = Some (a, ps, rs, b)).
Proof.
  unfold _compute_split, bind. intro H.
  destruct (of_int _) as [span|]; [|discriminate].
  destruct (ltb progress one) eqn:Ep.
  - destruct (div _ _) as [k|]; [|discriminate].
    destruct (ltb k one && is_valid_split_point allowed index
              && is_valid_split_point allowed (index + 1)) eqn:Ev.
    + destruct (ts k) as [[eps ers]|] eqn:Ek.
      * inversion H; subst. left.
        apply andb_true_iff in Ev. destruct Ev as [Ev Ev2].
        apply andb_true_iff in Ev. destruct Ev as [_ Ev1].
        repeat split; auto. eauto.
      * destruct (round _) as [rounded|]; [|discriminate].
        right. inversion H. eauto.
    + destruct (round _) as [rounded|]; [|discriminate].
      right. inversion H. eauto.
  - destruct (round _) as [rounded|]; [|discriminate].
    right. inversion H. eauto.
Qed.

(** X1.  A split returned by [_compute_split] has one of two shapes.  An
    element-boundary split [(b - 1, [], [], b)] lies strictly between
    [index] and [stop].  A split inside the current element is
    [(index - 1, primaries, residuals, index + 1)] and is only made while
    the current element is unfinished (progress < 1).  Either way the
    residual starts after [index]; no split lands at or before [index],
    and no boundary split at or beyond [stop]. *)
Theorem compute_split_lands_after_index :
  forall P R index progress stop fraction total allowed
         (ts : float -> option (list P * list R)) a ps rs b,
    _compute_split P R index progress stop fraction total allowed ts
    = Returned (Some (a, ps, rs, b)) ->
    index < b
    /\ ((a = b - 1 /\ ps = [] /\ rs = [] /\ lt_bound b stop = true)
        \/ (a = index - 1 /\ b = index + 1 /\ ltb progress one = true
            /\ exists k, ts k = Some (ps, rs))).
Proof.
  intros P R index progress stop fraction total allowed ts a ps rs b H.
  apply compute_split_cases in H.
  destruct H as [(-> & -> & Hp & _ & _ & Hk)|[raw H]].
  - split; [lia|]. right. auto.
  - apply SplitSafety.boundary_split_some in H.
    destruct H as (-> & -> & -> & Hlt & Hb). split; [exact Hlt|]. left. auto.
Qed.

(** X2.  When allowed split points are given, the residual start of every
    split is one of them; a split inside the current element is only made
    when [index] is an allowed point too. *)
Theorem compute_split_respects_allowed_points :
  forall P R index progress stop fraction total allowed
         (ts : float -> option (list P * list R)) a ps rs b,
    allowed <> [] ->
    _compute_split P R index progress stop fraction total allowed ts
    = Returned (Some (a, ps, rs, b)) ->
    In b allowed /\ (a = index - 1 -> In index allowed).
Proof.
  intros P R index progress stop fraction total allowed ts a ps rs b Hne H.
  assert (Hvalid : forall i, is_valid_split_point allowed i = true -> In i allowed).
  { intros i Hi. unfold is_valid_split_point in Hi.
    destruct allowed; [congruence|]. now apply mem_In. }
  apply compute_split_cases in H.
  destruct H as [(-> & -> & _ & Hi & Hi1 & _)|[raw H]].
  - split; [now apply Hvalid|]. intros _. now apply Hvalid.
  - unfold boundary_split in H.
    destruct ((index <? snap_to_allowed index raw allowed)
              && lt_bound (snap_to_allowed index raw allowed) stop) eqn:E;
      [|discriminate].
    inversion H; subst. split; [now apply snap_to_allowed_is_allowed|].
    intro Hc. apply andb_true_iff in E. destruct E as [E _].
    apply Z.ltb_lt in E. lia.
Qed.

End SplitPlacement.

(** ** What one [process_encoded] call emits *)

Module BufferFacts.
Import DataInput Buffer.

Section Call.
Variable V : Type.
Variable decode : list Byte.byte -> option (V * list Byte.byte).

Lemma advanced_0 self : advanced self 0 = self.
Proof. destruct self. unfold advanced. simpl. f_equal. lia. Qed.

Lemma allowance_at_boundary self n :
  eq_pred_bound (index self) (stop self) = true -> allowance self n = O.
Proof.
  unfold allowance, eq_pred_bound. destruct (stop self); [|discriminate].
  intro H. apply Z.eqb_eq in H. rewrite H.
  replace (z - 1 - (z - 1)) with 0 by lia. simpl. lia.
Qed.

Lemma allowance_step self n :
  below_stop self ->
  eq_pred_bound (index self) (stop self) = false ->
  below_stop (increment_index self)
  /\ allowance self (S n) = S (allowance (increment_index self) n).
Proof.
  unfold below_stop, allowance, eq_pred_bound, increment_index.
  cbn [index stop started lt_bound].
  destruct (stop self) as [k|]; intros Hlt Hne; [|auto].
  apply Z.ltb_lt in Hlt. apply Z.eqb_neq in Hne. split.
  - apply Z.ltb_lt. lia.
  - assert (Z.to_nat (k - 1 - index self)
            = S (Z.to_nat (k - 1 - (index self + 1)))) as -> by lia.
    apply Nat.succ_min_distr.
Qed.

(** X3.  Run alone on a buffer that holds the elements [vs], with
    [index < stop], [process_encoded] returns normally having emitted
    exactly the first [stop - 1 - index] elements (all of them when there
    are fewer, or when [stop] is unbounded), in order, numbered
    [index + 1], [index + 2], ...; the index ends on the ordinal of the
    last element emitted. *)
Theorem process_encoded_emits_up_to_stop :
  forall s vs,
    holds V decode s vs ->
    forall fuel self output,
      below_stop self ->
      (length vs < fuel)%nat ->
      let n := allowance self (length vs) in
      process_encoded decode fuel self s output
      = Some (advanced self n,
              output ++ numbered V (index self + 1) (firstn n vs),
              Returned tt).
Proof.
  induction 1 as [|b s v rest vs Hd Hh IH]; intros fuel self output Hinv Hfuel n.
  - destruct fuel as [|fuel]; [lia|]. simpl.
    subst n. unfold allowance. destruct (stop self) eqn:Es; simpl;
      rewrite ?Nat.min_0_l; rewrite advanced_0, app_nil_r; reflexivity.
  - destruct fuel as [|fuel]; [simpl in Hfuel; lia|].
    cbn [process_encoded].
    destruct (eq_pred_bound (index self) (stop self)) eqn:E.
    + subst n. rewrite (allowance_at_boundary self _ E).
      simpl. now rewrite advanced_0, app_nil_r.
    + rewrite Hd.
      destruct (allowance_step self (length vs) Hinv E) as [Hinv' Hn].
      subst n. cbn [length]. rewrite Hn.
      rewrite (IH fuel (increment_index self) _ Hinv') by (simpl in Hfuel; lia).
      cbn [firstn numbered]. rewrite <- app_assoc. simpl.
      f_equal. f_equal. f_equal.
      unfold advanced, increment_index. simpl. f_equal. lia.
Qed.

(** X4.  When the buffer decodes to [vs] and then fails: if the stop
    bound lets more than [length vs] elements through, [process_encoded]
    emits all of [vs], raises [ValueError], and leaves the index one past
    the last element emitted (the failed element has been counted).  If
    the bound is reached first, the call returns normally and the
    undecodable rest is never looked at. *)
Theorem process_encoded_decode_failure :
  forall s vs,
    holds_then_fails V decode s vs ->
    forall fuel self output,
      below_stop self ->
      (length vs < fuel)%nat ->
      let n := allowance self (S (length vs)) in
      process_encoded decode fuel self s output
      = if (length vs <? n)%nat
        then Some (advanced self (S (length vs)),
                   output ++ numbered V (index self + 1) vs,
                   Raised ValueError)
        else Some (advanced self n,
                   output ++ numbered V (index self + 1) (firstn n vs),
                   Returned tt).
Proof.
  induction 1 as [b s Hd|b s v rest vs Hd Hh IH];
    intros fuel self output Hinv Hfuel n.
  - destruct fuel as [|fuel]; [lia|]. cbn [process_encoded].
    destruct (eq_pred_bound (index self) (stop self)) eqn:E.
    + subst n. rewrite (allowance_at_boundary self _ E). simpl.
      now rewrite advanced_0, app_nil_r.
    + rewrite Hd. destruct (allowance_step self 0 Hinv E) as [_ Hn].
      subst n. simpl length. rewrite Hn. simpl.
      rewrite app_nil_r. reflexivity.
  - destruct fuel as [|fuel]; [simpl in Hfuel; lia|].
    cbn [process_encoded].
    destruct (eq_pred_bound (index self) (stop self)) eqn:E.
    + subst n. rewrite (allowance_at_boundary self _ E). simpl.
      now rewrite advanced_0, app_nil_r.
    + rewrite Hd.
      destruct (allowance_step self (S (length vs)) Hinv E) as [Hinv' Hn].
      subst n. cbn [length]. rewrite Hn.
      rewrite (IH fuel (increment_index self) _ Hinv') by (simpl in Hfuel; lia).
      change (S (length vs) <? S (allowance (increment_index self) (S (length vs))))%nat
        with (length vs <? allowance (increment_index self) (S (length vs)))%nat.
      destruct (length vs <? allowance (increment_index self) (S (length vs)))%nat.
      * cbn [numbered]. rewrite <- app_assoc. simpl.
        do 3 f_equal. unfold advanced, increment_index. simpl. f_equal. lia.
      * cbn [firstn numbered]. rewrite <- app_assoc. simpl.
        do 3 f_equal. unfold advanced, increment_index. simpl. f_equal. lia.
Qed.

End Call.
End BufferFacts.

(** ** The bundle lifecycle: what is called, and in which order *)

Module BundleLifecycle.
Import Bundle BundleFacts BundleCalls.

Lemma consumers_are_transforms d t c :
  In c (consumers d t) -> In c (map fst d).
Proof.
  unfold consumers. destruct (lookup d t) as [tr|]; [|intros []].
  intro H. apply in_flat_map in H. destruct H as (out & _ & H).
  unfold pcoll_consumers in H. apply in_flat_map in H.
  destruct H as (entry & He & H). apply in_flat_map in H.
  destruct H as (input & _ & H).
  destruct (negb (is_side_input (snd entry) (fst input))
            && String.eqb (snd input) (snd out)); [|destruct H].
  destruct H as [<-|[]]. now apply in_map.
Qed.

Lemma max_list_ge l x : In x l -> x <= max_list l.
Proof.
  unfold max_list. induction l as [|y l IH]; intros []; simpl.
  - subst. lia.
  - specialize (IH H). lia.
Qed.

Lemma higher_comes_first (h : string -> Z) l :
  StronglySorted (fun x y => h x >= h y) l ->
  forall t c, In t l -> In c l -> h c < h t -> precedes t c l.
Proof.
  induction 1 as [|x l Hs IH Hall]; intros t c Ht Hc Hlt; [destruct Ht|].
  rewrite Forall_forall in Hall.
  destruct Ht as [<-|Ht].
  - destruct Hc as [<-|Hc]; [lia|].
    apply in_split in Hc. destruct Hc as (l2 & l3 & ->).
    exists [], l2, l3. reflexivity.
  - destruct Hc as [<-|Hc].
    + specialize (Hall t Ht). lia.
    + destruct (IH t c Ht Hc Hlt) as (l1 & l2 & l3 & ->).
      exists (x :: l1), l2, l3. reflexivity.
Qed.

Lemma precedes_rev {A} (a b : A) l : precedes a b l -> precedes b a (rev l).
Proof.
  intros (l1 & l2 & l3 & ->). exists (rev l3), (rev l2), (rev l1).
  rewrite rev_app_distr. simpl. rewrite rev_app_distr. simpl.
  now rewrite <- !app_assoc.
Qed.

(** X5.  In a bundle that completes, every operation is started after
    each of its consumers and finished before each of them: a producer
    never emits to a consumer that has not been started, and never after
    that consumer was finished. *)
Theorem consumers_started_first_finished_last :
  forall (d : descriptor) timers tc (self : BundleProcessor),
    make d timers tc = Some self ->
    forall fails i es self' trace,
      process_bundle fails self i es = (self', Returned trace) ->
      forall t c,
        In t (map fst d) -> In c (consumers d t) ->
        height_of d c < height_of d t
        /\ precedes c t (started_order trace)
        /\ precedes t c (finished_order trace).
Proof.
  intros d timers tc self Hmake fails i es self' trace Hrun t c Ht Hc.
  pose proof (BundleOrder.make_ops _ _ _ _ Hmake) as Hops.
  destruct (create_execution_tree_spec d _ Hops) as [Hperm Hdesc].
  destruct (process_bundle_orders fails _ _ _ _ _ Hrun) as [Hs Hf].
  assert (Hlt : height_of d c < height_of d t).
  { unfold create_execution_tree in Hops.
    destruct (heights d) as [keyed|] eqn:E; [|discriminate].
    rewrite (height_equation d keyed t E Ht).
    assert (height_of d c <= max_list (0 :: map (height_of d) (consumers d t))).
    { apply max_list_ge. right. now apply in_map. }
    lia. }
  split; [exact Hlt|].
  assert (Hsorted : StronglySorted (fun x y => height_of d x >= height_of d y)
                                   (map fst (ops self))).
  { unfold descending in Hdesc. clear -Hdesc.
    induction (map fst (ops self)) as [|x l IH]; [constructor|].
    simpl in Hdesc. inversion Hdesc as [|? ? Hs Hall]; subst.
    constructor; [now apply IH|]. rewrite Forall_map in Hall. exact Hall. }
  assert (Hin : forall x, In x (map fst d) -> In x (map fst (ops self))).
  { intros x Hx. apply (Permutation_in _ (Permutation_sym Hperm) Hx). }
  pose proof (higher_comes_first _ _ Hsorted t c (Hin t Ht)
                (Hin c (consumers_are_transforms d t c Hc)) Hlt) as Hpre.
  rewrite Hs, Hf. split; [now apply precedes_rev|exact Hpre].
Qed.

Section Calls.
Variable fails : event -> bool.

Lemma dispatch_all_delivered self es : forall tr tr',
  dispatch_all fails self es tr = Returned tr' -> tr' = tr ++ delivered es.
Proof.
  induction es as [|e es IH]; intros tr tr' H; simpl in H.
  - inversion H. now rewrite app_nil_r.
  - unfold bind in H. destruct (dispatch fails self e tr) as [tr1|] eqn:E;
      [|discriminate].
    apply IH in H. subst tr'.
    assert (tr1 = tr ++ delivered [e]) as ->.
    { unfold dispatch in E. destruct e as [tid fam timers|tid data].
      - destruct (has_pair _ _); [|discriminate].
        apply call_all_trace in E. unfold delivered. simpl.
        now rewrite app_nil_r.
      - destruct (has_key _ _); [|discriminate].
        unfold call in E. destruct (fails _); [discriminate|].
        inversion E. reflexivity. }
    rewrite <- app_assoc. f_equal. unfold delivered. simpl.
    now rewrite app_nil_r.
Qed.

(** X6.  The calls of a bundle that completes are, in this order: the
    output streams of the data outputs are set; every operation is
    started (last of [self.ops] first); the timer output streams are
    opened; the delivered data and timers are processed in the order of
    their arrival; every operation is finished (first of [self.ops]
    first); the timer output streams are closed.  No element is processed
    before all operations have been started or after one has been
    finished. *)
Theorem process_bundle_calls_in_order :
  forall (self : BundleProcessor) (i : string) es self' trace,
    process_bundle fails self i es = (self', Returned trace) ->
    trace = complete_trace self i es.
Proof.
  intros self i es self' trace H. apply process_bundle_returned in H.
  destruct H as (_ & tr0 & E0 & Hb).
  apply call_all_trace in E0. simpl in E0.
  unfold process_bundle_body, bind in Hb. simpl ops in Hb.
  simpl has_timer_data_channel in Hb. simpl timers_info in Hb.
  destruct (call_all fails (map _ (rev (ops self))) tr0) as [tr1|] eqn:E1;
    [|discriminate].
  apply call_all_trace in E1.
  match type of Hb with
  | match ?x with _ => _ end = _ => destruct x as [tr2|] eqn:E2; [|discriminate]
  end.
  destruct (dispatch_all fails _ es _) as [tr3|] eqn:E3; [|discriminate].
  apply dispatch_all_delivered in E3.
  destruct (call_all fails (map _ (ops self)) _) as [tr4|] eqn:E4; [|discriminate].
  apply call_all_trace in E4. apply closing_trace in Hb.
  unfold complete_trace.
  destruct (has_timer_data_channel self).
  - apply call_all_trace in E2. subst. now rewrite <- !app_assoc.
  - inversion E2. subst. now rewrite <- !app_assoc.
Qed.

End Calls.
End BundleLifecycle.

(** ** Split requests on the processor *)

Module ProcessorSplitFacts.
Import PyFloat DataInput ProcessorSplit SplitSafety.

Section Response.
Variables P R : Type.

Lemma split_or_kept_more (r r' : SplitResponse P R) before after :
  (forall cs, In cs (channel_splits P R r) -> In cs (channel_splits P R r')) ->
  split_or_kept P R r before after -> split_or_kept P R r' before after.
Proof.
  intros Hsub (H1 & H2 & H3 & H4). repeat split; auto.
  destruct H4 as [H4|(cs & Hcs & H5)]; [now left|].
  right. exists cs. split; auto.
Qed.

Lemma split_inputs_spec inputs : forall desired receivers r0 inputs' r,
  split_inputs P R inputs desired receivers r0 = (inputs', Returned r) ->
  (exists new, channel_splits P R r = channel_splits P R r0 ++ new
               /\ Forall (fun cs =>
                            last_primary_element cs < first_residual_element cs
                            <= last_primary_element cs + 2
                            /\ exists o', In (cs_transform_id cs, o') inputs'
                                          /\ stop o' = Fin (first_residual_element cs))
                         new)
  /\ Forall2 (split_or_kept P R r) inputs inputs'.
Proof.
  induction inputs as [|[tid o] rest IH]; intros desired receivers r0 inputs' r H.
  - simpl in H. inversion H; subst. split; [|constructor].
    exists []. rewrite app_nil_r. split; [reflexivity|constructor].
  - cbn [split_inputs] in H.
    destruct (desired_get desired tid) as [ds|].
    + set (rq := {| fraction_of_remainder := ds_fraction_of_remainder ds;
                    total_buffer_size := ds_estimated_input_elements ds;
                    allowed_split_points := ds_allowed_split_points ds;
                    current_element_progress_object := fst (receivers tid);
                    receiver_try_split := snd (receivers tid) |}) in H.
      pose proof (try_split_cases P R o rq) as C.
      destruct (DataInput.try_split o rq) as [o' [[[[[a ps] rs] b]|]|e]].
      * destruct (split_inputs P R rest desired receivers _) as [rest' r1] eqn:E.
        inversion H; subst. destruct (IH _ _ _ _ _ E) as [(new & Hnew & Hall) HF].
        destruct C as (-> & Hlt & Hc). simpl in Hnew.
        split.
        -- exists ({| cs_transform_id := tid; last_primary_element := a;
                      first_residual_element := b |} :: new).
           rewrite Hnew, <- app_assoc. split; [reflexivity|].
           constructor.
           ++ simpl. split; [destruct Hc as [[-> ->]|(-> & _)]; lia|].
              exists (set_stop o b). split; [now left|reflexivity].
           ++ eapply Forall_impl; [|exact Hall]. simpl.
              intros cs (Hcs & o' & Ho' & Hs). split; [exact Hcs|].
              exists o'. split; [now right|exact Hs].
        -- constructor; [|exact HF].
           repeat split; simpl; auto. right.
           exists {| cs_transform_id := tid; last_primary_element := a;
                     first_residual_element := b |}.
           rewrite Hnew. repeat split; auto.
           apply in_or_app. left. apply in_or_app. right. now left.
      * destruct (split_inputs P R rest desired receivers r0) as [rest' r1] eqn:E.
        inversion H; subst. destruct (IH _ _ _ _ _ E) as [(new & Hnew & Hall) HF].
        split.
        -- exists new. split; [exact Hnew|].
           eapply Forall_impl; [|exact Hall]. simpl.
           intros cs (Hcs & o'' & Ho' & Hs). split; [exact Hcs|].
           exists o''. split; [now right|exact Hs].
        -- constructor; [|exact HF]. repeat split; auto.
      * inversion H.
    + destruct (split_inputs P R rest desired receivers r0) as [rest' r1] eqn:E.
      inversion H; subst. destruct (IH _ _ _ _ _ E) as [(new & Hnew & Hall) HF].
      split.
      * exists new. split; [exact Hnew|].
        eapply Forall_impl; [|exact Hall]. simpl.
        intros cs (Hcs & o'' & Ho' & Hs). split; [exact Hcs|].
        exists o''. split; [now right|exact Hs].
      * constructor; [|exact HF]. repeat split; auto.
Qed.

(** X8.  A split request that names another instruction than the current
    one (or arrives when none is current) returns the empty response and
    changes no operation.  Otherwise, when the call returns: every data
    input either keeps its stop or has it set to the first residual
    element that the response reports for its transform, which lies above
    its index; index and started flag never change; and every channel
    split reported has [last_primary < first_residual <= last_primary + 2]
    and is the stop of the operation it names. *)
Theorem processor_try_split_reports_the_new_stops :
  forall (self : Bundle.BundleProcessor) inputs request_id desired
         (receivers : receiver_answers P R) inputs' response,
    try_split P R self inputs request_id desired receivers
    = (inputs', Returned response) ->
    (Bundle.current_instruction_id self <> Some request_id ->
     inputs' = inputs /\ response = empty_response P R)
    /\ Forall2 (split_or_kept P R response) inputs inputs'
    /\ Forall (fun cs =>
                 last_primary_element cs < first_residual_element cs
                 <= last_primary_element cs + 2
                 /\ exists o', In (cs_transform_id cs, o') inputs'
                               /\ stop o' = Fin (first_residual_element cs))
              (channel_splits P R response).
Proof.
  intros self inputs request_id desired receivers inputs' response H.
  assert (Hkept : Forall2 (split_or_kept P R (empty_response P R)) inputs inputs).
  { clear. induction inputs; constructor; auto. repeat split; auto. }
  unfold try_split in H.
  destruct (Bundle.current_instruction_id self) as [cur|] eqn:Ec.
  - destruct (String.eqb request_id cur) eqn:Eq.
    + apply String.eqb_eq in Eq. subst cur.
      destruct (split_inputs_spec _ _ _ _ _ _ H) as [(new & Hnew & Hall) HF].
      split; [congruence|]. split; [exact HF|].
      simpl in Hnew. now rewrite Hnew.
    + inversion H; subst. split; [auto|]. split; [exact Hkept|constructor].
  - inversion H; subst. split; [auto|]. split; [exact Hkept|constructor].
Qed.

(** X7.  Once [process_bundle] is over on a processor that was idle,
    whether the bundle completed, raised half-way or could not even set
    its output streams, no instruction is current: every later split
    request, whatever instruction it names (the one just run included),
    gets the empty response and changes no operation. *)
Theorem split_after_the_bundle_is_stale :
  forall fails (self : Bundle.BundleProcessor) (i : string) es,
    Bundle.current_instruction_id self = None ->
    let self' := fst (Bundle.process_bundle fails self i es) in
    Bundle.current_instruction_id self' = None
    /\ forall inputs request_id desired (receivers : receiver_answers P R),
         try_split P R self' inputs request_id desired receivers
         = (inputs, Returned (empty_response P R)).
Proof.
  intros fails self i es Hidle self'.
  assert (H : Bundle.current_instruction_id self' = None).
  { unfold self', Bundle.process_bundle.
    destruct (Bundle.call_all fails _ []); [|exact Hidle].
    destruct (Bundle.state_sampler_start _); reflexivity. }
  split; [exact H|]. intros. unfold try_split. now rewrite H.
Qed.

End Response.
End ProcessorSplitFacts.

(** ** The stored ranges depend only on the points added *)

Module RangeSetCanonical.
Import Sorted_seq RangeSet RangeSetFacts.

Lemma separated_not_covered_at_end a b l :
  separated ((a, b) :: l) -> ~ covered ((a, b) :: l) b.
Proof.
  intros H C. apply separated_cons in H. destruct H as (Hab & _ & Hap).
  apply covered_cons in C. destruct C as [C|(r & Hr & Hp)].
  - simpl in C. lia.
  - specialize (Hap r Hr). unfold apart in Hap. simpl in Hap. lia.
Qed.

Lemma separated_covered_head a b l p :
  separated ((a, b) :: l) -> covered ((a, b) :: l) p -> a <= p.
Proof.
  intros H (r & Hr & Hp).
  pose proof (separated_hd_min _ _ H r Hr) as Hmin. simpl in Hmin. lia.
Qed.

(** Separated ranges that cover the same points are the same list. *)
Lemma separated_unique : forall l1 l2,
  separated l1 -> separated l2 ->
  (forall p, covered l1 p <-> covered l2 p) -> l1 = l2.
Proof.
  induction l1 as [|[a1 b1] l1 IH]; intros [|[a2 b2] l2] H1 H2 Hc.
  - reflexivity.
  - exfalso. apply separated_cons in H2. destruct H2 as (Hab & _).
    simpl in Hab.
    assert (C : covered [] a2).
    { apply Hc. exists (a2, b2). split; [now left|simpl; lia]. }
    destruct C as (r & [] & _).
  - exfalso. apply separated_cons in H1. destruct H1 as (Hab & _).
    simpl in Hab.
    assert (C : covered [] a1).
    { apply Hc. exists (a1, b1). split; [now left|simpl; lia]. }
    destruct C as (r & [] & _).
  - pose proof H1 as H1'. pose proof H2 as H2'.
    apply separated_cons in H1'. destruct H1' as (Hab1 & Hs1 & Hap1).
    apply separated_cons in H2'. destruct H2' as (Hab2 & Hs2 & Hap2).
    simpl in Hab1, Hab2.
    assert (Ca1 : covered ((a1, b1) :: l1) a1)
      by (exists (a1, b1); split; [now left|simpl; lia]).
    assert (Ca2 : covered ((a2, b2) :: l2) a2)
      by (exists (a2, b2); split; [now left|simpl; lia]).
    assert (Ea : a1 = a2).
    { pose proof (separated_covered_head _ _ _ _ H2 (proj1 (Hc a1) Ca1)).
      pose proof (separated_covered_head _ _ _ _ H1 (proj2 (Hc a2) Ca2)). lia. }
    subst a2.
    assert (Eb : b1 = b2).
    { destruct (Z.lt_trichotomy b1 b2) as [Hlt|[Heq|Hgt]]; [|exact Heq|]; exfalso.
      - apply (separated_not_covered_at_end _ _ _ H1). apply Hc.
        exists (a1, b2). split; [now left|simpl; lia].
      - apply (separated_not_covered_at_end _ _ _ H2). apply Hc.
        exists (a1, b1). split; [now left|simpl; lia]. }
    subst b2. f_equal. apply IH; [exact Hs1|exact Hs2|].
    intro p. split; intros (r & Hr & Hp).
    + assert (C : covered ((a1, b1) :: l2) p).
      { apply Hc. exists r. split; [now right|exact Hp]. }
      apply covered_cons in C. destruct C as [C|C]; [|exact C].
      specialize (Hap1 r Hr). unfold apart in Hap1. simpl in *. lia.
    + assert (C : covered ((a1, b1) :: l1) p).
      { apply Hc. exists r. split; [now right|exact Hp]. }
      apply covered_cons in C. destruct C as [C|C]; [|exact C].
      specialize (Hap2 r Hr). unfold apart in Hap2. simpl in *. lia.
Qed.

(** X9.  What a RangeSet stores depends only on the points that were
    added, not on how they were added: two sequences of [add] calls on
    fresh sets that cover the same points leave identical start and end
    lists.  In particular the order of the calls does not matter, adding
    a range twice changes nothing, and adding a range piece by piece
    gives the same set as adding it whole. *)
Theorem range_set_is_canonical :
  forall calls1 calls2 : list (Z * Z),
    (forall p, covered calls1 p <-> covered calls2 p) ->
    add_all calls1 = add_all calls2.
Proof.
  intros calls1 calls2 Hc.
  assert (Hnil : separated []) by (split; constructor).
  destruct (add_all_from calls1 [] Hnil) as (l1 & E1 & Hs1 & Hc1).
  destruct (add_all_from calls2 [] Hnil) as (l2 & E2 & Hs2 & Hc2).
  change (of_pairs []) with empty in E1, E2.
  unfold add_all. rewrite E1, E2. f_equal.
  apply separated_unique; [exact Hs1|exact Hs2|].
  intro p. rewrite Hc1, Hc2.
  assert (Hn : ~ covered [] p) by (intros (r & [] & _)).
  specialize (Hc p). tauto.
Qed.

End RangeSetCanonical.

(** ** What commit leaves in the state service *)

Module ServiceFacts.
Import StateHandler KeyedState Service.

Section Service.
Variables K V S : Type.
Variable blocking_get : S -> list V.
Variable do_clear : S -> S.
Variable do_extend : S -> list V -> S.

Lemma remote_after (s0 : S) (h h' : StateHandler.t K V) rs :
  requests h' = requests h ++ rs ->
  remote K V S blocking_get do_clear do_extend s0 h'
  = blocking_get (fold_left (perform K V S do_clear do_extend) rs
                            (replay K V S do_clear do_extend s0 h)).
Proof.
  intro E. unfold remote, replay. now rewrite E, fold_left_app.
Qed.

(** What the service holds after the requests of a commit. *)
Lemma remote_after_commit (s0 : S) key cleared added (h : StateHandler.t K V) :
  serves_a_bag V S blocking_get do_clear do_extend ->
  remote K V S blocking_get do_clear do_extend s0
         (commit_cleared_added K V key cleared added h)
  = (if cleared then []
     else remote K V S blocking_get do_clear do_extend s0 h) ++ added.
Proof.
  intros [Hclear Hextend].
  destruct (CommitFacts.commit_cleared_added_spec K V key cleared added h)
    as [E _].
  rewrite (remote_after s0 h _ _ E). unfold clear_then_append, remote.
  destruct cleared, added as [|v added]; simpl;
    rewrite ?Hextend, ?Hclear, ?app_nil_r; reflexivity.
Qed.

(** X10.  Against a service on which a clear empties the key and an
    append adds at the end, [commit] of a bag leaves in the service
    exactly what [read] showed before the commit: the values that were
    there (none of them after a [clear]) followed by the values added, in
    the order in which they were added. *)
Theorem bag_commit_persists_what_read_showed :
  serves_a_bag V S blocking_get do_clear do_extend ->
  forall (s0 : S) (bag : Bag K V) (h : StateHandler.t K V),
    remote K V S blocking_get do_clear do_extend s0 (bag_commit K V bag h)
    = bag_read K V (remote K V S blocking_get do_clear do_extend s0 h) bag.
Proof.
  intros Hbag s0 bag h. unfold bag_commit, bag_read.
  now apply remote_after_commit.
Qed.

End Service.
End ServiceFacts.

(** ** ReadModifyWriteRuntimeState *)

Module ReadModifyWriteFacts.
Import StateHandler KeyedState Service ReadModifyWrite.

Section Value.
Variables K V S : Type.
Variable blocking_get : S -> list V.
Variable do_clear : S -> S.
Variable do_extend : S -> list V -> S.

Lemma step_shape (bag : Bag K V) (c : call V) :
  bag_cleared K V (step K V bag c) = true
  /\ bag_added_elements K V (step K V bag c) = as_list V (last_written V c).
Proof. destruct c; simpl; auto. Qed.

(** X11.  The value of a read-modify-write state is the one of the last
    call: after any calls that end with [write(v)], [read] returns [v],
    and after any calls that end with [clear], [read] returns [None],
    whatever the service holds.  [commit] then leaves in the service
    that one value, or nothing. *)
Theorem read_modify_write_last_call_wins :
  serves_a_bag V S blocking_get do_clear do_extend ->
  forall (s0 : S) (h : StateHandler.t K V) (bag : Bag K V)
         (calls : list (call V)) (c : call V),
    let bag' := run K V (calls ++ [c]) bag in
    (forall held : list V, read K V held bag' = last_written V c)
    /\ remote K V S blocking_get do_clear do_extend s0 (commit K V bag' h)
       = as_list V (last_written V c).
Proof.
  intros Hbag s0 h bag calls c bag'.
  assert (E : bag' = step K V (run K V calls bag) c).
  { unfold bag', run. now rewrite fold_left_app. }
  destruct (step_shape (run K V calls bag) c) as [Hc Ha].
  rewrite <- E in Hc, Ha. split.
  - intro held. unfold read, bag_read. rewrite Hc, Ha.
    destruct c; reflexivity.
  - unfold commit.
    unfold bag_commit.
    rewrite (ServiceFacts.remote_after_commit
               K V S blocking_get do_clear do_extend s0 _ _ _ h Hbag).
    now rewrite Hc, Ha.
Qed.

End Value.
End ReadModifyWriteFacts.

(** ** SynchronousSetRuntimeState *)

Module SetRuntimeFacts.
Import StateHandler KeyedState Service SetRuntime.

Section SetRuntime.
Variables K V S : Type.
Variable V_eq_dec : forall x y : V, {x = y} + {x <> y}.
Variable blocking_get : S -> list V.
Variable do_clear : S -> S.
Variable do_extend : S -> list V -> S.
Variable s0 : S.
Hypothesis Hbag : serves_a_bag V S blocking_get do_clear do_extend.

Lemma read_held self h x :
  In x (SetRuntime.read K V S V_eq_dec blocking_get do_clear do_extend s0 self h) <-> In x (SetRuntime.held K V S blocking_get do_clear do_extend s0 self h).
Proof. unfold read, _compact_data, held. simpl. apply nodup_In. Qed.

Lemma set_insert_In value elements x :
  In x (set_insert V V_eq_dec value elements) <-> x = value \/ In x elements.
Proof.
  unfold set_insert. destruct (in_dec V_eq_dec value elements) as [H|H].
  - split; [auto|]. intros [->|Hx]; auto.
  - rewrite in_app_iff. simpl. split; intros [Hx|Hx]; auto.
    destruct Hx as [<-|[]]. now left.
Qed.

Lemma remote_clear (h : handler K V) key :
  SetRuntime.remote K V S blocking_get do_clear do_extend s0 (fst (clear h key)) = [].
Proof.
  destruct Hbag as [Hclear _]. unfold SetRuntime.remote.
  rewrite (ServiceFacts.remote_after K V S blocking_get do_clear do_extend
             s0 h (fst (clear h key)) [Clear key] eq_refl).
  simpl. apply Hclear.
Qed.

Lemma remote_extend (h : handler K V) key elements :
  SetRuntime.remote K V S blocking_get do_clear do_extend s0 (fst (extend h key elements)) = SetRuntime.remote K V S blocking_get do_clear do_extend s0 h ++ elements.
Proof.
  destruct Hbag as [_ Hextend]. unfold SetRuntime.remote.
  rewrite (ServiceFacts.remote_after K V S blocking_get do_clear do_extend
             s0 h (fst (extend h key elements)) [Extend key elements] eq_refl).
  simpl. apply Hextend.
Qed.

Lemma add_In self h value coin x :
  In x (SetRuntime.read K V S V_eq_dec blocking_get do_clear do_extend s0 (fst (SetRuntime.add K V S V_eq_dec blocking_get do_clear do_extend s0 self h value coin)) (snd (SetRuntime.add K V S V_eq_dec blocking_get do_clear do_extend s0 self h value coin)))
  <-> x = value \/ In x (SetRuntime.read K V S V_eq_dec blocking_get do_clear do_extend s0 self h).
Proof.
  rewrite !read_held. unfold SetRuntime.add.
  set (w1 := if set_cleared K V self
             then ({| set_state_key := set_state_key K V self;
                      set_cleared := false;
                      set_added_elements := set_added_elements K V self |},
                   fst (clear h (set_state_key K V self)))
             else (self, h)).
  assert (E1 : SetRuntime.held K V S blocking_get do_clear do_extend s0 (fst w1) (snd w1) = SetRuntime.held K V S blocking_get do_clear do_extend s0 self h
               /\ set_cleared K V (fst w1) = false
               /\ set_added_elements K V (fst w1) = set_added_elements K V self).
  { unfold w1, held. destruct (set_cleared K V self) eqn:Ec.
    - cbn [fst snd set_cleared set_added_elements].
      rewrite remote_clear. auto.
    - cbn [fst snd]. rewrite Ec. auto. }
  destruct w1 as [self1 h1]. cbn [fst snd] in E1. destruct E1 as (E1 & Ec1 & Ea1).
  set (self2 := {| set_state_key := set_state_key K V self1;
                   set_cleared := set_cleared K V self1;
                   set_added_elements :=
                     set_insert V V_eq_dec value (set_added_elements K V self1) |}).
  assert (E2 : forall y, In y (SetRuntime.held K V S blocking_get do_clear do_extend s0 self2 h1) <-> y = value \/ In y (SetRuntime.held K V S blocking_get do_clear do_extend s0 self h)).
  { intro y. rewrite <- E1. unfold held, self2.
    cbn [set_cleared set_added_elements].
    rewrite !in_app_iff, set_insert_In. tauto. }
  destruct coin; [|cbn [fst snd]; apply E2].
  unfold _compact_data. fold (SetRuntime.held K V S blocking_get do_clear do_extend s0 self2 h1).
  destruct (nodup V_eq_dec (SetRuntime.held K V S blocking_get do_clear do_extend s0 self2 h1)) as [|a acc] eqn:Eacc;
    [cbn [fst snd]; apply E2|].
  destruct (clear h1 (set_state_key K V self2)) as [h2 f2] eqn:I2.
  destruct (extend h2 (set_state_key K V self2) (a :: acc)) as [h3 f3] eqn:I3.
  cbn [fst snd]. unfold held at 1. cbn [set_cleared set_added_elements].
  unfold self2 at 1. cbn [set_cleared]. rewrite Ec1, app_nil_r.
  assert (R3 : SetRuntime.remote K V S blocking_get do_clear do_extend s0 h3 = a :: acc).
  { replace h3 with (fst (extend h2 (set_state_key K V self2) (a :: acc)))
      by now rewrite I3.
    rewrite remote_extend.
    replace h2 with (fst (clear h1 (set_state_key K V self2)))
      by now rewrite I2.
    now rewrite remote_clear. }
  rewrite R3, <- Eacc, nodup_In. apply E2.
Qed.

Lemma members_after_ext calls : forall m1 m2 : list V,
  (forall x, In x m1 <-> In x m2) ->
  forall x, In x (members_after V calls m1) <-> In x (members_after V calls m2).
Proof.
  induction calls as [|c calls IH]; intros m1 m2 H x; simpl; [apply H|].
  apply IH. destruct c as [value coin|]; [|tauto].
  intro y. simpl. rewrite H. tauto.
Qed.

(** X12.  The members a set state shows do not depend on the random
    compactions of [add]: after any calls of [add] and [clear], with any
    outcomes of the coin, [read] holds exactly the members that the calls
    leave of the members it held before (an [add] puts its value in, a
    [clear] empties the set), each once.  [commit] then leaves exactly
    these members in the service. *)
Theorem set_members_do_not_depend_on_compaction :
  forall (calls : list (call V)) (self : SetState K V) (h : handler K V),
    let w := SetRuntime.run K V S V_eq_dec blocking_get do_clear do_extend s0 calls (self, h) in
    (forall x, In x (SetRuntime.read K V S V_eq_dec blocking_get do_clear do_extend s0 (fst w) (snd w))
               <-> In x (members_after V calls (SetRuntime.read K V S V_eq_dec blocking_get do_clear do_extend s0 self h)))
    /\ NoDup (SetRuntime.read K V S V_eq_dec blocking_get do_clear do_extend s0 (fst w) (snd w))
    /\ (forall x, In x (SetRuntime.remote K V S blocking_get do_clear do_extend s0 (set_commit K V (fst w) (snd w)))
                  <-> In x (SetRuntime.read K V S V_eq_dec blocking_get do_clear do_extend s0 (fst w) (snd w))).
Proof.
  intros calls self h w. split; [|split].
  - unfold w. clear w. revert self h.
    induction calls as [|c calls IH]; intros self h x; [simpl; tauto|].
    unfold SetRuntime.run. cbn [fold_left].
    fold (SetRuntime.run K V S V_eq_dec blocking_get do_clear do_extend s0 calls (SetRuntime.step K V S V_eq_dec blocking_get do_clear do_extend s0 (self, h) c)).
    destruct (SetRuntime.step K V S V_eq_dec blocking_get do_clear do_extend s0 (self, h) c) as [self1 h1] eqn:E.
    rewrite IH. cbn [members_after fold_left].
    fold (members_after V calls). apply members_after_ext.
    intro y. destruct c as [value coin|]; cbn [step fst snd] in E.
    + replace self1 with (fst (SetRuntime.add K V S V_eq_dec blocking_get do_clear do_extend s0 self h value coin)) by now rewrite E.
      replace h1 with (snd (SetRuntime.add K V S V_eq_dec blocking_get do_clear do_extend s0 self h value coin)) by now rewrite E.
      rewrite add_In. simpl. split; intros [Hy|Hy]; auto.
    + inversion E; subst. rewrite read_held. unfold held. simpl. tauto.
  - unfold SetRuntime.read, _compact_data. simpl. apply NoDup_nodup.
  - intro x. rewrite read_held. unfold held, set_commit, SetRuntime.remote.
    rewrite (ServiceFacts.remote_after_commit
               K V S blocking_get do_clear do_extend s0 _ _ _ _ Hbag).
    tauto.
Qed.

End SetRuntime.
End SetRuntimeFacts.

(** ** Reading an ordered list *)

Module OrderedReadFacts.
Import KeyedState RangeSet RangeSetFacts OrderedRead.

Lemma filter_perm {A} (f : A -> bool) l l' :
  Permutation l l' -> Permutation (filter f l) (filter f l').
Proof.
  induction 1 as [|x l l' H IH|x y l|l l' l'' H1 IH1 H2 IH2]; simpl.
  - constructor.
  - destruct (f x); [now constructor|exact IH].
  - destruct (f x), (f y); try reflexivity. apply perm_swap.
  - now transitivity (filter f l').
Qed.


Lemma filter_filter {A} (f g : A -> bool) l :
  filter f (filter g l) = filter (fun x => g x && f x) l.
Proof.
  induction l as [|x l IH]; simpl; [reflexivity|].
  destruct (g x); simpl; [destruct (f x)|]; now rewrite IH.
Qed.

Lemma StronglySorted_keys_filter {A} (R : Z -> Z -> Prop) (f : Z * A -> bool) l :
  StronglySorted R (map fst l) -> StronglySorted R (map fst (filter f l)).
Proof.
  induction l as [|x l IH]; simpl; intro H; [constructor|].
  inversion H as [|? ? Hs Hall]; subst. destruct (f x); simpl; [|auto].
  constructor; [auto|]. rewrite Forall_forall in *. intros k Hk.
  apply Hall. apply in_map_iff in Hk. destruct Hk as (y & <- & Hy).
  apply filter_In in Hy. apply in_map, Hy.
Qed.

Section Pending.
Variables K V : Type.

Lemma items_to_add_filter (f : Z -> bool) (d : list (Z * list V)) :
  items_to_add V (filter (fun kv => f (fst kv)) d)
  = filter (fun kv => f (fst kv)) (items_to_add V d).
Proof.
  unfold items_to_add.
  induction d as [|[k vs] d IH]; simpl; [reflexivity|].
  rewrite filter_app, <- IH.
  assert (E : filter (fun kv : Z * V => f (fst kv)) (map (fun v => (k, v)) vs)
              = if f k then map (fun v => (k, v)) vs else []).
  { induction vs as [|v vs IHv]; simpl; [now destruct (f k)|].
    rewrite IHv. now destruct (f k). }
  rewrite E. destruct (f k); reflexivity.
Qed.

Lemma items_to_add_append key value (d : list (Z * list V)) :
  Permutation (items_to_add V (sorted_dict_append V key value d))
              (items_to_add V d ++ [(key, value)]).
Proof.
  unfold items_to_add.
  induction d as [|[k vs] d IH]; simpl; [reflexivity|].
  destruct (key <? k) eqn:E1; [|destruct (key =? k) eqn:E2]; simpl.
  - apply (Permutation_cons_append _ (key, value)).
  - apply Z.eqb_eq in E2. subst k.
    rewrite map_app. simpl. rewrite <- !app_assoc. apply Permutation_app_head.
    simpl. apply (Permutation_cons_append _ (key, value)).
  - rewrite <- app_assoc. now apply Permutation_app_head.
Qed.

Lemma sorted_dict_append_keys key value (d : list (Z * list V)) k :
  In k (map fst (sorted_dict_append V key value d)) ->
  k = key \/ In k (map fst d).
Proof.
  induction d as [|[k0 vs] d IH]; simpl.
  - intros [<-|[]]. now left.
  - destruct (key <? k0); [|destruct (key =? k0)]; simpl.
    + intros [<-|H]; auto.
    + tauto.
    + intros [<-|H]; auto. destruct (IH H); auto.
Qed.

Lemma sorted_dict_append_sorted key value (d : list (Z * list V)) :
  StronglySorted Z.lt (map fst d) ->
  StronglySorted Z.lt (map fst (sorted_dict_append V key value d)).
Proof.
  induction d as [|[k0 vs] d IH]; simpl; intro H.
  - constructor; constructor.
  - inversion H as [|? ? Hs Hall]; subst.
    destruct (key <? k0) eqn:E1; [|destruct (key =? k0) eqn:E2]; simpl.
    + constructor; [exact H|]. constructor; [lia|].
      eapply Forall_impl; [|exact Hall]. simpl. intros; lia.
    + exact H.
    + constructor; [now apply IH|]. rewrite Forall_forall in *.
      intros k Hk. apply sorted_dict_append_keys in Hk.
      destruct Hk as [->|Hk]; [lia|now apply Hall].
Qed.

Lemma items_to_add_ascending (d : list (Z * list V)) :
  StronglySorted Z.lt (map fst d) -> keys_ascending V (items_to_add V d).
Proof.
  unfold keys_ascending, items_to_add.
  induction d as [|[k vs] d IH]; simpl; intro H; [constructor|].
  inversion H as [|? ? Hs Hall]; subst. specialize (IH Hs).
  rewrite map_app, map_map. simpl.
  assert (Hlater : Forall (fun k' => k <= k')
                     (map fst (flat_map (fun kv : Z * list V =>
                                           map (fun v => (fst kv, v)) (snd kv)) d))).
  { rewrite Forall_forall in *. intros k' Hk'.
    apply in_map_iff in Hk'. destruct Hk' as ([k1 v1] & <- & Hin).
    apply in_flat_map in Hin. destruct Hin as ([k2 vs2] & Hd & Hv).
    apply in_map_iff in Hv. destruct Hv as (v & Ev & _).
    inversion Ev; subst. simpl.
    specialize (Hall k1 (in_map fst _ _ Hd)). simpl in Hall. lia. }
  induction vs as [|v vs IHv]; simpl; [exact IH|].
  constructor; [exact IHv|].
  apply Forall_app. split; [|exact Hlater].
  rewrite Forall_forall. intros k' Hk'. apply in_map_iff in Hk'.
  destruct Hk' as (v' & <- & _). lia.
Qed.

(** What one more pending removal hides. *)
Lemma contains_after_add l a b :
  separated l ->
  exists l', add (of_pairs l) a b = of_pairs l'
             /\ separated l'
             /\ forall k, contains (of_pairs l') k
                          = contains (of_pairs l) k || in_range a b k.
Proof.
  intro Hsep. destruct (add_separated a b l Hsep) as (l' & E & Hsep' & Hcov).
  exists l'. split; [exact E|]. split; [exact Hsep'|]. intro k.
  apply Bool.eq_true_iff_eq.
  rewrite Bool.orb_true_iff, (contains_covered l' k Hsep'),
    (contains_covered l k Hsep), Hcov.
  unfold in_range. rewrite Bool.andb_true_iff, Z.leb_le, Z.ltb_lt. tauto.
Qed.

Lemma fresh_well_kept key : well_kept K V (fresh K V key).
Proof.
  split; [|constructor]. exists []. split; [split; constructor|reflexivity].
Qed.

Lemma fresh_visible key stored : visible K V stored (fresh K V key) = stored.
Proof.
  unfold visible, fresh. simpl. rewrite app_nil_r.
  induction stored as [|x stored IH]; simpl; [reflexivity|].
  now rewrite IH.
Qed.

(** Every call keeps the state object well kept, and lets through what
    the call leaves of the items. *)
Lemma perform_visible stored actions : forall self items self',
  well_kept K V self ->
  Permutation items (visible K V stored self) ->
  perform K V actions self = Returned self' ->
  well_kept K V self'
  /\ Permutation (items_after V actions items) (visible K V stored self').
Proof.
  induction actions as [|a actions IH]; intros self items self' Hk Hp Hrun.
  - simpl in Hrun. inversion Hrun; subst. auto.
  - destruct Hk as [(l & Hsep & El) Hadds].
    destruct a as [key value|min_key limit_key|]; cbn [perform] in Hrun.
    + unfold bind, ol_add in Hrun.
      destruct ((key >=? RANGE_MAX) || (key <? RANGE_MIN)); [discriminate|].
      apply IH with (items := items ++ [(key, value)]) in Hrun; [exact Hrun| |].
      * split; [exists l; auto|]. simpl. now apply sorted_dict_append_sorted.
      * unfold visible. simpl.
        rewrite (items_to_add_append key value), app_assoc.
        now apply Permutation_app_tail.
    + apply IH with
        (items := filter (fun kv => negb (in_range min_key limit_key (fst kv)))
                         items) in Hrun; [exact Hrun| |].
      * split; [|simpl; now apply StronglySorted_keys_filter].
        simpl. destruct (ol_cleared K V self); [exists l; auto|].
        rewrite El.
        destruct (contains_after_add l min_key limit_key Hsep)
          as (l' & E' & Hsep' & _).
        exists l'. auto.
      * apply (filter_perm (fun kv => negb (in_range min_key limit_key (fst kv))))
          in Hp.
        rewrite Hp. unfold visible. simpl.
        rewrite filter_app.
        rewrite (items_to_add_filter
                   (fun k => negb (in_range min_key limit_key k))).
        unfold in_range.
        apply Permutation_app_tail.
        destruct (ol_cleared K V self); [reflexivity|].
        rewrite El.
        destruct (contains_after_add l min_key limit_key Hsep)
          as (l' & E' & Hsep' & Hc).
        rewrite E', filter_filter.
        erewrite filter_ext; [reflexivity|].
        intro kv. simpl. rewrite Hc. unfold in_range.
        now rewrite Bool.negb_orb.
    + apply IH with (items := []) in Hrun; [exact Hrun| |].
      * split; [|constructor]. simpl.
        destruct (add_separated RANGE_MIN RANGE_MAX []) as (l' & E' & Hsep' & _);
          [split; constructor|].
        exists l'. split; [exact Hsep'|exact E'].
      * reflexivity.
Qed.

End Pending.

Section OrderedRead.
Variables K V : Type.
Variable V_eqb : V -> V -> bool.
Variable V_ltb : V -> V -> option bool.

Lemma heapq_merge_cons x l1 b y l2 :
  heapq_merge V V_eqb V_ltb (x :: l1) b (y :: l2)
  = match first_is_root V V_eqb V_ltb b x y with
    | None => ([], Raised TypeError)
    | Some true =>
        (x :: fst (heapq_merge V V_eqb V_ltb l1 false (y :: l2)),
         snd (heapq_merge V V_eqb V_ltb l1 false (y :: l2)))
    | Some false =>
        (y :: fst (heapq_merge V V_eqb V_ltb (x :: l1) true l2),
         snd (heapq_merge V V_eqb V_ltb (x :: l1) true l2))
    end.
Proof.
  cbn [heapq_merge]. destruct (first_is_root V V_eqb V_ltb b x y) as [[|]|].
  - destruct (heapq_merge V V_eqb V_ltb l1 false (y :: l2)) as [yl e].
    reflexivity.
  - match goal with
    | |- (let '(_, _) := ?t in _) = _ =>
        change t with (heapq_merge V V_eqb V_ltb (x :: l1) true l2);
        destruct (heapq_merge V V_eqb V_ltb (x :: l1) true l2) as [yl e]
    end.
    reflexivity.
  - reflexivity.
Qed.

Lemma heapq_merge_nil_l b l2 :
  heapq_merge V V_eqb V_ltb [] b l2 = (l2, Returned tt).
Proof. destruct l2; reflexivity. Qed.

Lemma heapq_merge_nil_r l1 b :
  heapq_merge V V_eqb V_ltb l1 b [] = (l1, Returned tt).
Proof. destruct l1; reflexivity. Qed.

(** [heapq.merge] neither repeats nor invents an item; iterated to its
    end, it has dropped none; and it raises nothing but [TypeError]. *)
Lemma heapq_merge_perm l1 : forall b l2,
  exists rest,
    Permutation (fst (heapq_merge V V_eqb V_ltb l1 b l2) ++ rest) (l1 ++ l2)
    /\ (snd (heapq_merge V V_eqb V_ltb l1 b l2) = Returned tt -> rest = [])
    /\ (forall e, snd (heapq_merge V V_eqb V_ltb l1 b l2) = Raised e ->
                  e = TypeError).
Proof.
  induction l1 as [|x l1 IH1]; intros b l2.
  - rewrite heapq_merge_nil_l. exists []. simpl. rewrite app_nil_r.
    split; [reflexivity|]. split; [auto|discriminate].
  - revert b. induction l2 as [|y l2 IH2]; intro b.
    + rewrite heapq_merge_nil_r. exists []. simpl. rewrite !app_nil_r.
      split; [reflexivity|]. split; [auto|discriminate].
    + rewrite heapq_merge_cons.
      destruct (first_is_root V V_eqb V_ltb b x y) as [[|]|].
      * destruct (IH1 false (y :: l2)) as (rest & Hp & Hr & He).
        exists rest. cbn [fst snd]. split; [|split; assumption].
        simpl. now constructor.
      * destruct (IH2 true) as (rest & Hp & Hr & He).
        exists rest. cbn [fst snd]. split; [|split; assumption].
        simpl. rewrite Hp. apply (Permutation_middle (x :: l1) l2 y).
      * exists ((x :: l1) ++ y :: l2). cbn [fst snd]. simpl.
        split; [reflexivity|]. split; [discriminate|].
        intros e H. now inversion H.
Qed.

Lemma heapq_merge_In l1 b l2 z :
  In z (fst (heapq_merge V V_eqb V_ltb l1 b l2)) -> In z (l1 ++ l2).
Proof.
  intro H. destruct (heapq_merge_perm l1 b l2) as (rest & Hp & _).
  apply (Permutation_in _ Hp). apply in_or_app. now left.
Qed.

(** The root of the heap has the least sort key. *)
Lemma root_has_least_key (b : bool) (x y : Z * V) :
  first_is_root V V_eqb V_ltb b x y = Some true -> fst x <= fst y.
Proof.
  unfold first_is_root, second_entry_ltb, first_entry_ltb, tuple_eqb, tuple_ltb.
  destruct (fst x =? fst y) eqn:E1; [apply Z.eqb_eq in E1; lia|].
  rewrite Z.eqb_sym in E1. rewrite E1. simpl.
  destruct b; simpl; intro H; inversion H as [H1];
    [apply Bool.negb_true_iff in H1|]; lia.
Qed.

Lemma other_has_least_key (b : bool) (x y : Z * V) :
  first_is_root V V_eqb V_ltb b x y = Some false -> fst y <= fst x.
Proof.
  unfold first_is_root, second_entry_ltb, first_entry_ltb, tuple_eqb, tuple_ltb.
  destruct (fst x =? fst y) eqn:E1; [apply Z.eqb_eq in E1; lia|].
  rewrite Z.eqb_sym in E1. rewrite E1. simpl.
  destruct b; simpl; intro H; inversion H as [H1];
    [apply Bool.negb_false_iff in H1|]; lia.
Qed.

(** What [heapq.merge] yields of two inputs in key order is in key
    order. *)
Lemma heapq_merge_ascending l1 : forall b l2,
  keys_ascending V l1 -> keys_ascending V l2 ->
  keys_ascending V (fst (heapq_merge V V_eqb V_ltb l1 b l2)).
Proof.
  unfold keys_ascending.
  induction l1 as [|x l1 IH1]; intros b l2 H1 H2.
  - now rewrite heapq_merge_nil_l.
  - revert b. induction l2 as [|y l2 IH2]; intro b.
    + now rewrite heapq_merge_nil_r.
    + rewrite heapq_merge_cons.
      simpl in H1, H2.
      inversion H1 as [|? ? Hs1 Hall1]; subst.
      inversion H2 as [|? ? Hs2 Hall2]; subst.
      destruct (first_is_root V V_eqb V_ltb b x y) as [[|]|] eqn:E;
        cbn [fst map]; constructor.
      * apply IH1; [exact Hs1|exact H2].
      * apply root_has_least_key in E.
        rewrite Forall_forall in *. intros k Hk.
        apply in_map_iff in Hk. destruct Hk as (z & <- & Hz).
        apply heapq_merge_In in Hz.
        apply in_app_or in Hz. destruct Hz as [Hz|[<-|Hz]].
        -- apply Hall1. now apply in_map.
        -- exact E.
        -- specialize (Hall2 (fst z) (in_map fst _ _ Hz)). lia.
      * apply IH2. exact Hs2.
      * apply other_has_least_key in E.
        rewrite Forall_forall in *. intros k Hk.
        apply in_map_iff in Hk. destruct Hk as (z & <- & Hz).
        apply heapq_merge_In in Hz.
        apply in_app_or in Hz. destruct Hz as [[<-|Hz]|Hz].
        -- exact E.
        -- specialize (Hall1 (fst z) (in_map fst _ _ Hz)). lia.
        -- apply Hall2. now apply in_map.
Qed.

(** A comparison that raises is one of two values with the same sort
    key. *)
Lemma first_is_root_defined (b : bool) (x y : Z * V) :
  (fst x = fst y ->
   (V_eqb (snd x) (snd y) = false -> V_ltb (snd x) (snd y) <> None)
   /\ (V_eqb (snd y) (snd x) = false -> V_ltb (snd y) (snd x) <> None)) ->
  first_is_root V V_eqb V_ltb b x y <> None.
Proof.
  intro H.
  unfold first_is_root, second_entry_ltb, first_entry_ltb, tuple_eqb, tuple_ltb.
  destruct (fst x =? fst y) eqn:E1.
  - apply Z.eqb_eq in E1. destruct (H E1) as [Hxy Hyx].
    rewrite <- E1, Z.eqb_refl. simpl.
    destruct b.
    + destruct (V_eqb (snd y) (snd x)); [discriminate|].
      destruct (V_ltb (snd y) (snd x)); [discriminate|]. now apply Hyx.
    + destruct (V_eqb (snd x) (snd y)); [discriminate|]. now apply Hxy.
  - rewrite Z.eqb_sym in E1. rewrite E1. simpl. destruct b; discriminate.
Qed.

(** With comparable values [heapq.merge] comes to its end. *)
Lemma heapq_merge_returns l1 : forall b l2,
  comparable V V_eqb V_ltb l1 l2 ->
  snd (heapq_merge V V_eqb V_ltb l1 b l2) = Returned tt.
Proof.
  induction l1 as [|x l1 IH1]; intros b l2 Hc.
  - now rewrite heapq_merge_nil_l.
  - revert b. induction l2 as [|y l2 IH2]; intro b.
    + now rewrite heapq_merge_nil_r.
    + rewrite heapq_merge_cons.
      pose proof (first_is_root_defined b x y
                    (Hc x y (or_introl eq_refl) (or_introl eq_refl))) as Hd.
      destruct (first_is_root V V_eqb V_ltb b x y) as [[|]|];
        [| |congruence]; cbn [snd].
      * apply IH1. intros x' y' Hx' Hy'. apply Hc; [now right|exact Hy'].
      * apply IH2. intros x' y' Hx' Hy'. apply Hc; [exact Hx'|now right].
Qed.

Lemma comparable_incl (p p' l l' : list (Z * V)) :
  incl p' p -> incl l' l ->
  comparable V V_eqb V_ltb p l -> comparable V V_eqb V_ltb p' l'.
Proof. intros Hp Hl Hc x y Hx Hy. apply Hc; auto. Qed.

(** With comparable values [read_range] comes to its end. *)
Lemma read_range_returns persistent (self : OrderedList K V) min_key limit_key :
  comparable V V_eqb V_ltb persistent
             (items_to_add V (ol_pending_adds K V self)) ->
  snd (read_range K V V_eqb V_ltb persistent self min_key limit_key)
  = Returned tt.
Proof.
  intro Hc. unfold read_range.
  destruct (ol_cleared K V self); simpl; [reflexivity|].
  apply heapq_merge_returns.
  refine (comparable_incl persistent _
            (items_to_add V (ol_pending_adds K V self)) _
            (incl_filter _ persistent) _ Hc).
  unfold irange.
  rewrite (items_to_add_filter V (fun k => in_range min_key limit_key k)).
  apply incl_filter.
Qed.


(** X14.  An ordered list state reads in key order.  After any calls of
    [add], [clear_range] and [clear] on a new state object, if the
    service answers the range query in ascending order of the sort keys,
    then what [read_range] yields is in ascending order of the sort keys
    too, whatever the order of the values is; and if every item of the
    answer and every pending add with the same sort key and different
    values have values that [<] can compare, the iteration comes to its
    end instead of raising [TypeError]. *)
Theorem ordered_list_reads_in_key_order :
  forall (key : K) (actions : list (action V)) (self' : OrderedList K V),
    perform K V actions (fresh K V key) = Returned self' ->
    forall (persistent : list (Z * V)) (min_key limit_key : Z),
      keys_ascending V persistent ->
      let r := read_range K V V_eqb V_ltb persistent self' min_key limit_key in
      keys_ascending V (fst r)
      /\ (comparable V V_eqb V_ltb persistent
                     (items_to_add V (ol_pending_adds K V self')) ->
          snd r = Returned tt).
Proof.
  intros key actions self' Hrun persistent min_key limit_key Hasc r.
  split; [|apply read_range_returns].
  destruct (perform_visible K V [] actions (fresh K V key) [] self'
              (fresh_well_kept K V key)) as [[_ Hadds] _]; [|exact Hrun|].
  { now rewrite fresh_visible. }
  assert (Hlocal : keys_ascending V
                     (items_to_add V (irange V min_key limit_key
                                             (ol_pending_adds K V self')))).
  { apply items_to_add_ascending. unfold irange.
    now apply StronglySorted_keys_filter. }
  unfold r, read_range. destruct (ol_cleared K V self'); simpl; [exact Hlocal|].
  apply heapq_merge_ascending; [|exact Hlocal].
  unfold keys_ascending. now apply StronglySorted_keys_filter.
Qed.

End OrderedRead.
End OrderedReadFacts.

(** ** A multimap side input without bulk reading *)

Module PointLookupFacts.
Import SideInput SideInputFacts.

Section MultiMapFacts.
Variables K V : Type.
Variable K_eqb : K -> K -> bool.
Hypothesis K_eqb_eq : forall a b, K_eqb a b = true <-> a = b.

Lemma lookups_without_bulk_read (calls : list (bulk_iterable K V * K)) :
  forall m : MultiMap K V,
    (forall k v, dict_get K V K_eqb (cache K V m) k = Some v ->
                 v = Point_lookup K V k) ->
    snd (lookups K V K_eqb false m calls)
    = map (fun c => Point_lookup K V (snd c)) calls
    /\ _bulk_read K V (fst (lookups K V K_eqb false m calls)) = _bulk_read K V m
    /\ forall k,
         dict_get K V K_eqb (cache K V (fst (lookups K V K_eqb false m calls))) k
         = if existsb (K_eqb k) (map snd calls)
           then Some (Point_lookup K V k)
           else dict_get K V K_eqb (cache K V m) k.
Proof.
  induction calls as [|[source key] calls IH]; intros m Hm.
  - simpl. auto.
  - cbn [lookups]. unfold getitem. cbn [andb].
    destruct (dict_get K V K_eqb (cache K V m) key) as [v|] eqn:E.
    + specialize (IH m Hm). destruct (lookups K V K_eqb false m calls) as [m2 vs].
      cbn [fst snd] in *. destruct IH as (IH1 & IH2 & IH3).
      rewrite (Hm key v E). cbn [map snd]. rewrite IH1.
      split; [reflexivity|]. split; [exact IH2|]. intro k. rewrite IH3.
      cbn [existsb]. destruct (K_eqb k key) eqn:Ek; [|reflexivity].
      apply K_eqb_eq in Ek. subst k. cbn [orb].
      destruct (existsb _ _); [reflexivity|]. rewrite E. f_equal.
      now apply Hm.
    + set (m1 := {| _bulk_read := _bulk_read K V m;
                    cache := dict_set K V K_eqb (cache K V m) key
                                      (Point_lookup K V key) |}).
      assert (Hm1 : forall k v, dict_get K V K_eqb (cache K V m1) k = Some v ->
                                v = Point_lookup K V k).
      { intros k v. unfold m1. cbn [cache].
        destruct (K_eqb k key) eqn:Ek.
        - apply K_eqb_eq in Ek. subst k.
          rewrite (dict_get_set_same K V K_eqb K_eqb_eq). congruence.
        - rewrite (dict_get_set_other K V K_eqb K_eqb_eq); [apply Hm|].
          intro; subst k.
          assert (K_eqb key key = true) by now apply K_eqb_eq. congruence. }
      specialize (IH m1 Hm1).
      destruct (lookups K V K_eqb false m1 calls) as [m2 vs].
      cbn [fst snd] in *. destruct IH as (IH1 & IH2 & IH3).
      cbn [map snd]. rewrite IH1. split; [reflexivity|].
      split; [exact IH2|]. intro k. rewrite IH3. cbn [existsb].
      destruct (K_eqb k key) eqn:Ek; cbn [orb].
      * apply K_eqb_eq in Ek. subst k.
        destruct (existsb _ _); [reflexivity|]. unfold m1. cbn [cache].
        apply (dict_get_set_same K V K_eqb K_eqb_eq).
      * destruct (existsb _ _); [reflexivity|]. unfold m1. cbn [cache].
        apply (dict_get_set_other K V K_eqb K_eqb_eq).
        intro; subst k.
        assert (K_eqb key key = true) by now apply K_eqb_eq. congruence.
Qed.

(** X15.  Without bulk reading (the default), a multimap view never
    consults the bulk iterable and never marks itself as loaded: every
    lookup is answered by the lazy per-key point lookup for its key, the
    same one each time the key is asked for, and the cache holds one such
    entry for each key that was looked up and for no other key. *)
Theorem multimap_without_bulk_read_uses_point_lookups :
  forall calls : list (bulk_iterable K V * K),
    let m := fst (lookups K V K_eqb false (fresh K V) calls) in
    snd (lookups K V K_eqb false (fresh K V) calls)
    = map (fun c => Point_lookup K V (snd c)) calls
    /\ _bulk_read K V m = None
    /\ forall k,
         dict_get K V K_eqb (cache K V m) k
         = if existsb (K_eqb k) (map snd calls)
           then Some (Point_lookup K V k)
           else None.
Proof.
  intros calls m.
  destruct (lookups_without_bulk_read calls (fresh K V)) as (H1 & H2 & H3).
  { intros k v H. discriminate H. }
  auto.
Qed.

End MultiMapFacts.
End PointLookupFacts.

(** ** Sized restrictions *)

Module SizedRestrictionsFacts.
Import SizedRestrictions.

Section Sdf.
Variables E R W : Type.
Variable split_and_size : E -> R -> list (R * Z).
Variable initial_estimator_state : E -> R -> W.
Variable truncate : E -> R -> option R.
Variable restriction_size : E -> R -> Z.

Lemma split_loop_spec element parts :
  let yielded := fst (split_loop E R W initial_estimator_state element parts) in
  let ending := snd (split_loop E R W initial_estimator_state element parts) in
  Forall (fun y => 0 <= snd y /\ fst (fst y) = element
                   /\ snd (snd (fst y))
                      = initial_estimator_state element (fst (snd (fst y))))
         yielded
  /\ exists rest,
       parts = map (part_and_size E R W) yielded ++ rest
       /\ match rest with
          | [] => ending = Returned tt
          | (_, size) :: _ => size < 0 /\ ending = Raised ValueError
          end.
Proof.
  induction parts as [|[part size] parts IH]; simpl.
  - split; [constructor|]. exists []. auto.
  - destruct (size <? 0) eqn:E1; simpl.
    + split; [constructor|]. exists ((part, size) :: parts).
      split; [reflexivity|]. split; [lia|reflexivity].
    + destruct (split_loop E R W initial_estimator_state element parts)
        as [yielded r].
      simpl in *. destruct IH as (IH1 & rest & IH2 & IH3). split.
      * constructor; [simpl; split; [lia|auto]|exact IH1].
      * exists rest. split; [|exact IH3].
        unfold part_and_size at 1. simpl. now rewrite IH2 at 1.
Qed.

(** X16.  The splitting and the truncating steps of a splittable DoFn
    never output a negative size.  [SplitAndSizeRestrictions] yields the
    parts of [split_and_size] in order, each with the input element, a
    new estimator state and its size, up to the first part whose size is
    negative, where it raises [ValueError]; if no size is negative it
    yields them all.  [TruncateAndSizeRestriction] yields at most one
    value, which keeps the element and the estimator state of its
    input. *)
Theorem sized_outputs_are_never_negative :
  (forall element restriction estimator_state,
      let result := split_process E R W split_and_size initial_estimator_state
                      (element, (restriction, estimator_state)) in
      Forall (fun y => 0 <= snd y /\ fst (fst y) = element
                       /\ snd (snd (fst y))
                          = initial_estimator_state element (fst (snd (fst y))))
             (fst result)
      /\ exists rest,
           split_and_size element restriction
           = map (part_and_size E R W) (fst result) ++ rest
           /\ match rest with
              | [] => snd result = Returned tt
              | (_, size) :: _ => size < 0 /\ snd result = Raised ValueError
              end)
  /\ (forall element restriction estimator_state size,
         let result := truncate_process E R W truncate restriction_size
                         ((element, (restriction, estimator_state)), size) in
         Forall (fun y => 0 <= snd y
                          /\ fst (fst y) = element
                          /\ snd (snd (fst y)) = estimator_state
                          /\ truncate element restriction = Some (fst (snd (fst y)))
                          /\ snd y = restriction_size element (fst (snd (fst y))))
                (fst result)
         /\ (length (fst result) <= 1)%nat
         /\ (snd result = Returned tt
             \/ fst result = [] /\ snd result = Raised ValueError)).
Proof.
  split.
  - intros element restriction estimator_state. apply split_loop_spec.
  - intros element restriction estimator_state size. unfold truncate_process.
    destruct (truncate element restriction) as [tr|]; simpl;
      [|split; [constructor|split; [lia|auto]]].
    destruct (restriction_size element tr <? 0) eqn:E1; simpl.
    + split; [constructor|split; [lia|auto]].
    + split; [|split; [lia|auto]].
      constructor; [|constructor]. simpl. repeat split; auto. lia.
Qed.

End Sdf.
End SizedRestrictionsFacts.

(** ** Merging windows *)

Module MergeWindowsFacts.
Import MergeWindows.

Section Merge.
Variable W : Type.
Variable W_eq_dec : forall x y : W, {x = y} + {x <> y}.

Lemma dict_get_app_skip (d1 d2 : dict W) k :
  ~ In k (map fst d1) ->
  dict_get W W_eq_dec (d1 ++ d2) k = dict_get W W_eq_dec d2 k.
Proof.
  induction d1 as [|[k0 v0] d1 IH]; simpl; intro H; [reflexivity|].
  destruct (W_eq_dec k k0) as [->|Hne]; [tauto|]. apply IH. tauto.
Qed.

Lemma dict_get_split (d : dict W) k s :
  dict_get W W_eq_dec d k = Some s ->
  exists d1 d2, d = d1 ++ (k, s) :: d2 /\ ~ In k (map fst d1).
Proof.
  induction d as [|[k0 v0] d IH]; simpl; [discriminate|].
  destruct (W_eq_dec k k0) as [->|Hne].
  - intro H. inversion H; subst. exists [], d. auto.
  - intro H. destruct (IH H) as (d1 & d2 & -> & Hd1).
    exists ((k0, v0) :: d1), d2. split; [reflexivity|].
    simpl. intros [E|E]; [congruence|tauto].
Qed.

Lemma dict_set_split (d1 d2 : dict W) k s v :
  ~ In k (map fst d1) ->
  dict_set W W_eq_dec (d1 ++ (k, s) :: d2) k v = d1 ++ (k, v) :: d2.
Proof.
  induction d1 as [|[k0 v0] d1 IH]; simpl; intro H.
  - destruct (W_eq_dec k k); [reflexivity|congruence].
  - destruct (W_eq_dec k k0) as [->|Hne]; [tauto|]. rewrite IH; tauto.
Qed.

Lemma dict_pop_split (d1 d2 : dict W) k s :
  ~ In k (map fst d1) ->
  dict_pop W W_eq_dec (d1 ++ (k, s) :: d2) k = d1 ++ d2.
Proof.
  induction d1 as [|[k0 v0] d1 IH]; simpl; intro H.
  - destruct (W_eq_dec k k); [reflexivity|congruence].
  - destruct (W_eq_dec k k0) as [->|Hne]; [tauto|]. rewrite IH; tauto.
Qed.

Lemma set_add_fresh w (s : list W) :
  ~ In w s -> set_add W W_eq_dec w s = s ++ [w].
Proof. unfold set_add. destruct (in_dec W_eq_dec w s); tauto. Qed.

Lemma set_update_disjoint (t : list W) : forall s,
  NoDup t -> (forall x, In x t -> ~ In x s) ->
  set_update W W_eq_dec s t = s ++ t.
Proof.
  unfold set_update.
  induction t as [|w t IH]; intros s Hnd Hdis; simpl.
  - now rewrite app_nil_r.
  - inversion Hnd as [|? ? Hw Hnd']; subst.
    rewrite set_add_fresh by (apply Hdis; now left).
    rewrite IH; [now rewrite <- app_assoc|exact Hnd'|].
    intros x Hx Hin. apply in_app_or in Hin. destruct Hin as [Hin|[<-|[]]].
    + apply (Hdis x); [now right|exact Hin].
    + contradiction.
Qed.

Lemma set_remove_split (o1 o2 : list W) w :
  ~ In w o1 -> ~ In w o2 ->
  set_remove W W_eq_dec w (o1 ++ w :: o2) = o1 ++ o2.
Proof.
  intros H1 H2. unfold set_remove. rewrite remove_app. simpl.
  destruct (W_eq_dec w w); [|congruence].
  now rewrite !notin_remove.
Qed.

Lemma NoDup_app_parts {A} (l1 l2 : list A) :
  NoDup (l1 ++ l2) ->
  NoDup l1 /\ NoDup l2 /\ forall x, In x l1 -> ~ In x l2.
Proof.
  induction l1 as [|a l1 IH]; simpl; intro H.
  - split; [constructor|]. split; [exact H|]. intros x [].
  - inversion H as [|? ? Ha Hnd]; subst. destruct (IH Hnd) as (H1 & H2 & H3).
    split; [constructor; [|exact H1]|split; [exact H2|]].
    + intro Hin. apply Ha. apply in_or_app. now left.
    + intros x [<-|Hx]; [|now apply H3].
      intro Hin. apply Ha. apply in_or_app. now right.
Qed.

(** One round of the loop on an original window. *)
Lemma move_original (o1 o2 : list W) w (d1 d2 : dict W) res s :
  Permutation
    ((o1 ++ o2) ++ flat_map snd (d1 ++ (res, s ++ [w]) :: d2))
    ((o1 ++ w :: o2) ++ flat_map snd (d1 ++ (res, s) :: d2)).
Proof.
  rewrite !flat_map_app. simpl.
  rewrite <- !app_assoc. apply Permutation_app_head.
  transitivity (w :: o2 ++ flat_map snd d1 ++ s ++ flat_map snd d2);
    [|reflexivity].
  rewrite !app_assoc. rewrite <- (app_assoc _ [w]). simpl.
  symmetry. apply Permutation_middle.
Qed.

(** One round of the loop on an earlier merge result. *)
Lemma move_merged (ow : list W) (d1 d2 e1 e2 : dict W) w popped res s :
  d1 ++ d2 = e1 ++ (res, s) :: e2 ->
  Permutation
    (ow ++ flat_map snd (e1 ++ (res, s ++ popped) :: e2))
    (ow ++ flat_map snd (d1 ++ (w, popped) :: d2)).
Proof.
  intro E. apply Permutation_app_head.
  transitivity (popped ++ flat_map snd (d1 ++ d2)).
  - rewrite E, !flat_map_app. simpl. rewrite <- !app_assoc.
    rewrite (app_assoc (flat_map snd e1) s (popped ++ flat_map snd e2)).
    rewrite (app_assoc (flat_map snd e1) s (flat_map snd e2)).
    symmetry. apply Permutation_app_swap_app.
  - rewrite !flat_map_app. simpl. apply Permutation_app_swap_app.
Qed.

Lemma merge_loop_spec res : forall to_be_merged originals st st',
  well_formed W st ->
  proper W to_be_merged res st ->
  dict_get W W_eq_dec (merged_windows W st) res = Some originals ->
  merge_loop W W_eq_dec to_be_merged res originals true st = Returned st' ->
  Permutation (accounted W st') (accounted W st)
  /\ NoDup (map fst (merged_windows W st'))
  /\ (forall x, In x (original_windows W st')
                <-> In x (original_windows W st) /\ ~ In x to_be_merged)
  /\ exists merged,
       dict_get W W_eq_dec (merged_windows W st') res = Some merged
       /\ incl originals merged
       /\ (forall w, In w to_be_merged -> In w (original_windows W st) ->
                     In w merged)
       /\ (forall w popped,
              In w to_be_merged -> ~ In w (original_windows W st) ->
              dict_get W W_eq_dec (merged_windows W st) w = Some popped ->
              incl popped merged).
Proof.
  induction to_be_merged as [|w rest IH];
    intros originals st st' [Hkeys Hnd] [Hnd_t Hres] Hget Hrun.
  - simpl in Hrun. inversion Hrun; subst. split; [reflexivity|].
    split; [exact Hkeys|]. split; [intro x; simpl; tauto|].
    exists originals. split; [exact Hget|]. split; [apply incl_refl|].
    split; [intros w []|intros w popped []].
  - inversion Hnd_t as [|? ? Hw_rest Hnd_rest]; subst.
    destruct (dict_get_split _ _ _ Hget) as (d1 & d2 & Ed & Hd1).
    cbn [merge_loop] in Hrun.
    destruct (in_dec W_eq_dec w (original_windows W st)) as [Hin|Hout].
    + (* an original window moves to the merged set *)
      destruct (in_split _ _ Hin) as (o1 & o2 & Eo).
      unfold accounted in Hnd. rewrite Eo, Ed in Hnd.
      destruct (NoDup_app_parts _ _ Hnd) as (Hnd_o & _ & Hdis).
      assert (Hw_o1 : ~ In w o1 /\ ~ In w o2).
      { apply NoDup_remove_2 in Hnd_o. split; intro; apply Hnd_o;
          apply in_or_app; auto. }
      assert (Hw_s : ~ In w originals).
      { intro Hs. apply (Hdis w); [apply in_or_app; right; now left|].
        rewrite flat_map_app. apply in_or_app. right. simpl.
        apply in_or_app. now left. }
      rewrite (set_add_fresh w originals Hw_s) in Hrun.
      rewrite Ed, (dict_set_split d1 d2 res originals _ Hd1) in Hrun.
      rewrite Eo, (set_remove_split o1 o2 w (proj1 Hw_o1) (proj2 Hw_o1)) in Hrun.
      pose proof (move_original o1 o2 w d1 d2 res originals) as Hperm.
      apply IH in Hrun.
      * cbn [original_windows merged_windows] in Hrun.
        destruct Hrun as (H1 & H2 & H3 & merged & H4 & H5 & H6 & H7).
        split; [unfold accounted in *; cbn [original_windows merged_windows] in H1;
                rewrite H1, Eo, Ed; exact Hperm|].
        split; [exact H2|]. split.
        { intro x. rewrite H3, Eo, !in_app_iff. simpl.
          split.
          - intros [[Hx|Hx] Hnx]; (split; [tauto|]);
              (intros [<-|Hx']; [tauto|tauto]).
          - intros [[Hx|[<-|Hx]] Hnx]; [tauto| |tauto].
            exfalso. apply Hnx. now left. }
        exists merged. split; [exact H4|].
        split; [intros x Hx; apply H5; apply in_or_app; now left|].
        split.
        { intros w' [<-|Hw'] Hw'o.
          - apply H5. apply in_or_app. right. now left.
          - apply H6; [exact Hw'|]. rewrite Eo in Hw'o.
            apply in_app_or in Hw'o. apply in_or_app.
            destruct Hw'o as [Hx|[<-|Hx]]; [tauto|contradiction|tauto]. }
        { intros w' popped [<-|Hw'] Hw'o Hg; [contradiction|].
          rewrite Eo in Hw'o.
          assert (Hne : w' <> res).
          { intro; subst w'. apply Hw'o. rewrite <- Eo. apply Hres. now right. }
          apply (H7 w' popped Hw').
          - intro Hx. apply Hw'o. apply in_app_or in Hx. apply in_or_app.
            destruct Hx; [tauto|right; now right].
          - rewrite Ed in Hg. clear -Hg Hne Hd1.
            revert Hg. induction d1 as [|[k0 v0] d1 IHd]; simpl.
            + destruct (W_eq_dec w' res); [congruence|auto].
            + destruct (W_eq_dec w' k0); [auto|]. apply IHd.
              simpl in Hd1. tauto. }
      * split; cbn [original_windows merged_windows].
        -- rewrite !map_app in *. simpl in *. now rewrite Ed, map_app in Hkeys.
        -- unfold accounted. cbn [original_windows merged_windows].
           apply (Permutation_NoDup (Permutation_sym Hperm)). exact Hnd.
      * split; [exact Hnd_rest|]. cbn [original_windows]. intro Hr.
        assert (Hne : res <> w) by (intro; subst; contradiction).
        specialize (Hres (or_intror Hr)). rewrite Eo in Hres.
        apply in_app_or in Hres. apply in_or_app.
        destruct Hres as [Hx|[Hx|Hx]]; [tauto|congruence|tauto].
      * cbn [merged_windows]. rewrite dict_get_app_skip by exact Hd1.
        simpl. destruct (W_eq_dec res res); [reflexivity|congruence].
    + (* an earlier merge result is popped *)
      destruct (dict_get W W_eq_dec (merged_windows W st) w) as [popped|] eqn:Ew;
        [|discriminate].
      assert (Hne : w <> res).
      { intro; subst w. apply Hout. apply Hres. now left. }
      destruct (W_eq_dec w res) as [|_]; [contradiction|].
      destruct (dict_get_split _ _ _ Ew) as (p1 & p2 & Ep & Hp1).
      rewrite Ep, (dict_pop_split p1 p2 w popped Hp1) in Hrun.
      assert (Hkeys_p : NoDup (map fst (p1 ++ p2))).
      { rewrite Ep, map_app in Hkeys. simpl in Hkeys.
        apply NoDup_remove_1 in Hkeys. now rewrite map_app. }
      assert (Hget_p : dict_get W W_eq_dec (p1 ++ p2) res = Some originals).
      { rewrite Ep in Hget. clear -Hget Hne.
        induction p1 as [|[k0 v0] p1 IHp]; simpl in *.
        - destruct (W_eq_dec res w); [congruence|exact Hget].
        - destruct (W_eq_dec res k0); [exact Hget|auto]. }
      destruct (dict_get_split _ _ _ Hget_p) as (e1 & e2 & Ee & He1).
      unfold accounted in Hnd. rewrite Ep in Hnd.
      assert (Hnd_m : NoDup (popped ++ flat_map snd (p1 ++ p2))).
      { apply NoDup_app_parts in Hnd. destruct Hnd as (_ & Hnd & _).
        rewrite flat_map_app in Hnd. simpl in Hnd.
        apply (Permutation_NoDup (l := flat_map snd p1 ++ popped ++ flat_map snd p2));
          [|exact Hnd].
        rewrite flat_map_app. apply Permutation_app_swap_app. }
      destruct (NoDup_app_parts _ _ Hnd_m) as (Hnd_pop & _ & Hdis).
      assert (Hfresh : forall x, In x popped -> ~ In x originals).
      { intros x Hx Hs. apply (Hdis x Hx). rewrite Ee, flat_map_app.
        apply in_or_app. right. simpl. apply in_or_app. now left. }
      rewrite (set_update_disjoint popped originals Hnd_pop Hfresh) in Hrun.
      rewrite Ee, (dict_set_split e1 e2 res originals _ He1) in Hrun.
      pose proof (move_merged (original_windows W st) p1 p2 e1 e2 w popped res
                              originals Ee) as Hperm.
      apply IH in Hrun.
      * cbn [original_windows merged_windows] in Hrun.
        destruct Hrun as (H1 & H2 & H3 & merged & H4 & H5 & H6 & H7).
        split; [unfold accounted in *; cbn [original_windows merged_windows] in H1;
                rewrite H1, Ep; exact Hperm|].
        split; [exact H2|]. split.
        { intro x. rewrite H3. simpl. split; [|tauto].
          intros [Hx Hnx]. split; [exact Hx|].
          intros [<-|Hx']; [contradiction|tauto]. }
        exists merged. split; [exact H4|].
        split; [intros x Hx; apply H5; apply in_or_app; now left|].
        split.
        { intros w' [<-|Hw'] Hw'o; [contradiction|]. now apply H6. }
        { intros w' popped' [<-|Hw'] Hw'o Hg.
          - rewrite Ep, dict_get_app_skip in Hg by exact Hp1. simpl in Hg.
            destruct (W_eq_dec w w); [|congruence]. inversion Hg; subst.
            intros x Hx. apply H5. apply in_or_app. now right.
          - assert (Hne' : w' <> res).
            { intro; subst w'. apply Hw'o. apply Hres. now right. }
            assert (Hne2 : w' <> w) by (intro; subst; contradiction).
            apply (H7 w' popped' Hw' Hw'o).
            assert (Hg' : dict_get W W_eq_dec (p1 ++ p2) w' = Some popped').
            { rewrite Ep in Hg. clear -Hg Hne2.
              induction p1 as [|[k0 v0] p1 IHp]; simpl in *.
              - destruct (W_eq_dec w' w); [congruence|exact Hg].
              - destruct (W_eq_dec w' k0); [exact Hg|auto]. }
            rewrite Ee in Hg'. clear -Hg' Hne' He1.
            revert Hg'. induction e1 as [|[k0 v0] e1 IHe]; simpl.
            + destruct (W_eq_dec w' res); [congruence|auto].
            + destruct (W_eq_dec w' k0); [auto|]. apply IHe.
              simpl in He1. tauto. }
      * split; cbn [original_windows merged_windows].
        -- rewrite Ee in Hkeys_p. rewrite !map_app in *. exact Hkeys_p.
        -- unfold accounted. cbn [original_windows merged_windows].
           apply (Permutation_NoDup (Permutation_sym Hperm)). exact Hnd.
      * split; [exact Hnd_rest|]. cbn [original_windows]. intro Hr.
        apply Hres. now right.
      * cbn [merged_windows]. rewrite dict_get_app_skip by exact He1.
        simpl. destruct (W_eq_dec res res); [reflexivity|congruence].
Qed.

(** The call as its loop: the entry for the merge result exists when
    the loop starts. *)
Lemma merge_entry to_be_merged res (st : state W) :
  well_formed W st ->
  exists originals st1,
    merge W W_eq_dec to_be_merged res st
    = merge_loop W W_eq_dec to_be_merged res originals true st1
    /\ well_formed W st1
    /\ accounted W st1 = accounted W st
    /\ original_windows W st1 = original_windows W st
    /\ dict_get W W_eq_dec (merged_windows W st1) res = Some originals
    /\ (forall w popped,
           dict_get W W_eq_dec (merged_windows W st) w = Some popped ->
           dict_get W W_eq_dec (merged_windows W st1) w = Some popped).
Proof.
  intro Hwf. unfold merge.
  destruct (dict_get W W_eq_dec (merged_windows W st) res) as [originals|] eqn:E.
  - exists originals, st. repeat split; auto; apply Hwf.
  - set (st1 := {| original_windows := original_windows W st;
                   merged_windows := merged_windows W st ++ [(res, [])] |}).
    assert (Hacc : accounted W st1 = accounted W st).
    { unfold accounted, st1. simpl. rewrite flat_map_app. simpl.
      now rewrite app_nil_r. }
    assert (Hfresh : ~ In res (map fst (merged_windows W st))).
    { clear -E. induction (merged_windows W st) as [|[k0 v0] d IHd]; simpl;
        [tauto|].
      simpl in E. destruct (W_eq_dec res k0); [discriminate|].
      intros [H|H]; [congruence|]. now apply IHd. }
    exists [], st1. split; [reflexivity|]. split.
    { destruct Hwf as [Hkeys Hnd]. split; [|now rewrite Hacc].
      unfold st1. simpl. rewrite map_app. simpl.
      apply NoDup_Add with (a := res) (l := map fst (merged_windows W st)).
      - rewrite <- (app_nil_r (map fst (merged_windows W st))) at 1.
        apply Add_app.
      - split; assumption. }
    split; [exact Hacc|]. split; [reflexivity|]. split.
    { unfold st1. simpl. rewrite dict_get_app_skip by exact Hfresh.
      simpl. destruct (W_eq_dec res res); [reflexivity|congruence]. }
    intros w popped Hg. unfold st1. simpl.
    clear -Hg. induction (merged_windows W st) as [|[k0 v0] d IHd]; simpl in *;
      [discriminate|].
    destruct (W_eq_dec w k0); [exact Hg|auto].
Qed.

(** X17.  A merge call that does not merge an earlier merge result into
    itself accounts for every window exactly once.  If no window is
    accounted for twice before the call, the call lists no window twice,
    and the merge result, if it is among the windows to merge, is still
    an original window, then when the call returns: the original windows
    and the merged sets together hold the same windows as before, each
    once; the original windows left are those that were not merged; and
    the set recorded for the merge result holds every original window
    that was merged and every set of an earlier merge result that was
    merged. *)
Theorem merge_accounts_for_every_window :
  forall (to_be_merged : list W) (merge_result : W) (st st' : state W),
    well_formed W st ->
    proper W to_be_merged merge_result st ->
    merge W W_eq_dec to_be_merged merge_result st = Returned st' ->
    Permutation (accounted W st') (accounted W st)
    /\ well_formed W st'
    /\ (forall x, In x (original_windows W st')
                  <-> In x (original_windows W st) /\ ~ In x to_be_merged)
    /\ exists merged,
         dict_get W W_eq_dec (merged_windows W st') merge_result = Some merged
         /\ (forall w, In w to_be_merged -> In w (original_windows W st) ->
                       In w merged)
         /\ (forall w popped,
                In w to_be_merged -> ~ In w (original_windows W st) ->
                dict_get W W_eq_dec (merged_windows W st) w = Some popped ->
                incl popped merged).
Proof.
  intros to_be_merged res st st' Hwf Hproper Hrun.
  destruct (merge_entry to_be_merged res st Hwf)
    as (originals & st1 & E & Hwf1 & Hacc & How & Hget & Hsame).
  rewrite E in Hrun.
  assert (Hproper1 : proper W to_be_merged res st1).
  { destruct Hproper as [H1 H2]. split; [exact H1|]. now rewrite How. }
  destruct (merge_loop_spec res _ _ _ _ Hwf1 Hproper1 Hget Hrun)
    as (H1 & H2 & H3 & merged & H4 & _ & H6 & H7).
  rewrite Hacc in H1. rewrite How in H3, H6, H7.
  split; [exact H1|]. split.
  { split; [exact H2|]. destruct Hwf as [_ Hnd].
    apply (Permutation_NoDup (Permutation_sym H1)). exact Hnd. }
  split; [exact H3|]. exists merged. split; [exact H4|].
  split; [exact H6|]. intros w popped Hw Hwo Hg.
  apply (H7 w popped Hw Hwo). now apply Hsame.
Qed.

Lemma merge_well_formed to_be_merged res (st st' : state W) :
  well_formed W st ->
  proper W to_be_merged res st ->
  merge W W_eq_dec to_be_merged res st = Returned st' ->
  Permutation (accounted W st') (accounted W st) /\ well_formed W st'.
Proof.
  intros Hwf Hproper Hrun.
  destruct (merge_entry to_be_merged res st Hwf)
    as (originals & st1 & E & Hwf1 & Hacc & How & Hget & _).
  rewrite E in Hrun.
  assert (Hproper1 : proper W to_be_merged res st1).
  { destruct Hproper as [H1 H2]. split; [exact H1|]. now rewrite How. }
  destruct (merge_loop_spec res _ _ _ _ Hwf1 Hproper1 Hget Hrun)
    as (H1 & H2 & _).
  rewrite Hacc in H1. split; [exact H1|]. split; [exact H2|].
  destruct Hwf as [_ Hnd].
  apply (Permutation_NoDup (Permutation_sym H1)). exact Hnd.
Qed.

Lemma merges_well_formed calls : forall st st' : state W,
  well_formed W st ->
  all_proper W W_eq_dec calls st ->
  merges W W_eq_dec calls st = Returned st' ->
  Permutation (accounted W st') (accounted W st) /\ well_formed W st'.
Proof.
  induction calls as [|[to_be_merged res] calls IH]; intros st st' Hwf Hp Hrun.
  - simpl in Hrun. inversion Hrun; subst. auto.
  - cbn [merges] in Hrun. unfold bind in Hrun.
    destruct (merge W W_eq_dec to_be_merged res st) as [st1|] eqn:E;
      [|discriminate].
    destruct Hp as [Hp1 Hp2].
    destruct (merge_well_formed _ _ _ _ Hwf Hp1 E) as [H1 Hwf1].
    destruct (IH st1 st' Hwf1 (Hp2 st1 E) Hrun) as [H2 Hwf'].
    split; [now rewrite H2|exact Hwf'].
Qed.

(** X18.  When every merge call that the window function makes is
    proper at the time it is made and [MergeWindows.process] yields, the
    pair it yields accounts for each distinct input window exactly once:
    the windows left unmerged together with the members of the merged
    sets are the distinct input windows, none missing and none twice,
    and no merge result is listed twice. *)
Theorem process_accounts_for_every_window :
  forall (window_fn_merge : list W -> list (list W * W)) (windows : list W)
         (st' : state W),
    all_proper W W_eq_dec (window_fn_merge windows)
               {| original_windows := nodup W_eq_dec windows;
                  merged_windows := [] |} ->
    process W W_eq_dec window_fn_merge windows = Returned st' ->
    Permutation (accounted W st') (nodup W_eq_dec windows)
    /\ NoDup (accounted W st')
    /\ NoDup (map fst (merged_windows W st')).
Proof.
  intros window_fn_merge windows st' Hp Hrun. unfold process in Hrun.
  assert (Hwf : well_formed W {| original_windows := nodup W_eq_dec windows;
                                 merged_windows := [] |}).
  { split; [constructor|]. unfold accounted. simpl. rewrite app_nil_r.
    apply NoDup_nodup. }
  destruct (merges_well_formed _ _ _ Hwf Hp Hrun) as [H1 [H2 H3]].
  unfold accounted in H1 at 2. simpl in H1. rewrite app_nil_r in H1.
  auto.
Qed.

End Merge.
End MergeWindowsFacts.

(** ** What commit leaves of an ordered list *)

Module OrderedCommitFacts.
Import StateHandler KeyedState RangeSet RangeSetFacts OrderedRead OrderedService.

Section Service.
Variables K V S : Type.
Variable stored_items : S -> list (Z * V).
Variable do_clear_range : S -> Z -> Z -> S.
Variable do_clear : S -> S.
Variable do_extend : S -> list (Z * V) -> S.
Hypothesis Hserves :
  serves_an_ordered_list V S stored_items do_clear_range do_extend.

(** Ranged clears drop the keys of every range. *)
Lemma clears_drop (key : K) (l : list (Z * Z)) : forall s : S,
  stored_items
    (fold_left (perform K V S do_clear_range do_clear do_extend)
               (map (fun se => Clear (Range_key key (fst se) (snd se))) l) s)
  = filter (fun kv => negb (existsb (fun se => in_range (fst se) (snd se) (fst kv)) l))
           (stored_items s).
Proof.
  destruct Hserves as [Hclear _].
  induction l as [|[a b] l IH]; intro s; simpl.
  - induction (stored_items s) as [|x xs IHx]; simpl; [reflexivity|].
    now rewrite <- IHx.
  - rewrite IH, Hclear, OrderedReadFacts.filter_filter.
    apply filter_ext. intro kv. simpl. now rewrite Bool.negb_orb.
Qed.

Lemma existsb_covered (l : list (Z * Z)) k :
  existsb (fun se => in_range (fst se) (snd se) k) l = true <-> covered l k.
Proof.
  rewrite existsb_exists. unfold covered, in_range.
  split; intros (r & Hr & Hp); exists r; (split; [exact Hr|]).
  - apply Bool.andb_true_iff in Hp. rewrite Z.leb_le, Z.ltb_lt in Hp. exact Hp.
  - apply Bool.andb_true_iff. now rewrite Z.leb_le, Z.ltb_lt.
Qed.

(** Once cleared, the pending removal is the full key range. *)
Lemma cleared_has_full_range (actions : list (action V)) :
  forall self self' : OrderedList K V,
    (ol_cleared K V self = true ->
     ol_pending_removes K V self = add empty RANGE_MIN RANGE_MAX) ->
    OrderedRead.perform K V actions self = Returned self' ->
    ol_cleared K V self' = true ->
    ol_pending_removes K V self' = add empty RANGE_MIN RANGE_MAX.
Proof.
  induction actions as [|a actions IH]; intros self self' Hc Hrun Hcl.
  - simpl in Hrun. inversion Hrun; subst. now apply Hc.
  - destruct a as [key value|min_key limit_key|]; cbn [OrderedRead.perform] in Hrun.
    + unfold bind, ol_add in Hrun.
      destruct ((key >=? RANGE_MAX) || (key <? RANGE_MIN)); [discriminate|].
      refine (IH _ self' _ Hrun Hcl). exact Hc.
    + refine (IH _ self' _ Hrun Hcl). simpl.
      destruct (ol_cleared K V self); [exact Hc|discriminate].
    + refine (IH _ self' _ Hrun Hcl). reflexivity.
Qed.

Lemma perform_key (actions : list (action V)) :
  forall o o' : OrderedList K V,
    OrderedRead.perform K V actions o = Returned o' ->
    ol_key K V o' = ol_key K V o.
Proof.
  induction actions as [|a actions IH]; intros o o' H.
  - simpl in H. now inversion H.
  - destruct a as [k v|a b|]; cbn [OrderedRead.perform] in H.
    + unfold bind, ol_add in H.
      destruct ((k >=? RANGE_MAX) || (k <? RANGE_MIN)); [discriminate|].
      now apply IH in H.
    + now apply IH in H.
    + now apply IH in H.
Qed.

Lemma commit_requests (self : OrderedList K V) (h : StateHandler.t K (Z * V)) :
  requests (snd (ol_commit K V self h))
  = requests h
    ++ map (fun se => Clear (Range_key (ol_key K V self) (fst se) (snd se)))
           (ranges (ol_pending_removes K V self))
    ++ match ol_pending_adds K V self with
       | [] => []
       | adds => [Extend (Key (ol_key K V self)) (items_to_add V adds)]
       end.
Proof.
  unfold ol_commit.
  pose proof (CommitFacts.issue_all_spec K V
                (map (fun se => Clear (Range_key (ol_key K V self) (fst se) (snd se)))
                     (ranges (ol_pending_removes K V self))) h) as (I1 & _ & _).
  destruct (issue_all K V h _) as [h1 fs]. cbn [fst] in I1.
  destruct (ol_pending_adds K V self) as [|kv adds].
  - cbn [snd]. rewrite (proj1 (CommitFacts.fold_get K V fs h1)), I1, app_nil_r.
    reflexivity.
  - unfold extend, issue. cbn [snd].
    rewrite (proj1 (CommitFacts.fold_get K V _ _)). cbn [requests].
    rewrite I1, <- app_assoc. reflexivity.
Qed.

(** X19.  [commit] of an ordered list state persists the list that the
    calls made.  Against a service on which a ranged clear drops the
    keys of its range and an append adds its items, and which holds
    valid sort keys only: after any calls of [add], [clear_range] and
    [clear] on a new state object, [commit] leaves in the service, up to
    order, exactly the items that those calls leave of the items that
    were stored before (an add appends its item, a ranged clear drops
    the keys in its range, a clear drops everything); and the state
    object is as new afterwards. *)
Theorem ordered_list_commit_persists_the_calls :
  forall (key : K) (actions : list (action V)) (self' : OrderedList K V),
    OrderedRead.perform K V actions (fresh K V key) = Returned self' ->
    forall (s0 : S) (h : StateHandler.t K (Z * V)),
      keys_valid V S stored_items
                 (replay K V S do_clear_range do_clear do_extend s0 h) ->
      Permutation
        (stored_items
           (replay K V S do_clear_range do_clear do_extend s0
                   (snd (ol_commit K V self' h))))
        (items_after V actions
           (stored_items (replay K V S do_clear_range do_clear do_extend s0 h)))
      /\ fst (ol_commit K V self' h) = fresh K V key.
Proof.
  intros key actions self' Hrun s0 h Hvalid.
  set (s := replay K V S do_clear_range do_clear do_extend s0 h) in *.
  destruct (OrderedReadFacts.perform_visible K V (stored_items s) actions
              (fresh K V key) (stored_items s) self'
              (OrderedReadFacts.fresh_well_kept K V key)) as [Hkept Hp];
    [now rewrite OrderedReadFacts.fresh_visible|exact Hrun|].
  pose proof (perform_key actions _ _ Hrun) as Hkey. simpl in Hkey.
  split.
  2:{ unfold ol_commit.
      destruct (issue_all K V h _) as [h1 fs].
      destruct (ol_pending_adds K V self'); simpl; unfold fresh;
        now rewrite Hkey. }
  rewrite Hp. clear Hp.
  assert (Hfull : ol_cleared K V self' = true ->
                  ol_pending_removes K V self' = add empty RANGE_MIN RANGE_MAX).
  { apply (cleared_has_full_range actions (fresh K V key) self');
      [intro H; discriminate H|exact Hrun]. }
  destruct Hkept as [(l & Hsep & El) _].
  unfold replay at 1. rewrite commit_requests, !fold_left_app.
  fold (replay K V S do_clear_range do_clear do_extend s0 h). fold s.
  set (s1 := fold_left (perform K V S do_clear_range do_clear do_extend)
               (map (fun se => Clear (Range_key (ol_key K V self') (fst se) (snd se)))
                    (ranges (ol_pending_removes K V self'))) s).
  assert (E1 : stored_items s1
               = if ol_cleared K V self' then []
                 else filter (fun kv => negb (contains (ol_pending_removes K V self')
                                                       (fst kv)))
                             (stored_items s)).
  { unfold s1. rewrite clears_drop.
    destruct (ol_cleared K V self') eqn:Ec.
    - rewrite (Hfull eq_refl). simpl.
      unfold keys_valid in Hvalid. fold s in Hvalid.
      induction (stored_items s) as [|x xs IHx]; simpl; [reflexivity|].
      inversion Hvalid as [|? ? Hx Hxs]; subst.
      unfold in_range at 1.
      assert ((RANGE_MIN <=? fst x) && (fst x <? RANGE_MAX) = true) as ->
        by (apply Bool.andb_true_iff; rewrite Z.leb_le, Z.ltb_lt; exact Hx).
      simpl. now apply IHx.
    - rewrite El, ranges_of_pairs. apply filter_ext. intro kv. f_equal.
      apply Bool.eq_true_iff_eq.
      now rewrite existsb_covered, (contains_covered l (fst kv) Hsep). }
  unfold visible. rewrite <- E1.
  destruct Hserves as [_ Hextend].
  destruct (ol_pending_adds K V self') as [|kv adds] eqn:Ea.
  - simpl. now rewrite app_nil_r.
  - simpl fold_left. apply Hextend.
Qed.

End Service.
End OrderedCommitFacts.

(** ** The further properties at sample inputs *)

Module FurtherExamples.
Import PyFloat DataInput Buffer Samples MoreSamples.

(** Half of ten elements, none read yet: the split lands at 5. *)
Lemma compute_split_lands_after_index_witness :
  0 < 5
  /\ ((4 = 5 - 1 /\ @nil unit = [] /\ @nil unit = [] /\ lt_bound 5 Inf = true)
      \/ (4 = 0 - 1 /\ 5 = 0 + 1 /\ ltb half one = true
          /\ exists k, (fun _ : float => @None (list unit * list unit)) k
                       = Some ([], []))).
Proof.
  apply (SplitPlacement.compute_split_lands_after_index
           unit unit 0 half Inf half 10 [] (fun _ => None) 4 [] [] 5).
  vm_compute. reflexivity.
Defined.

(** With allowed points {2, 7} the same request lands at 7. *)
Lemma compute_split_respects_allowed_points_witness :
  In 7 [2; 7] /\ (6 = 0 - 1 -> In 0 [2; 7]).
Proof.
  apply (SplitPlacement.compute_split_respects_allowed_points
           unit unit 0 half Inf half 10 [2; 7] (fun _ => None) 6 [] [] 7).
  - discriminate.
  - vm_compute. reflexivity.
Defined.

(** Three buffered bytes and a stop at 2: two are emitted. *)
Lemma process_encoded_emits_up_to_stop_witness :
  process_encoded byte_decoder 4 (set_stop (start initial) 2) three_bytes []
  = Some ({| index := 1; stop := Fin 2; started := true |},
          [(0, Byte.x01); (1, Byte.x02)], Returned tt).
Proof.
  apply (BufferFacts.process_encoded_emits_up_to_stop
           Byte.byte byte_decoder three_bytes [Byte.x01; Byte.x02; Byte.x03]).
  - repeat (eapply holds_cons; [reflexivity|]). apply holds_nil.
  - reflexivity.
  - simpl. lia.
Defined.

(** A byte that cannot be decoded is counted before the error escapes. *)
Lemma process_encoded_decode_failure_witness :
  process_encoded picky_decoder 4 (start initial) [Byte.x01; Byte.xff; Byte.x03] []
  = Some ({| index := 1; stop := Inf; started := true |},
          [(0, Byte.x01)], Raised ValueError).
Proof.
  apply (BufferFacts.process_encoded_decode_failure
           Byte.byte picky_decoder [Byte.x01; Byte.xff; Byte.x03] [Byte.x01]).
  - eapply fails_later; [reflexivity|]. apply fails_here. reflexivity.
  - reflexivity.
  - simpl. lia.
Defined.

(** The sink consumes the source: it is started first and finished last. *)
Lemma consumers_started_first_finished_last_witness :
  Bundle.height_of source_to_sink "sink" < Bundle.height_of source_to_sink "source"
  /\ BundleCalls.precedes "sink"%string "source"%string
                          (Bundle.started_order bundle_b_trace)
  /\ BundleCalls.precedes "source"%string "sink"%string
                          (Bundle.finished_order bundle_b_trace).
Proof.
  apply (BundleLifecycle.consumers_started_first_finished_last
           source_to_sink [] false source_sink_processor eq_refl
           nothing_fails "b"%string [Bundle.Data "source"%string three_bytes]
           source_sink_processor bundle_b_trace eq_refl).
  - simpl. auto.
  - simpl. auto.
Defined.

(** The calls of bundle ["b"]. *)
Lemma process_bundle_calls_in_order_witness :
  bundle_b_trace
  = BundleCalls.complete_trace source_sink_processor "b"%string
      [Bundle.Data "source"%string three_bytes].
Proof.
  apply (BundleLifecycle.process_bundle_calls_in_order
           nothing_fails source_sink_processor "b"%string
           [Bundle.Data "source"%string three_bytes] source_sink_processor).
  reflexivity.
Defined.

(** After a bundle whose data could not be decoded, a split request for
    that very bundle is stale. *)
Lemma split_after_the_bundle_is_stale_witness :
  ProcessorSplit.try_split unit unit
    (fst (Bundle.process_bundle decoding_fails source_sink_processor "b"%string
            [Bundle.Data "source"%string three_bytes]))
    [("source"%string, start initial)] "b"%string half_of_source silent_receivers
  = ([("source"%string, start initial)],
     Returned (ProcessorSplit.empty_response unit unit)).
Proof.
  apply (ProcessorSplitFacts.split_after_the_bundle_is_stale
           unit unit decoding_fails source_sink_processor "b"%string
           [Bundle.Data "source"%string three_bytes] eq_refl).
Defined.

(** A split of the running bundle: the stop of the source is the first
    residual element reported. *)
Lemma processor_try_split_reports_the_new_stops_witness :
  Forall (fun cs =>
            ProcessorSplit.last_primary_element cs
            < ProcessorSplit.first_residual_element cs
            <= ProcessorSplit.last_primary_element cs + 2
            /\ exists o',
                 In (ProcessorSplit.cs_transform_id cs, o')
                    [("source"%string, set_stop (start initial) 5)]
                 /\ stop o' = Fin (ProcessorSplit.first_residual_element cs))
         [ProcessorSplit.mkChannelSplit "source" 4 5].
Proof.
  apply (ProcessorSplitFacts.processor_try_split_reports_the_new_stops
           unit unit processor_running_b [("source"%string, start initial)]
           "b"%string half_of_source silent_receivers
           [("source"%string, set_stop (start initial) 5)]
           (ProcessorSplit.mkSplitResponse unit unit [] []
              [ProcessorSplit.mkChannelSplit "source" 4 5])).
  vm_compute. reflexivity.
Defined.

(** Two overlapping adds and one add of their union store the same. *)
Lemma range_set_is_canonical_witness :
  RangeSet.add_all [(0, 5); (3, 8)] = RangeSet.add_all [(0, 8)].
Proof.
  apply RangeSetCanonical.range_set_is_canonical.
  intro p. unfold RangeSet.covered. split.
  - intros (r & [<-|[<-|[]]] & Hp); simpl in Hp;
      exists (0, 8); (split; [now left|simpl; lia]).
  - intros (r & [<-|[]] & Hp). simpl in Hp.
    destruct (Z_lt_le_dec p 5).
    + exists (0, 5). split; [now left|simpl; lia].
    + exists (3, 8). split; [right; now left|simpl; lia].
Defined.

(** A bag over [1; 2] that was cleared and given 7 commits to [7]. *)
Lemma bag_commit_persists_what_read_showed_witness :
  Service.remote Z Z (list Z) memory_get memory_clear memory_extend [1; 2]
                 (KeyedState.bag_commit Z Z cleared_bag_with_7 idle_handler)
  = KeyedState.bag_read Z Z
      (Service.remote Z Z (list Z) memory_get memory_clear memory_extend [1; 2]
                      idle_handler)
      cleared_bag_with_7.
Proof.
  apply (ServiceFacts.bag_commit_persists_what_read_showed
           Z Z (list Z) memory_get memory_clear memory_extend).
  split; reflexivity.
Defined.

(** Write 3, clear, write 4: the value is 4, and 4 is what is stored. *)
Lemma read_modify_write_last_call_wins_witness :
  (forall held : list Z,
      ReadModifyWrite.read Z Z held
        (ReadModifyWrite.run Z Z
           ([ReadModifyWrite.Write Z 3; ReadModifyWrite.Clear_value Z]
            ++ [ReadModifyWrite.Write Z 4]) new_bag)
      = Some 4)
  /\ Service.remote Z Z (list Z) memory_get memory_clear memory_extend [1; 2]
       (ReadModifyWrite.commit Z Z
          (ReadModifyWrite.run Z Z
             ([ReadModifyWrite.Write Z 3; ReadModifyWrite.Clear_value Z]
              ++ [ReadModifyWrite.Write Z 4]) new_bag)
          idle_handler)
     = [4].
Proof.
  apply (ReadModifyWriteFacts.read_modify_write_last_call_wins
           Z Z (list Z) memory_get memory_clear memory_extend).
  split; reflexivity.
Defined.

(** Adding 7 twice, once with a compaction, shows 7 once. *)
Lemma set_members_do_not_depend_on_compaction_witness :
  NoDup (SetRuntime.read Z Z (list Z) Z.eq_dec memory_get memory_clear
           memory_extend [1; 2]
           (fst (SetRuntime.run Z Z (list Z) Z.eq_dec memory_get memory_clear
                   memory_extend [1; 2]
                   [SetRuntime.Add Z 7 true; SetRuntime.Add Z 7 false]
                   (new_set, idle_handler)))
           (snd (SetRuntime.run Z Z (list Z) Z.eq_dec memory_get memory_clear
                   memory_extend [1; 2]
                   [SetRuntime.Add Z 7 true; SetRuntime.Add Z 7 false]
                   (new_set, idle_handler)))).
Proof.
  apply (SetRuntimeFacts.set_members_do_not_depend_on_compaction
           Z Z (list Z) Z.eq_dec memory_get memory_clear memory_extend [1; 2]).
  split; reflexivity.
Defined.


(** The same read is in key order. *)
Lemma ordered_list_reads_in_key_order_witness :
  OrderedRead.keys_ascending Z
    (fst (OrderedRead.read_range Z Z Z.eqb int_ltb [(3, 1); (12, 2)]
                                 list_after_edits 0 15)).
Proof.
  apply (OrderedReadFacts.ordered_list_reads_in_key_order
           Z Z Z.eqb int_ltb 0 list_edits list_after_edits).
  - vm_compute. reflexivity.
  - unfold OrderedRead.keys_ascending. simpl.
    repeat constructor. lia.
Defined.

(** With values that have no order, the stored item of key 12 and the
    pending add of key 12 cannot be merged: nothing is yielded. *)
Example read_range_of_unorderable_values :
  OrderedRead.read_range Z Z Z.eqb no_order [(12, 2)] list_after_edits 0 15
  = ([], Raised TypeError).
Proof. reflexivity. Qed.

(** Keys 1, 7 and 1 again: three point lookups, the bulk iterable is
    not read. *)
Lemma multimap_without_bulk_read_uses_point_lookups_witness :
  snd (SideInput.lookups Z Z Z.eqb false (SideInput.fresh Z Z)
         [(counting_source 3 false, 1); (counting_source 3 false, 7);
          (counting_source 3 false, 1)])
  = [SideInput.Point_lookup Z Z 1; SideInput.Point_lookup Z Z 7;
     SideInput.Point_lookup Z Z 1].
Proof.
  apply (PointLookupFacts.multimap_without_bulk_read_uses_point_lookups
           Z Z Z.eqb Z.eqb_eq
           [(counting_source 3 false, 1); (counting_source 3 false, 7);
            (counting_source 3 false, 1)]).
Defined.

(** Windows 1 and 2 merge into 10; window 3 stays. *)
Lemma merge_accounts_for_every_window_witness :
  Permutation
    (MergeWindows.accounted Z
       {| MergeWindows.original_windows := [3];
          MergeWindows.merged_windows := [(10, [1; 2])] |})
    (MergeWindows.accounted Z three_windows).
Proof.
  apply (MergeWindowsFacts.merge_accounts_for_every_window
           Z Z.eq_dec [1; 2] 10 three_windows).
  - split; [constructor|].
    unfold MergeWindows.accounted. simpl.
    repeat constructor; simpl; intuition lia.
  - split; [repeat constructor; simpl; intuition lia|].
    simpl. intuition lia.
  - reflexivity.
Defined.

(** Of the windows 1, 2 and 3, the first two are merged into 10. *)
Lemma process_accounts_for_every_window_witness :
  Permutation
    (MergeWindows.accounted Z
       {| MergeWindows.original_windows := [3];
          MergeWindows.merged_windows := [(10, [1; 2])] |})
    (nodup Z.eq_dec [1; 2; 3])
  /\ NoDup (MergeWindows.accounted Z
              {| MergeWindows.original_windows := [3];
                 MergeWindows.merged_windows := [(10, [1; 2])] |})
  /\ NoDup (map fst [(10, [1; 2])]).
Proof.
  apply (MergeWindowsFacts.process_accounts_for_every_window
           Z Z.eq_dec merge_first_two [1; 2; 3]).
  - simpl. split; [|auto].
    split; [repeat constructor; simpl; intuition lia|].
    simpl. intuition lia.
  - reflexivity.
Defined.

(** The edits, committed on a stored [3; 12]: key 3 is dropped, keys 12
    and 20 are added. *)
Lemma ordered_list_commit_persists_the_calls_witness :
  Permutation
    (OrderedSamples.memory_items
       (OrderedService.replay Z Z (list (Z * Z))
          OrderedSamples.memory_clear_range OrderedSamples.memory_clear_all
          OrderedSamples.memory_append [(3, 1); (12, 2)]
          (snd (KeyedState.ol_commit Z Z list_after_edits
                  OrderedSamples.idle_list_handler))))
    (OrderedRead.items_after Z list_edits
       (OrderedSamples.memory_items
          (OrderedService.replay Z Z (list (Z * Z))
             OrderedSamples.memory_clear_range OrderedSamples.memory_clear_all
             OrderedSamples.memory_append [(3, 1); (12, 2)]
             OrderedSamples.idle_list_handler)))
  /\ fst (KeyedState.ol_commit Z Z list_after_edits
            OrderedSamples.idle_list_handler)
     = OrderedRead.fresh Z Z 0.
Proof.
  apply (OrderedCommitFacts.ordered_list_commit_persists_the_calls
           Z Z (list (Z * Z)) OrderedSamples.memory_items
           OrderedSamples.memory_clear_range OrderedSamples.memory_clear_all
           OrderedSamples.memory_append).
  - split; intros; reflexivity.
  - vm_compute. reflexivity.
  - unfold OrderedService.keys_valid. simpl.
    unfold KeyedState.RANGE_MIN, KeyedState.RANGE_MAX.
    repeat constructor; simpl; lia.
Defined.

(** Merging a merge result into itself loses its windows: after 1 and 2
    were merged into 1, merging 1 and 3 into 1 leaves no window
    accounted for. *)
Example merged_into_itself_loses_windows :
  bind (MergeWindows.merge Z Z.eq_dec [1; 2] 1 three_windows)
       (MergeWindows.merge Z Z.eq_dec [1; 3] 1)
  = Returned {| MergeWindows.original_windows := [];
                MergeWindows.merged_windows := [] |}.
Proof. reflexivity. Qed.

End FurtherExamples.
